(** * Credit-card statement parser: field extraction over page texts

    A shallow embedding of [creditcard_parser.py]: the text normalizer, the
    snippet builder, the issuer detector, the compiled label patterns with a
    backtracking matcher for them, and the five field extractors, followed by
    the properties of the specification proved about them. *)

From Stdlib Require Import List ZArith NArith Bool Lia String Ascii PrimFloat.
Import ListNotations.

Set Warnings "-inexact-float".
Local Open Scope Z_scope.

(** ** Python strings

    A Python [str] is a sequence of Unicode code points. *)

Definition char := N.
Definition str := list char.

(** An ASCII literal of the source, or an ASCII text, as a [str]. *)
Definition u (s : string) : str := map N_of_ascii (list_ascii_of_string s).

Definition SP : char := 32%N.          (* ' ' *)
Definition NL : char := 10%N.          (* '\n' *)
Definition RUPEE : char := 8377%N.     (* U+20B9 *)
Definition EN_DASH : char := 8211%N.   (* U+2013 *)

Definition len (s : str) : Z := Z.of_nat (List.length s).

Fixpoint str_eqb (a b : str) : bool :=
  match a, b with
  | [], [] => true
  | x :: a', y :: b' => N.eqb x y && str_eqb a' b'
  | _, _ => false
  end.

Fixpoint startswith (s prefix : str) {struct prefix} : bool :=
  match prefix, s with
  | [], _ => true
  | p :: prefix', x :: s' => N.eqb p x && startswith s' prefix'
  | _ :: _, [] => false
  end.

(** [needle in hay]. *)
Fixpoint contains (needle hay : str) : bool :=
  startswith hay needle ||
  match hay with
  | [] => false
  | _ :: hay' => contains needle hay'
  end.

(** [hay.find(needle)]: the lowest index of an occurrence, [-1] if none. *)
Fixpoint find_from (i : Z) (needle hay : str) : Z :=
  if startswith hay needle then i
  else match hay with
       | [] => -1
       | _ :: hay' => find_from (i + 1) needle hay'
       end.

Definition find (hay needle : str) : Z := find_from 0 needle hay.

(** [needle] is a substring of [hay]. *)
Definition occurs (needle hay : str) : Prop :=
  exists a b, hay = a ++ needle ++ b.

(** One of the keywords is a substring of [lc]. *)
Definition keyword_present (lc : str) (tokens : list str) : Prop :=
  exists tok, In tok tokens /\ occurs tok lc.

(** A slice bound as Python resolves it against a length [n]: a negative
    bound counts from the end, and every bound is clamped to [0..n]. *)
Definition slice_bound (n i : Z) : Z :=
  if i <? 0 then Z.max 0 (i + n) else Z.min i n.

(** [s[a:b]]. *)
Definition slice (s : str) (a b : Z) : str :=
  let lo := slice_bound (len s) a in
  let hi := slice_bound (len s) b in
  firstn (Z.to_nat (hi - lo)) (skipn (Z.to_nat lo) s).

(** [sep.join(parts)]. *)
Fixpoint join (sep : str) (parts : list str) : str :=
  match parts with
  | [] => []
  | [p] => p
  | p :: rest => p ++ sep ++ join sep rest
  end.

(** ** The character database of the runtime

    What the program asks of the Unicode tables of the interpreter: the
    whitespace and decimal-digit categories ([\s] and [str.strip], [\d]),
    the comparison of a pattern character with a text character under
    [re.I], and [str.lower].  The development is parametric in them. *)

Class Unicode := {
  isspace : char -> bool;
  isdecimal : char -> bool;
  ci_eq : char -> char -> bool;
  str_lower : str -> str;
  str_lower_nil : str_lower [] = []
}.

(** The tables restricted to Basic Latin, on which the concrete statements
    are run: the digits 0-9, the letters A-Z and a-z for case; the whitespace
    category is the interpreter's in full. *)

Local Open Scope N_scope.

Definition in_range (lo hi x : char) : bool := (N.leb lo x && N.leb x hi)%bool.

Definition latin_isspace (c : char) : bool :=
  (in_range 9 13 c || in_range 28 32 c || N.eqb c 133 || N.eqb c 160
   || N.eqb c 5760 || in_range 8192 8202 c || N.eqb c 8232 || N.eqb c 8233
   || N.eqb c 8239 || N.eqb c 8287 || N.eqb c 12288)%bool.

Definition latin_isdecimal (c : char) : bool := in_range 48 57 c.

Definition latin_isupper (c : char) : bool := in_range 65 90 c.
Definition latin_islower (c : char) : bool := in_range 97 122 c.
Definition latin_tolower (c : char) : char :=
  if latin_isupper c then c + 32 else c.
Definition latin_toupper (c : char) : char :=
  if latin_islower c then c - 32 else c.

Local Close Scope N_scope.

Definition Latin : Unicode := {|
  isspace := latin_isspace;
  isdecimal := latin_isdecimal;
  ci_eq := fun p x => N.eqb (latin_tolower x) (latin_tolower p);
  str_lower := map latin_tolower;
  str_lower_nil := eq_refl
|}.

(** [s.title()] on the product names of the variant tables, which are Basic
    Latin: a cased character is upper-cased when the character before it is
    not cased, and lower-cased otherwise. *)
Fixpoint title_from (prev_cased : bool) (s : str) : str :=
  match s with
  | [] => []
  | c :: s' =>
      if (latin_isupper c || latin_islower c)%bool
      then (if prev_cased then latin_tolower c else latin_toupper c)
             :: title_from true s'
      else c :: title_from false s'
  end.

Definition title (s : str) : str := title_from false s.

(** ** Patterns

    The fragment of [re] syntax the program's patterns are written in.  A
    repetition is over a single-character atom, as all of them are in the
    source; an optional group is [Opt]; [Grp] is the capturing group 1. *)

Inductive item :=
| ILit (c : char)
| IRange (lo hi : char)
| IDigit
| ISpace.

Inductive re :=
| Eps
| Chr (c : char)
| In_ (items : list item)
| Cat (r1 r2 : re)
| Alt (r1 r2 : re)
| Opt (r : re)
| Rep (lo : nat) (hi : option nat) (items : list item)
| Grp (r : re).

(** A compiled pattern: the expression and whether [re.I] is set. *)
Record pattern := { p_re : re; p_ic : bool }.

(** One point of the matcher's backtracking: the position reached, the text
    still ahead, and what group 1 holds. *)
Record state := { pos : nat; rest : str; grp : option str }.

(** A match object: [span()], [group(0)] and [group(1)] ([None] when the
    group took no part in the match). *)
Record Match := {
  m_start : nat;
  m_end : nat;
  m_group0 : str;
  m_group1 : option str
}.

Definition span (m : Match) : Z * Z := (Z.of_nat (m_start m), Z.of_nat (m_end m)).

Definition ch (a : ascii) : char := N_of_ascii a.
Arguments ch a%_char.

Definition lit (s : string) : re :=
  fold_right (fun c r => Cat (Chr c) r) Eps (u s).

Fixpoint alts (rs : list re) : re :=
  match rs with
  | [] => Eps
  | [r] => r
  | r :: rs' => Alt r (alts rs')
  end.

Fixpoint cats (rs : list re) : re :=
  match rs with
  | [] => Eps
  | [r] => r
  | r :: rs' => Cat r (cats rs')
  end.

Definition chars_between (lo hi : char) : list char :=
  map N.of_nat (seq (N.to_nat lo) (N.to_nat hi + 1 - N.to_nat lo)).

Definition can_repeat (hi : option nat) : bool :=
  match hi with
  | Some O => false
  | _ => true
  end.

Definition one_less (hi : option nat) : option nat := option_map pred hi.

(** The pattern characters of the program are Basic Latin, the rupee sign and
    the en dash; of these the letters have case.  Under [re.I] the engine
    compares a pattern character that has no case exactly. *)
Definition pat_cased (c : char) : bool := (latin_isupper c || latin_islower c)%bool.

(** *** The compiled patterns of the program

    Each is given with the source expression it renders; where a closing
    parenthesis follows a star in the source, a space is put between them
    here, and the rupee sign and the en dash are written as escapes. *)

Local Open Scope nat_scope.

Definition ws_plus : re := Rep 1 None [ISpace].
Definition ws_star : re := Rep 0 None [ISpace].
Definition digits (lo hi : nat) : re := Rep lo (Some hi) [IDigit].
Definition sep_opt : re := Rep 0 (Some 1) [ILit (ch ":"); ILit (ch "-")].
Definition date_sep : re := In_ [ILit (ch "/"); ILit (ch "-")].

(** [(?:Card(?:\s+ending\s+in| number| no\.?)|Account(?:\s+ending\s+in)|Acct(?:\.)?|ending|XXX-XXXX-)(?:[:\-]?\s* )?(\d{4})],
    with [re.I] *)
Definition RE_LAST4 : pattern := {|
  p_re :=
    cats
      [ alts
          [ Cat (lit "Card")
              (alts [ cats [ws_plus; lit "ending"; ws_plus; lit "in"];
                      lit " number";
                      Cat (lit " no") (Rep 0 (Some 1) [ILit (ch ".")]) ]);
            Cat (lit "Account") (cats [ws_plus; lit "ending"; ws_plus; lit "in"]);
            Cat (lit "Acct") (Opt (Chr (ch ".")));
            lit "ending";
            lit "XXX-XXXX-" ];
        Opt (Cat sep_opt ws_star);
        Grp (digits 4 4) ];
  p_ic := true |}.

(** [(\d{1,2}[\/\-]\d{1,2}[\/\-]\d{2,4})] *)
Definition RE_DATE : pattern := {|
  p_re := Grp (cats [digits 1 2; date_sep; digits 1 2; date_sep; digits 2 4]);
  p_ic := false |}.

(** [([A-Z][a-z]{2,8}\s+\d{1,2},\s*\d{4})] *)
Definition RE_DATE_WORD : pattern := {|
  p_re :=
    Grp (cats [ In_ [IRange (ch "A") (ch "Z")];
                Rep 2 (Some 8) [IRange (ch "a") (ch "z")];
                ws_plus; digits 1 2; Chr (ch ","); ws_star; digits 4 4 ]);
  p_ic := false |}.

(** The two date shapes as the specification words them: a year of two or of
    four digits; one space before the day and one after the comma. *)
Definition SPEC_DATE : re :=
  cats [digits 1 2; date_sep; digits 1 2; date_sep; Alt (digits 4 4) (digits 2 2)].

Definition SPEC_DATE_WORD : re :=
  cats [ In_ [IRange (ch "A") (ch "Z")];
         Rep 2 (Some 8) [IRange (ch "a") (ch "z")];
         Chr (ch " "); digits 1 2; Chr (ch ","); Chr (ch " "); digits 4 4 ].

(** [[A-Za-z0-9 ,\/\-]] *)
Definition due_phrase : list item :=
  [ IRange (ch "A") (ch "Z"); IRange (ch "a") (ch "z"); IRange (ch "0") (ch "9");
    ILit (ch " "); ILit (ch ","); ILit (ch "/"); ILit (ch "-") ].

(** [(?:Payment Due Date|Due Date|Payment Due On|Pay By Date)\s*(?:[:\-]?\s* )([A-Za-z0-9 ,\/\-]+)],
    with [re.I] *)
Definition RE_DUE : pattern := {|
  p_re :=
    cats
      [ alts [ lit "Payment Due Date"; lit "Due Date"; lit "Payment Due On";
               lit "Pay By Date" ];
        ws_star;
        Cat sep_opt ws_star;
        Grp (Rep 1 None due_phrase) ];
  p_ic := true |}.

(** [[A-Za-z0-9 ,\/\-\u2013to]] *)
Definition period_phrase : list item :=
  due_phrase ++ [ ILit EN_DASH; ILit (ch "t"); ILit (ch "o") ].

(** [(?:Statement Period|Billing Period|Statement Date Range|Account Activity)\s*(?:[:\-]?\s* )([A-Za-z0-9 ,\/\-\u2013to]+)],
    with [re.I] *)
Definition RE_PERIOD : pattern := {|
  p_re :=
    cats
      [ alts [ lit "Statement Period"; lit "Billing Period";
               lit "Statement Date Range"; lit "Account Activity" ];
        ws_star;
        Cat sep_opt ws_star;
        Grp (Rep 1 None period_phrase) ];
  p_ic := true |}.

(** [\u20b9?\s*[,\d]+(?:\.\d{2})?] *)
Definition currency : re :=
  cats [ Rep 0 (Some 1) [ILit RUPEE];
         ws_star;
         Rep 1 None [ILit (ch ","); IDigit];
         Opt (Cat (Chr (ch ".")) (digits 2 2)) ].

(** [(?:Total Amount Due|Total Outstanding|Total Due|New Balance|Amount Due|Balance Due)\s*(?:[:\-]?\s* )(\u20b9?\s*[,\d]+(?:\.\d{2})?)],
    with [re.I] *)
Definition RE_TOTAL_BAL : pattern := {|
  p_re :=
    cats
      [ alts [ lit "Total Amount Due"; lit "Total Outstanding"; lit "Total Due";
               lit "New Balance"; lit "Amount Due"; lit "Balance Due" ];
        ws_star;
        Cat sep_opt ws_star;
        Grp currency ];
  p_ic := true |}.

Definition RE_CURRENCY : pattern := {| p_re := currency; p_ic := false |}.

(** [\s+], the pattern of the normalizer *)
Definition RE_SPACES : pattern := {| p_re := ws_plus; p_ic := false |}.

Local Close Scope nat_scope.

(** *** Issuer keywords and card-variant names, in declaration order *)

Definition ISSUERS : list (str * list str) :=
  [ (u "pnb", [u "pnb"; u "punjab national bank"]);
    (u "lena", [u "lena"; u "bofa"; u "bankofamerica"]);
    (u "hdfc", [u "hdfc"]);
    (u "sbi", [u "sbi"; u "state bank of india"]) ].

Definition variant_names (issuer_hint : str) : list str :=
  if str_eqb issuer_hint (u "chase") then
    [u "sapphire"; u "freedom"; u "ink"; u "slate"]
  else if str_eqb issuer_hint (u "amex") then
    [u "platinum"; u "gold"; u "green"; u "blue"]
  else if str_eqb issuer_hint (u "citi") then
    [u "thankyou"; u "premier"; u "double cash"]
  else if str_eqb issuer_hint (u "boa") then
    [u "cash rewards"; u "customized cash"]
  else if str_eqb issuer_hint (u "hsbc") then
    [u "premier"; u "advance"]
  else if str_eqb issuer_hint (u "sbi") then
    [u "prime"; u "simplyclick"; u "elite"; u "classic"]
  else [].

(** ** Results *)

Record Extraction := {
  value : option str;
  page : option Z;
  snippet : option str;
  confidence : float;
  notes : option str
}.

(** What a call comes to: a value, or the [TypeError] raised when [None]
    is passed where a string is required. *)
Inductive outcome (A : Type) :=
| Returns (a : A)
| Raises_TypeError.
Arguments Returns {A} a.
Arguments Raises_TypeError {A}.

Definition bind {A B : Type} (o : outcome A) (f : A -> outcome B) : outcome B :=
  match o with
  | Returns a => f a
  | Raises_TypeError => Raises_TypeError
  end.

Definition absent (note : string) : Extraction :=
  {| value := None; page := None; snippet := None;
     confidence := 0%float; notes := Some (u note) |}.

Record StatementRecord := {
  issuer_hint : option str;
  card_last4 : Extraction;
  card_variant : Extraction;
  statement_period : Extraction;
  payment_due_date : Extraction;
  total_balance : Extraction
}.

Section Parser.
Context {U : Unicode}.

(** *** The matcher *)

(** A pattern character [c] against a text character [x]: under [re.I] a
    letter is compared through the case tables, any other character exactly. *)
Definition lit_ok (ic : bool) (c x : char) : bool :=
  if (ic && pat_cased c)%bool then ci_eq c x else N.eqb c x.

(** An element of a character set; under [re.I] a range takes what any of
    its characters takes. *)
Definition item_ok (ic : bool) (it : item) (x : char) : bool :=
  match it with
  | ILit c => lit_ok ic c x
  | IRange lo hi =>
      if ic then existsb (fun c => lit_ok ic c x) (chars_between lo hi)
      else in_range lo hi x
  | IDigit => isdecimal x
  | ISpace => isspace x
  end.

Definition set_ok (ic : bool) (items : list item) (x : char) : bool :=
  existsb (fun it => item_ok ic it x) items.

(** Greedy repetition of a one-character test: every count the bounds allow,
    the longest first. *)
Fixpoint rep_parses (ok : char -> bool) (lo : nat) (hi : option nat)
    (i : nat) (s : str) (g : option str) : list state :=
  let stop := if Nat.eqb lo 0 then [Build_state i s g] else [] in
  match s with
  | x :: s' =>
      if (ok x && can_repeat hi)%bool
      then rep_parses ok (pred lo) (one_less hi) (S i) s' g ++ stop
      else stop
  | [] => stop
  end.

(** All the ways [r] matches at a state, in the order a backtracking matcher
    tries them: the first of an alternation before the second, a repetition
    from its longest, an optional group taken before it is skipped. *)
Fixpoint parses (ic : bool) (r : re) (st : state) : list state :=
  match r with
  | Eps => [st]
  | Chr c =>
      match rest st with
      | x :: s' =>
          if item_ok ic (ILit c) x then [Build_state (S (pos st)) s' (grp st)] else []
      | [] => []
      end
  | In_ items =>
      match rest st with
      | x :: s' =>
          if set_ok ic items x then [Build_state (S (pos st)) s' (grp st)] else []
      | [] => []
      end
  | Cat r1 r2 => flat_map (parses ic r2) (parses ic r1 st)
  | Alt r1 r2 => parses ic r1 st ++ parses ic r2 st
  | Opt r1 => parses ic r1 st ++ [st]
  | Rep lo hi items => rep_parses (set_ok ic items) lo hi (pos st) (rest st) (grp st)
  | Grp r1 =>
      map (fun st' =>
             Build_state (pos st') (rest st')
               (Some (firstn (pos st' - pos st) (rest st))))
          (parses ic r1 st)
  end.

(** [p.search(text)] from position [i], [s] being the text from there on: the
    first way of matching at the lowest position that has one. *)
Fixpoint search_from (p : pattern) (i : nat) (s : str) : option Match :=
  match parses (p_ic p) (p_re p) (Build_state i s None) with
  | st :: _ =>
      Some (Build_Match i (pos st) (firstn (pos st - i) s) (grp st))
  | [] =>
      match s with
      | [] => None
      | _ :: s' => search_from p (S i) s'
      end
  end.

Definition search (p : pattern) (text : str) : option Match := search_from p 0 text.

(** *** What a pattern denotes

    [sem ic r w g g']: the word [w] is matched by [r], and group 1, holding
    [g] before, holds [g'] after. *)

Definition within (hi : option nat) (n : nat) : Prop :=
  match hi with
  | Some h => (n <= h)%nat
  | None => True
  end.

Fixpoint sem (ic : bool) (r : re) (w : str) (g g' : option str) : Prop :=
  match r with
  | Eps => w = [] /\ g' = g
  | Chr c => exists x, w = [x] /\ lit_ok ic c x = true /\ g' = g
  | In_ items => exists x, w = [x] /\ set_ok ic items x = true /\ g' = g
  | Cat r1 r2 =>
      exists w1 w2 gm, w = w1 ++ w2 /\ sem ic r1 w1 g gm /\ sem ic r2 w2 gm g'
  | Alt r1 r2 => sem ic r1 w g g' \/ sem ic r2 w g g'
  | Opt r1 => sem ic r1 w g g' \/ (w = [] /\ g' = g)
  | Rep lo hi items =>
      forallb (set_ok ic items) w = true /\
      (lo <= List.length w)%nat /\ within hi (List.length w) /\ g' = g
  | Grp r1 => exists gi, sem ic r1 w g gi /\ g' = Some w
  end.

(** The group a pattern ends with, if it ends with one. *)
Fixpoint tail_group (r : re) : option re :=
  match r with
  | Grp b => Some b
  | Cat _ r2 => tail_group r2
  | _ => None
  end.

(** No group inside, and no letter among the pattern characters. *)
Definition item_caseless (it : item) : bool :=
  match it with
  | ILit c => negb (pat_cased c)
  | IRange _ _ => false
  | IDigit | ISpace => true
  end.

Fixpoint plain (r : re) : bool :=
  match r with
  | Eps => true
  | Chr c => negb (pat_cased c)
  | In_ items => forallb item_caseless items
  | Cat r1 r2 | Alt r1 r2 => plain r1 && plain r2
  | Opt r1 => plain r1
  | Rep _ _ items => forallb item_caseless items
  | Grp _ => false
  end.

(** [re.sub(p, repl, s)] for a pattern that matches no empty string: each
    match, searched from where the one before it ended, is replaced by
    [repl].  A match takes a character at least, so as many rounds as [s] has
    characters, and one, reach the end. *)
Fixpoint sub_rounds (rounds : nat) (p : pattern) (repl s : str) : str :=
  match rounds with
  | O => s
  | S rounds' =>
      match search p s with
      | None => s
      | Some m =>
          firstn (m_start m) s ++ repl
            ++ sub_rounds rounds' p repl (skipn (m_end m) s)
      end
  end.

Definition re_sub (p : pattern) (repl s : str) : str :=
  sub_rounds (S (List.length s)) p repl s.

(** ** Text normalizer *)

(** What [re.sub(r'\s+', ' ', s)] comes to, as one scan: every maximal run of
    whitespace becomes one space; [in_run] tells that the run the scan is in
    has been replaced. *)
Fixpoint sub_spaces (in_run : bool) (s : str) : str :=
  match s with
  | [] => []
  | c :: s' =>
      if isspace c
      then (if in_run then sub_spaces true s' else SP :: sub_spaces true s')
      else c :: sub_spaces false s'
  end.

Fixpoint lstrip (s : str) : str :=
  match s with
  | [] => []
  | c :: s' => if isspace c then lstrip s' else s
  end.

Definition rstrip (s : str) : str := rev (lstrip (rev s)).

Definition strip (s : str) : str := rstrip (lstrip s).

Definition normalize_spaces (s : str) : str := strip (re_sub RE_SPACES [SP] s).

(** The first character, if there is one, is not whitespace. *)
Definition starts_clean (s : str) : Prop :=
  match s with
  | [] => True
  | d :: _ => isspace d = false
  end.

(** Every whitespace character is a single space standing alone. *)
Fixpoint single_spaced (s : str) : Prop :=
  match s with
  | [] => True
  | c :: s' => (isspace c = true -> c = SP /\ starts_clean s') /\ single_spaced s'
  end.

(** ** Snippet builder *)

Definition snippet_around (text : str) (match_span : Z * Z) (context : Z) : str :=
  let start := Z.max 0 (fst match_span - context) in
  let end_ := Z.min (len text) (snd match_span + context) in
  normalize_spaces (slice text start end_).

(** ** Issuer detector *)

Fixpoint any_token_in (lc : str) (tokens : list str) : bool :=
  match tokens with
  | [] => false
  | tok :: tokens' => if contains tok lc then true else any_token_in lc tokens'
  end.

Fixpoint first_issuer (lc : str) (issuers : list (str * list str)) : option str :=
  match issuers with
  | [] => None
  | (key, tokens) :: issuers' =>
      if any_token_in lc tokens then Some key else first_issuer lc issuers'
  end.

Definition find_issuer (all_text : str) : option str :=
  let lc := str_lower all_text in
  first_issuer lc ISSUERS.

(** ** Field extractors

    Each loop takes the index [i] that [enumerate] gives the page at the head
    of [pages]. *)

Definition found (v : option str) (i : Z) (text : str) (m : Match) (conf : float)
  : Extraction :=
  {| value := v; page := Some (i + 1);
     snippet := Some (snippet_around text (span m) 40);
     confidence := conf; notes := None |}.

Fixpoint last4_loop (i : Z) (pages : list str) : Extraction :=
  match pages with
  | [] => absent "not found"
  | text :: pages' =>
      match search RE_LAST4 text with
      | Some m => found (m_group1 m) i text m 0.95
      | None => last4_loop (i + 1) pages'
      end
  end.

Definition extract_last4 (pages : list str) : Extraction := last4_loop 0 pages.

(** [RE_DATE.search(g) or RE_DATE_WORD.search(g)] *)
Definition search_date (g : str) : option Match :=
  match search RE_DATE g with
  | Some d => Some d
  | None => search RE_DATE_WORD g
  end.

Fixpoint due_date_loop (i : Z) (pages : list str) : outcome Extraction :=
  match pages with
  | [] => Returns (absent "not found")
  | text :: pages' =>
      match search RE_DUE text with
      | Some m =>
          match m_group1 m with
          | None => Raises_TypeError
          | Some g =>
              match search_date g with
              | Some d =>
                  match m_group1 d with
                  | None => Raises_TypeError
                  | Some v => Returns (found (Some (normalize_spaces v)) i text m 0.95)
                  end
              | None => due_date_loop (i + 1) pages'
              end
          end
      | None => due_date_loop (i + 1) pages'
      end
  end.

Definition extract_due_date (pages : list str) : outcome Extraction :=
  due_date_loop 0 pages.

Fixpoint period_loop (i : Z) (pages : list str) : outcome Extraction :=
  match pages with
  | [] => Returns (absent "not found")
  | text :: pages' =>
      match search RE_PERIOD text with
      | Some m =>
          match m_group1 m with
          | None => Raises_TypeError
          | Some g => Returns (found (Some (normalize_spaces g)) i text m 0.9)
          end
      | None => period_loop (i + 1) pages'
      end
  end.

Definition extract_statement_period (pages : list str) : outcome Extraction :=
  period_loop 0 pages.

Fixpoint total_loop (i : Z) (pages : list str) : outcome Extraction :=
  match pages with
  | [] => Returns (absent "not found")
  | text :: pages' =>
      match search RE_TOTAL_BAL text with
      | Some m =>
          match m_group1 m with
          | None => Raises_TypeError
          | Some g =>
              match search RE_CURRENCY g with
              | Some amt => Returns (found (Some (m_group0 amt)) i text m 0.95)
              | None => Returns (found (Some (normalize_spaces g)) i text m 0.8)
              end
          end
      | None => total_loop (i + 1) pages'
      end
  end.

Definition extract_total_balance (pages : list str) : outcome Extraction :=
  total_loop 0 pages.

(** The value and the confidence the total-balance extractor derives from
    the phrase its label pattern captured (the two [return]s under [if m]). *)
Definition balance_value (g : str) : option str * float :=
  match search RE_CURRENCY g with
  | Some amt => (Some (m_group0 amt), 0.95%float)
  | None => (Some (normalize_spaces g), 0.8%float)
  end.

(** The inner loop of the variant extractor over the candidate names. *)
Fixpoint variant_on_page (i : Z) (text lc : str) (names : list str) : option Extraction :=
  match names with
  | [] => None
  | nm :: names' =>
      if contains nm lc then
        let idx := find lc nm in
        let snip := normalize_spaces (slice text (Z.max 0 (idx - 30)) (idx + 30)) in
        Some {| value := Some (title nm); page := Some (i + 1);
                snippet := Some snip; confidence := 0.85; notes := None |}
      else variant_on_page i text lc names'
  end.

Fixpoint variant_loop (names : list str) (i : Z) (pages : list str) : Extraction :=
  match pages with
  | [] => absent "not found"
  | text :: pages' =>
      let lc := str_lower text in
      match variant_on_page i text lc names with
      | Some e => e
      | None => variant_loop names (i + 1) pages'
      end
  end.

(** [not issuer_hint] holds of [None] and of the empty string. *)
Definition extract_card_variant (pages : list str) (issuer_hint : option str)
  : Extraction :=
  match issuer_hint with
  | None | Some [] => absent "issuer unknown"
  | Some hint => variant_loop (variant_names hint) 0 pages
  end.

(** A page on which the due-date extractor finds its value: the label
    pattern matches and the phrase it captures holds a date. *)
Definition dated_page (text : str) : Prop :=
  exists m g d,
    search RE_DUE text = Some m /\ m_group1 m = Some g /\ search_date g = Some d.

(** *** The shapes of the values *)

Definition is_digit (c : char) : Prop := isdecimal c = true.
Definition is_space (c : char) : Prop := isspace c = true.

(** Between [lo] and [hi] decimal digits. *)
Definition digit_run (lo hi : nat) (w : str) : Prop :=
  (lo <= List.length w <= hi)%nat /\ Forall is_digit w.

Definition is_date_sep (c : char) : Prop := c = ch "/" \/ c = ch "-".

(** [\d{1,2}[\/\-]\d{1,2}[\/\-]\d{2,4}] *)
Definition numeric_date_shape (v : str) : Prop :=
  exists d1 s1 d2 s2 y,
    v = d1 ++ [s1] ++ d2 ++ [s2] ++ y /\
    digit_run 1 2 d1 /\ is_date_sep s1 /\
    digit_run 1 2 d2 /\ is_date_sep s2 /\
    digit_run 2 4 y.

(** [[A-Z][a-z]{2,8}\s+\d{1,2},\s*\d{4}] *)
Definition worded_date_shape (v : str) : Prop :=
  exists cap low ws1 day ws2 year,
    v = [cap] ++ low ++ ws1 ++ day ++ [ch ","] ++ ws2 ++ year /\
    in_range (ch "A") (ch "Z") cap = true /\
    (2 <= List.length low <= 8)%nat /\
    Forall (fun c => in_range (ch "a") (ch "z") c = true) low /\
    ws1 <> [] /\ Forall is_space ws1 /\
    digit_run 1 2 day /\
    Forall is_space ws2 /\
    digit_run 4 4 year.

(** The currency pattern: an optional rupee sign, whitespace, a run of
    commas and digits that is not empty, an optional fraction of a point and
    two digits. *)
Definition currency_shape (tok : str) : Prop :=
  exists sign ws body frac,
    tok = sign ++ ws ++ body ++ frac /\
    (sign = [] \/ sign = [RUPEE]) /\
    Forall is_space ws /\
    body <> [] /\
    Forall (fun c => c = ch "," \/ is_digit c) body /\
    (frac = [] \/
     exists d1 d2, frac = [ch "."; d1; d2] /\ is_digit d1 /\ is_digit d2).


(** The whole of [w] is matched by [r]. *)
Definition fullmatch (r : re) (w : str) : bool :=
  existsb (fun st => match rest st with [] => true | _ => false end)
          (parses false r (Build_state 0 w None)).

(** [value is None <=> confidence == 0.0 <=> notes is set], pairwise. *)
Definition absent_iff (e : Extraction) : Prop :=
  (value e = None <-> PrimFloat.eqb (confidence e) 0 = true)
  /\ (PrimFloat.eqb (confidence e) 0 = true <-> notes e <> None)
  /\ (value e = None <-> notes e <> None).

(** ** Result aggregator

    [parse_pdf] from the page texts on; obtaining them from the document is
    the work of the PDF library. *)
Definition parse_pages (pages : list str) : outcome StatementRecord :=
  let fulltext := join [NL] pages in
  let issuer := find_issuer fulltext in
  let last4 := extract_last4 pages in
  bind (extract_due_date pages) (fun due =>
  bind (extract_statement_period pages) (fun period =>
  bind (extract_total_balance pages) (fun total =>
  let variant := extract_card_variant pages issuer in
  Returns {| issuer_hint := issuer;
             card_last4 := last4;
             card_variant := variant;
             statement_period := period;
             payment_due_date := due;
             total_balance := total |}))).

End Parser.

(** ** Document text

    [text_from_pdf] from what [extract_text] gives for the pages of the
    opened document, in their order, [None] where a page has no text; the
    opening and reading of the file is the work of the PDF library. *)

(** [p.extract_text() or ''] *)
Definition or_empty (text : option str) : str :=
  match text with
  | Some s => s
  | None => []
  end.

Fixpoint text_from_pdf (extracted : list (option str)) : list str :=
  match extracted with
  | [] => []
  | t :: more => or_empty t :: text_from_pdf more
  end.

Section Entry.
Context {U : Unicode}.

Definition parse_pdf (extracted : list (option str)) : outcome StatementRecord :=
  parse_pages (text_from_pdf extracted).

Definition parse_credit_card_statement (extracted : list (option str))
  : outcome StatementRecord :=
  parse_pdf extracted.

(** *** What the results are stated with *)

(** An extraction is the not-found one, or has all of value, page and
    snippet, the confidence [conf], no notes, and a page among the [n] that
    follow page [lo]. *)
Definition result_shape (conf : float) (n lo : Z) (e : Extraction) : Prop :=
  e = absent "not found" \/
  exists v p s,
    lo < p <= lo + n /\
    e = {| value := Some v; page := Some p; snippet := Some s;
           confidence := conf; notes := None |}.

(** The page at index [k] is the first that [p] matches, with match [m]. *)
Definition first_match_at (p : pattern) (pages : list str) (k : nat)
    (text : str) (m : Match) : Prop :=
  nth_error pages k = Some text /\
  search p text = Some m /\
  forall j t, (j < k)%nat -> nth_error pages j = Some t -> search p t = None.

(** The page at index [k] is the first dated one. *)
Definition first_dated_at (pages : list str) (k : nat) (text : str) : Prop :=
  nth_error pages k = Some text /\
  dated_page text /\
  forall j t, (j < k)%nat -> nth_error pages j = Some t -> ~ dated_page t.

(** The page number moved on by [k]. *)
Definition shift_page (k : Z) (e : Extraction) : Extraction :=
  {| value := value e;
     page := option_map (Z.add k) (page e);
     snippet := snippet e;
     confidence := confidence e;
     notes := notes e |}.

Definition pages_count (pages : list str) : Z := Z.of_nat (List.length pages).

(** A page with no text: [extract_text] gave [None] or the empty string. *)
Definition textless (t : option str) : Prop := t = None \/ t = Some [].

(** The issuer codes that have candidate names. *)
Definition VARIANT_ISSUERS : list str :=
  [u "chase"; u "amex"; u "citi"; u "boa"; u "hsbc"; u "sbi"].

(** No candidate name of the list occurs in the lower-cased text. *)
Definition no_name_on (names : list str) (text : str) : Prop :=
  forall n, In n names -> ~ occurs n (str_lower text).

(** [s] is the snippet built around a match of [p] on one of the pages. *)
Definition snippet_of_match (p : pattern) (pages : list str) (s : str) : Prop :=
  exists text m,
    In text pages /\ search p text = Some m /\
    s = snippet_around text (span m) 40.

(** The characters of [s] that are not whitespace, in order. *)
Definition visible (s : str) : str := filter (fun c => negb (isspace c)) s.

End Entry.

(** *** Matcher states compared

    What relates the ways of matching from two states: the same way further
    on in the text, with another content of the group, or cut at a bound. *)

Definition bump (k : nat) (st : state) : state :=
  Build_state (pos st + k) (rest st) (grp st).

Definition regroup (g : option str) (st : state) : state :=
  Build_state (pos st) (rest st) g.

Definition trim (bound : nat) (st : state) : state :=
  Build_state (pos st) (firstn (bound - pos st) (rest st)) (grp st).

Definition inside (bound : nat) (st : state) : bool := Nat.leb (pos st) bound.

(** * Properties *)

(** ** Substrings and slices *)

Section SubstringFacts.

Lemma startswith_spec (s prefix : str) :
  startswith s prefix = true <-> exists b, s = prefix ++ b.
Proof.
  revert s; induction prefix as [|c prefix IH]; intros s; simpl.
  - split; [intros _; exists s; reflexivity | reflexivity].
  - destruct s as [|x s].
    + split; [discriminate | intros [b H]; discriminate].
    + rewrite andb_true_iff, N.eqb_eq, IH.
      split.
      * intros [-> [b ->]]; exists b; reflexivity.
      * intros [b H]; injection H as -> ->; split; [reflexivity | exists b; reflexivity].
Qed.

Lemma contains_spec (needle hay : str) :
  contains needle hay = true <-> occurs needle hay.
Proof.
  unfold occurs; induction hay as [|x hay IH]; simpl.
  - rewrite orb_false_r, startswith_spec; split.
    + intros [b H]; exists [], b; exact H.
    + intros (a & b & H).
      destruct a as [|y a]; [exists b; exact H | discriminate].
  - rewrite orb_true_iff, startswith_spec, IH; split.
    + intros [[b H]|(a & b & H)].
      * exists [], b; exact H.
      * exists (x :: a), b; rewrite H; reflexivity.
    + intros (a & b & H).
      destruct a as [|y a]; [left; exists b; exact H|].
      right; injection H as _ H; exists a, b; exact H.
Qed.

Lemma contains_false (needle hay : str) :
  contains needle hay = false <-> ~ occurs needle hay.
Proof.
  rewrite <- contains_spec; destruct (contains needle hay); split; congruence.
Qed.

End SubstringFacts.

(** ** The normalizer *)

Section NormalizerFacts.
Context {U : Unicode}.

Lemma sub_spaces_in_run_clean (s : str) : starts_clean (sub_spaces true s).
Proof.
  induction s as [|c s IH]; simpl; [exact I|].
  destruct (isspace c) eqn:E; simpl; auto.
Qed.

Lemma sub_spaces_single_spaced (b : bool) (s : str) :
  single_spaced (sub_spaces b s).
Proof.
  revert b; induction s as [|c s IH]; intro b; simpl; [exact I|].
  destruct (isspace c) eqn:E.
  - destruct b; [apply IH|].
    simpl; split; [|apply IH].
    intros _; split; [reflexivity | apply sub_spaces_in_run_clean].
  - simpl; split; [|apply IH].
    intros H; congruence.
Qed.

Lemma sub_spaces_after_clean (s : str) :
  starts_clean s -> sub_spaces true s = sub_spaces false s.
Proof.
  destruct s as [|d s]; simpl; [reflexivity|].
  intros ->; reflexivity.
Qed.

Lemma sub_spaces_fixed (s : str) :
  single_spaced s -> sub_spaces false s = s.
Proof.
  induction s as [|c s IH]; simpl; [reflexivity|].
  intros [Hc Hs].
  destruct (isspace c) eqn:E.
  - destruct (Hc eq_refl) as [-> Hn].
    rewrite (sub_spaces_after_clean _ Hn), (IH Hs); reflexivity.
  - rewrite (IH Hs); reflexivity.
Qed.

Lemma single_spaced_tail (s t : str) : single_spaced (s ++ t) -> single_spaced t.
Proof.
  induction s as [|c s IH]; simpl; [auto|].
  intros [_ H]; auto.
Qed.

Lemma single_spaced_front (s t : str) : single_spaced (s ++ t) -> single_spaced s.
Proof.
  induction s as [|c s IH]; simpl; [auto|].
  intros [Hc Hs]; split; [|auto].
  intros E; destruct (Hc E) as [-> Hn]; split; [reflexivity|].
  destruct s; simpl in *; auto.
Qed.

Lemma lstrip_suffix (s : str) : exists a, s = a ++ lstrip s.
Proof.
  induction s as [|c s [a IH]]; simpl.
  - exists []; reflexivity.
  - destruct (isspace c).
    + exists (c :: a); simpl; congruence.
    + exists []; reflexivity.
Qed.

Lemma rstrip_prefix (s : str) : exists b, s = rstrip s ++ b.
Proof.
  unfold rstrip.
  destruct (lstrip_suffix (rev s)) as [a Ha].
  exists (rev a).
  rewrite <- rev_app_distr, <- Ha, rev_involutive; reflexivity.
Qed.

Lemma lstrip_clean (s : str) : starts_clean (lstrip s).
Proof.
  induction s as [|c s IH]; simpl; [exact I|].
  destruct (isspace c) eqn:E; simpl; auto.
Qed.

Lemma lstrip_fixed (s : str) : starts_clean s -> lstrip s = s.
Proof. destruct s; simpl; [reflexivity | intros ->; reflexivity]. Qed.

Lemma lstrip_idem (s : str) : lstrip (lstrip s) = lstrip s.
Proof. apply lstrip_fixed, lstrip_clean. Qed.

Lemma rstrip_idem (s : str) : rstrip (rstrip s) = rstrip s.
Proof. unfold rstrip; rewrite rev_involutive, lstrip_idem; reflexivity. Qed.

Lemma rstrip_clean (s : str) : starts_clean s -> starts_clean (rstrip s).
Proof.
  intros H; destruct (rstrip_prefix s) as [b Hb].
  destruct (rstrip s) eqn:E; [exact I|].
  rewrite Hb in H; exact H.
Qed.

Lemma strip_clean (s : str) : starts_clean (strip s).
Proof. apply rstrip_clean, lstrip_clean. Qed.

Lemma strip_idem (s : str) : strip (strip s) = strip s.
Proof.
  unfold strip at 1.
  rewrite (lstrip_fixed _ (strip_clean s)).
  unfold strip; apply rstrip_idem.
Qed.

Lemma strip_single_spaced (s : str) : single_spaced s -> single_spaced (strip s).
Proof.
  intros H; unfold strip.
  destruct (lstrip_suffix s) as [a Ha].
  destruct (rstrip_prefix (lstrip s)) as [b Hb].
  rewrite Ha in H; apply single_spaced_tail in H.
  rewrite Hb in H; apply single_spaced_front in H; exact H.
Qed.

(** The substitution of the normalizer is the one scan [sub_spaces]. *)

Lemma sub_spaces_no_space (b : bool) (s : str) :
  Forall (fun c => isspace c = false) s -> sub_spaces b s = s.
Proof.
  revert b; induction s as [|c s IH]; intros b H; simpl; [reflexivity|].
  rewrite (Forall_inv H), (IH false (Forall_inv_tail H)); reflexivity.
Qed.

Lemma sub_spaces_in_run (run tl : str) :
  Forall (fun c => isspace c = true) run ->
  sub_spaces true (run ++ tl) = sub_spaces true tl.
Proof.
  induction run as [|c run IH]; intros H; simpl; [reflexivity|].
  rewrite (Forall_inv H); apply IH, (Forall_inv_tail H).
Qed.

Lemma sub_spaces_run (pre run tl : str) :
  Forall (fun c => isspace c = false) pre ->
  run <> [] ->
  Forall (fun c => isspace c = true) run ->
  starts_clean tl ->
  sub_spaces false (pre ++ run ++ tl) = pre ++ SP :: sub_spaces false tl.
Proof.
  intros Hp Hn Hr Ht; induction pre as [|c pre IH]; simpl.
  - destruct run as [|x run]; [congruence|]; simpl.
    rewrite (Forall_inv Hr), (sub_spaces_in_run _ _ (Forall_inv_tail Hr)).
    rewrite (sub_spaces_after_clean _ Ht); reflexivity.
  - rewrite (Forall_inv Hp), (IH (Forall_inv_tail Hp)); reflexivity.
Qed.

Lemma leading_run (s : str) :
  exists run tl,
    s = run ++ tl /\ Forall (fun c => isspace c = true) run /\ starts_clean tl.
Proof.
  induction s as [|c s (run & tl & E & Hr & Ht)].
  - exists [], []; repeat split; auto.
  - destruct (isspace c) eqn:Ec.
    + exists (c :: run), tl; rewrite E; repeat split; auto.
    + exists [], (c :: s); repeat split; auto.
Qed.

Lemma first_run (s : str) :
  Forall (fun c => isspace c = false) s \/
  exists pre run tl,
    s = pre ++ run ++ tl /\
    Forall (fun c => isspace c = false) pre /\
    run <> [] /\
    Forall (fun c => isspace c = true) run /\
    starts_clean tl.
Proof.
  induction s as [|c s IH]; [left; constructor|].
  destruct (isspace c) eqn:Ec.
  - right.
    destruct (leading_run s) as (run & tl & E & Hr & Ht).
    exists [], (c :: run), tl; rewrite E.
    repeat split; auto; discriminate.
  - destruct IH as [H|(pre & run & tl & E & Hp & Hn & Hr & Ht)].
    + left; constructor; assumption.
    + right; exists (c :: pre), run, tl; rewrite E.
      repeat split; auto.
Qed.

Lemma set_ok_is_space (x : char) : set_ok false [ISpace] x = isspace x.
Proof. unfold set_ok; simpl; apply orb_false_r. Qed.

Lemma rep_spaces_longest (run tl : str) :
  forall lo i g,
    Forall (fun c => isspace c = true) run ->
    starts_clean tl ->
    (lo <= List.length run)%nat ->
    exists l,
      rep_parses (set_ok false [ISpace]) lo None i (run ++ tl) g
      = Build_state (i + List.length run) tl g :: l.
Proof.
  induction run as [|x run IH]; intros lo i g Hr Ht Hlo;
    cbn [app List.length] in *.
  - assert (lo = 0)%nat by lia; subst lo; rewrite Nat.add_0_r.
    destruct tl as [|y tl]; cbn [rep_parses Nat.eqb]; [eexists; reflexivity|].
    simpl in Ht; rewrite set_ok_is_space, Ht; simpl; eexists; reflexivity.
  - cbn [rep_parses]; rewrite set_ok_is_space, (Forall_inv Hr); simpl andb; cbv iota.
    destruct (IH (pred lo) (S i) g (Forall_inv_tail Hr) Ht) as [l El]; [lia|].
    cbn [one_less option_map]; rewrite El; cbn [app].
    replace (S i + List.length run)%nat with (i + S (List.length run))%nat by lia.
    eexists; reflexivity.
Qed.

Lemma rep_spaces_stop (c : char) (s : str) (i : nat) (g : option str) :
  isspace c = false ->
  rep_parses (set_ok false [ISpace]) 1 None i (c :: s) g = [].
Proof. intros H; cbn [rep_parses]; rewrite set_ok_is_space, H; reflexivity. Qed.

Lemma search_spaces_none (s : str) :
  Forall (fun c => isspace c = false) s ->
  forall i, search_from RE_SPACES i s = None.
Proof.
  induction s as [|c s IH]; intros H i; [reflexivity|].
  cbn [search_from].
  change (parses (p_ic RE_SPACES) (p_re RE_SPACES) (Build_state i (c :: s) None))
    with (rep_parses (set_ok false [ISpace]) 1 None i (c :: s) None).
  rewrite (rep_spaces_stop _ _ _ _ (Forall_inv H)).
  apply IH, (Forall_inv_tail H).
Qed.

Lemma search_from_head (p : pattern) (i : nat) (s : str) (st : state) (l : list state) :
  parses (p_ic p) (p_re p) (Build_state i s None) = st :: l ->
  search_from p i s
  = Some (Build_Match i (pos st) (firstn (pos st - i) s) (grp st)).
Proof. intros E; destruct s; cbn [search_from]; rewrite E; reflexivity. Qed.

Lemma search_spaces_run (pre run tl : str) :
  Forall (fun c => isspace c = false) pre ->
  run <> [] ->
  Forall (fun c => isspace c = true) run ->
  starts_clean tl ->
  forall i,
    search_from RE_SPACES i (pre ++ run ++ tl)
    = Some {| m_start := i + List.length pre;
              m_end := i + List.length pre + List.length run;
              m_group0 := run;
              m_group1 := None |}.
Proof.
  intros Hp Hn Hr Ht; induction pre as [|c pre IH]; intros i.
  - destruct (rep_spaces_longest run tl 1 i None Hr Ht) as [l El].
    { destruct run; [congruence | simpl; lia]. }
    cbn [app List.length].
    rewrite (search_from_head RE_SPACES i (run ++ tl) _ l El); cbn [pos grp].
    replace (i + List.length run - i)%nat with (List.length run + 0)%nat by lia.
    rewrite firstn_app_2; cbn [firstn]; rewrite app_nil_r, Nat.add_0_r; reflexivity.
  - cbn [app search_from].
    change (parses (p_ic RE_SPACES) (p_re RE_SPACES)
              (Build_state i (c :: pre ++ run ++ tl) None))
      with (rep_parses (set_ok false [ISpace]) 1 None i (c :: pre ++ run ++ tl) None).
    rewrite (rep_spaces_stop _ _ _ _ (Forall_inv Hp)).
    rewrite (IH (Forall_inv_tail Hp)); cbn [List.length]; f_equal; f_equal; lia.
Qed.

Lemma sub_rounds_spaces (rounds : nat) :
  forall s,
    (List.length s < rounds)%nat ->
    sub_rounds rounds RE_SPACES [SP] s = sub_spaces false s.
Proof.
  induction rounds as [|rounds IH]; intros s Hl; [lia|].
  cbn [sub_rounds]; unfold search.
  destruct (first_run s) as [H|(pre & run & tl & -> & Hp & Hn & Hr & Ht)].
  - rewrite (search_spaces_none _ H), (sub_spaces_no_space _ _ H); reflexivity.
  - rewrite (search_spaces_run _ _ _ Hp Hn Hr Ht); cbn [m_start m_end]; simpl Nat.add.
    rewrite (sub_spaces_run _ _ _ Hp Hn Hr Ht).
    replace (List.length pre) with (List.length pre + 0)%nat at 1 by lia.
    rewrite firstn_app_2; simpl firstn; rewrite app_nil_r.
    rewrite skipn_app, skipn_all2 by lia; simpl app.
    replace (List.length pre + List.length run - List.length pre)%nat
      with (List.length run) by lia.
    rewrite skipn_app, skipn_all, Nat.sub_diag; simpl.
    rewrite IH; [reflexivity|].
    rewrite !length_app in Hl.
    destruct run; [congruence | simpl in Hl; lia].
Qed.

Lemma re_sub_spaces (s : str) : re_sub RE_SPACES [SP] s = sub_spaces false s.
Proof. apply sub_rounds_spaces; lia. Qed.

Lemma normalize_spaces_scan (s : str) :
  normalize_spaces s = strip (sub_spaces false s).
Proof. unfold normalize_spaces; rewrite re_sub_spaces; reflexivity. Qed.

Lemma normalize_single_spaced (s : str) : single_spaced (normalize_spaces s).
Proof.
  rewrite normalize_spaces_scan; apply strip_single_spaced, sub_spaces_single_spaced.
Qed.

Lemma normalize_fixed (s : str) :
  single_spaced s -> strip s = s -> normalize_spaces s = s.
Proof.
  intros H E; rewrite normalize_spaces_scan, (sub_spaces_fixed _ H); exact E.
Qed.

(** Lengths: none of the steps adds a character. *)

Lemma sub_spaces_length (b : bool) (s : str) :
  (List.length (sub_spaces b s) <= List.length s)%nat.
Proof.
  revert b; induction s as [|c s IH]; intro b; simpl; [lia|].
  pose proof (IH true); pose proof (IH false).
  destruct (isspace c); [destruct b|]; simpl; lia.
Qed.

Lemma lstrip_length (s : str) : (List.length (lstrip s) <= List.length s)%nat.
Proof.
  induction s as [|c s IH]; simpl; [lia|].
  destruct (isspace c); simpl; lia.
Qed.

Lemma rstrip_length (s : str) : (List.length (rstrip s) <= List.length s)%nat.
Proof.
  unfold rstrip; rewrite length_rev.
  etransitivity; [apply lstrip_length|]; rewrite length_rev; lia.
Qed.

Lemma normalize_length (s : str) : len (normalize_spaces s) <= len s.
Proof.
  rewrite normalize_spaces_scan; unfold len, strip.
  pose proof (rstrip_length (lstrip (sub_spaces false s))).
  pose proof (lstrip_length (sub_spaces false s)).
  pose proof (sub_spaces_length false s).
  lia.
Qed.

Lemma slice_window (text : str) (start stop : Z) :
  0 <= start -> 0 <= stop <= len text ->
  slice text start stop
  = firstn (Z.to_nat (stop - start)) (skipn (Z.to_nat start) text).
Proof.
  intros Hs Hp; unfold slice, slice_bound.
  destruct (Z.ltb_spec start 0); [lia|].
  destruct (Z.ltb_spec stop 0); [lia|].
  rewrite (Z.min_l stop) by lia.
  destruct (Z.le_gt_cases start (len text)) as [L|G].
  - rewrite Z.min_l by lia; reflexivity.
  - rewrite Z.min_r by lia.
    unfold len in *.
    rewrite !skipn_all2 by lia.
    rewrite !firstn_nil; reflexivity.
Qed.

End NormalizerFacts.

(** ** The matcher against what patterns denote *)

Section MatcherFacts.
Context {U : Unicode}.

Local Open Scope nat_scope.

Lemma within_one_less (hi : option nat) (n : nat) :
  can_repeat hi = true -> within (one_less hi) n -> within hi (S n).
Proof. destruct hi as [[|h]|]; simpl; try discriminate; intros; lia. Qed.

Lemma within_S (hi : option nat) (n : nat) :
  within hi (S n) -> can_repeat hi = true /\ within (one_less hi) n.
Proof. destruct hi as [[|h]|]; simpl; intros; split; auto; lia. Qed.

Lemma rep_parses_sound (ok : char -> bool) (s : str) :
  forall lo hi i g st',
    In st' (rep_parses ok lo hi i s g) ->
    exists w, s = w ++ rest st' /\ pos st' = i + List.length w /\ grp st' = g /\
              forallb ok w = true /\ lo <= List.length w /\ within hi (List.length w).
Proof.
  assert (Stop : forall lo hi i g s0 st',
             In st' (if Nat.eqb lo 0 then [Build_state i s0 g] else []) ->
             exists w, s0 = w ++ rest st' /\ pos st' = i + List.length w /\ grp st' = g /\
                       forallb ok w = true /\ lo <= List.length w /\
                       within hi (List.length w)).
  { intros lo hi i g s0 st' H.
    destruct (Nat.eqb_spec lo 0); [|destruct H].
    destruct H as [<-|[]]; exists []; simpl; subst lo.
    repeat split; auto. destruct hi; simpl; lia. }
  induction s as [|x s IH]; intros lo hi i g st' H; simpl in H.
  - apply Stop with (hi := hi) in H; exact H.
  - destruct (ok x && can_repeat hi)%bool eqn:E.
    + apply in_app_or in H; destruct H as [H|H].
      * apply andb_prop in E; destruct E as [Ex Eh].
        apply IH in H; destruct H as (w & Hs & Hp & Hg & Hw & Hlo & Hhi).
        exists (x :: w); simpl; rewrite Ex, Hw, <- Hs.
        repeat split; auto; try lia.
        apply within_one_less; assumption.
      * apply Stop with (hi := hi) in H; exact H.
    + apply Stop with (hi := hi) in H; exact H.
Qed.

Lemma rep_parses_complete (ok : char -> bool) (w : str) :
  forall lo hi i g tl,
    forallb ok w = true -> lo <= List.length w -> within hi (List.length w) ->
    In (Build_state (i + List.length w) tl g) (rep_parses ok lo hi i (w ++ tl) g).
Proof.
  induction w as [|x w IH]; intros lo hi i g tl Hw Hlo Hhi; simpl in *.
  - assert (lo = 0) by lia; subst lo.
    rewrite Nat.add_0_r.
    destruct tl as [|y tl]; simpl; [left; reflexivity|].
    destruct (ok y && can_repeat hi)%bool; [apply in_or_app; right|]; left; reflexivity.
  - apply andb_prop in Hw; destruct Hw as [Hx Hw].
    apply within_S in Hhi; destruct Hhi as [Hc Hhi].
    rewrite Hx, Hc; simpl.
    apply in_or_app; left.
    replace (i + S (List.length w)) with (S i + List.length w) by lia.
    apply IH; auto; lia.
Qed.

(** The matcher enumerates exactly what the pattern denotes. *)

Lemma parses_sound (ic : bool) (r : re) :
  forall st st',
    In st' (parses ic r st) ->
    exists w, rest st = w ++ rest st' /\ pos st' = pos st + List.length w /\
              sem ic r w (grp st) (grp st').
Proof.
  induction r as [|c|items|r1 IH1 r2 IH2|r1 IH1 r2 IH2|r1 IH1|lo hi items|r1 IH1];
    intros st st' H; simpl in H.
  - destruct H as [<-|[]]; exists []; simpl; repeat split; auto.
  - destruct (rest st) as [|x s'] eqn:E; [destruct H|].
    destruct (lit_ok ic c x) eqn:Ok; [|destruct H].
    destruct H as [<-|[]]; exists [x]; simpl; repeat split; try lia.
    exists x; auto.
  - destruct (rest st) as [|x s'] eqn:E; [destruct H|].
    destruct (set_ok ic items x) eqn:Ok; [|destruct H].
    destruct H as [<-|[]]; exists [x]; simpl; repeat split; try lia.
    exists x; auto.
  - apply in_flat_map in H; destruct H as (sm & H1 & H2).
    apply IH1 in H1; destruct H1 as (w1 & Hs1 & Hp1 & S1).
    apply IH2 in H2; destruct H2 as (w2 & Hs2 & Hp2 & S2).
    exists (w1 ++ w2); rewrite length_app, <- app_assoc, <- Hs2.
    repeat split; auto; try lia.
    exists w1, w2, (grp sm); auto.
  - apply in_app_or in H; destruct H as [H|H].
    + apply IH1 in H; destruct H as (w & ? & ? & ?); exists w; simpl; auto.
    + apply IH2 in H; destruct H as (w & ? & ? & ?); exists w; simpl; auto.
  - apply in_app_or in H; destruct H as [H|H].
    + apply IH1 in H; destruct H as (w & ? & ? & ?); exists w; simpl; auto.
    + destruct H as [<-|[]]; exists []; simpl; repeat split; auto.
  - apply rep_parses_sound in H; destruct H as (w & ? & ? & ? & ? & ? & ?).
    exists w; simpl; repeat split; auto.
  - apply in_map_iff in H; destruct H as (sm & <- & H).
    apply IH1 in H; destruct H as (w & Hs & Hp & S1).
    exists w; simpl; repeat split; auto.
    exists (grp sm); split; auto.
    rewrite Hp, Hs.
    replace (pos st + List.length w - pos st) with (List.length w + 0) by lia.
    rewrite firstn_app_2; simpl; rewrite app_nil_r; reflexivity.
Qed.

Lemma parses_complete (ic : bool) (r : re) :
  forall w g g' i tl,
    sem ic r w g g' ->
    In (Build_state (i + List.length w) tl g') (parses ic r (Build_state i (w ++ tl) g)).
Proof.
  induction r as [|c|items|r1 IH1 r2 IH2|r1 IH1 r2 IH2|r1 IH1|lo hi items|r1 IH1];
    intros w g g' i tl H; simpl in H.
  - destruct H as [-> ->]; simpl; rewrite Nat.add_0_r; left; reflexivity.
  - destruct H as (x & -> & Ok & ->); simpl; rewrite Ok.
    left; f_equal; lia.
  - destruct H as (x & -> & Ok & ->); simpl; rewrite Ok.
    left; f_equal; lia.
  - destruct H as (w1 & w2 & gm & -> & S1 & S2); simpl.
    apply in_flat_map.
    exists (Build_state (i + List.length w1) (w2 ++ tl) gm); split.
    + rewrite <- app_assoc; apply IH1; exact S1.
    + rewrite length_app, Nat.add_assoc; apply IH2; exact S2.
  - simpl; apply in_or_app; destruct H as [H|H]; [left; apply IH1|right; apply IH2]; exact H.
  - simpl; apply in_or_app; destruct H as [H|[-> ->]].
    + left; apply IH1; exact H.
    + right; simpl; rewrite Nat.add_0_r; left; reflexivity.
  - destruct H as (Hw & Hlo & Hhi & ->); simpl.
    apply rep_parses_complete; assumption.
  - destruct H as (gi & S1 & ->); simpl.
    apply in_map_iff.
    exists (Build_state (i + List.length w) tl gi); split; [|apply IH1; exact S1].
    simpl; f_equal; f_equal.
    replace (i + List.length w - i) with (List.length w + 0) by lia.
    rewrite firstn_app_2; simpl; rewrite app_nil_r; reflexivity.
Qed.

(** [search] finds a match exactly when some part of the text is denoted, and
    what it returns is such a part. *)

Lemma search_from_sound (p : pattern) (s : str) :
  forall i m,
    search_from p i s = Some m ->
    exists before w after,
      s = before ++ w ++ after /\
      m_start m = i + List.length before /\
      m_end m = m_start m + List.length w /\
      m_group0 m = w /\
      sem (p_ic p) (p_re p) w None (m_group1 m).
Proof.
  induction s as [|x s IH]; intros i m H; simpl in H.
  - destruct (parses (p_ic p) (p_re p) (Build_state i [] None)) as [|st l] eqn:E;
      [discriminate|].
    injection H as <-.
    assert (Hin : In st (parses (p_ic p) (p_re p) (Build_state i [] None)))
      by (rewrite E; left; reflexivity).
    apply parses_sound in Hin; simpl in Hin.
    destruct Hin as (w & Hs & Hp & S1).
    exists [], w, (rest st); simpl.
    rewrite Hp, Hs.
    replace (i + List.length w - i) with (List.length w + 0) by lia.
    rewrite firstn_app_2; simpl; rewrite app_nil_r.
    repeat split; auto; lia.
  - destruct (parses (p_ic p) (p_re p) (Build_state i (x :: s) None)) as [|st l] eqn:E.
    + apply IH in H; destruct H as (before & w & after & Hs & Hst & Hen & H0 & S1).
      exists (x :: before), w, after; simpl; rewrite Hs.
      repeat split; auto; lia.
    + injection H as <-.
      assert (Hin : In st (parses (p_ic p) (p_re p) (Build_state i (x :: s) None)))
        by (rewrite E; left; reflexivity).
      apply parses_sound in Hin; simpl in Hin.
      destruct Hin as (w & Hs & Hp & S1).
      exists [], w, (rest st); simpl.
      rewrite Hp, Hs.
      replace (i + List.length w - i) with (List.length w + 0) by lia.
      rewrite firstn_app_2; simpl; rewrite app_nil_r.
      repeat split; auto; lia.
Qed.

Lemma search_from_complete (p : pattern) (before w after : str) (g' : option str) :
  sem (p_ic p) (p_re p) w None g' ->
  forall i, search_from p i (before ++ w ++ after) <> None.
Proof.
  intros S1; induction before as [|x before IH]; intro i.
  - pose proof (parses_complete (p_ic p) (p_re p) w None g' i after S1) as Hin.
    simpl app.
    destruct (w ++ after) as [|y s] eqn:E; simpl;
      destruct (parses (p_ic p) (p_re p) _) as [|st l]; try discriminate;
      destruct Hin.
  - simpl.
    destruct (parses (p_ic p) (p_re p) _) as [|st l]; [apply IH | discriminate].
Qed.

Lemma search_sound (p : pattern) (text : str) (m : Match) :
  search p text = Some m ->
  exists before w after,
    text = before ++ w ++ after /\
    m_start m = List.length before /\
    m_end m = List.length before + List.length w /\
    m_group0 m = w /\
    sem (p_ic p) (p_re p) w None (m_group1 m).
Proof.
  intros H; apply search_from_sound in H.
  destruct H as (before & w & after & ? & ? & ? & ? & ?).
  exists before, w, after; repeat split; auto; lia.
Qed.

Lemma search_complete (p : pattern) (before w after : str) (g' : option str) :
  sem (p_ic p) (p_re p) w None g' ->
  search p (before ++ w ++ after) <> None.
Proof. intros H; eapply search_from_complete; eauto. Qed.

(** The span of a match lies within the text. *)
Lemma search_span_bounds (p : pattern) (text : str) (m : Match) :
  search p text = Some m ->
  (0 <= fst (span m) <= snd (span m))%Z /\ (snd (span m) <= len text)%Z.
Proof.
  intros H; apply search_sound in H.
  destruct H as (before & w & after & -> & Hs & He & _).
  unfold span, len; simpl; rewrite Hs, He, !length_app; lia.
Qed.

End MatcherFacts.

(** ** The patterns of the program *)

Section PatternFacts.
Context {U : Unicode}.

(** A pattern that ends with its group always sets it, to the end of what
    was matched. *)
Lemma sem_tail_group (ic : bool) (r b : re) :
  tail_group r = Some b ->
  forall w g g',
    sem ic r w g g' ->
    exists before v gi gi', w = before ++ v /\ g' = Some v /\ sem ic b v gi gi'.
Proof.
  induction r as [|c|items|r1 IH1 r2 IH2|r1 IH1 r2 IH2|r1 IH1|lo hi items|r1 IH1];
    simpl; try discriminate; intros T w g g' H.
  - destruct H as (w1 & w2 & gm & -> & S1 & S2).
    destruct (IH2 T _ _ _ S2) as (before & v & gi & gi' & -> & -> & Sb).
    exists (w1 ++ before), v, gi, gi'; rewrite app_assoc; auto.
  - injection T as <-.
    destruct H as (gi & S1 & ->).
    exists [], w, g, gi; auto.
Qed.

Lemma search_group1 (p : pattern) (b : re) (text : str) (m : Match) :
  tail_group (p_re p) = Some b ->
  search p text = Some m ->
  exists g gi gi', m_group1 m = Some g /\ sem (p_ic p) b g gi gi'.
Proof.
  intros T H.
  apply search_sound in H; destruct H as (before & w & after & _ & _ & _ & _ & S1).
  destruct (sem_tail_group _ _ _ T _ _ _ S1) as (bf & v & gi & gi' & _ & E & Sb).
  exists v, gi, gi'; auto.
Qed.

Lemma lit_ok_caseless (ic : bool) (c x : char) :
  pat_cased c = false -> lit_ok ic c x = N.eqb c x.
Proof. intros E; unfold lit_ok; rewrite E, andb_false_r; reflexivity. Qed.

Lemma item_ok_caseless (ic : bool) (it : item) (x : char) :
  item_caseless it = true -> item_ok ic it x = item_ok false it x.
Proof.
  destruct it as [c|lo hi| |]; simpl; try discriminate; try reflexivity.
  intros E; apply negb_true_iff in E.
  rewrite lit_ok_caseless by assumption; reflexivity.
Qed.

Lemma set_ok_caseless (ic : bool) (items : list item) (x : char) :
  forallb item_caseless items = true -> set_ok ic items x = set_ok false items x.
Proof.
  unfold set_ok; induction items as [|it items IH]; simpl; [reflexivity|].
  intros E; apply andb_prop in E; destruct E as [E1 E2].
  rewrite (item_ok_caseless ic it x E1), (IH E2); reflexivity.
Qed.

Lemma forallb_set_ok_caseless (ic : bool) (items : list item) (w : str) :
  forallb item_caseless items = true ->
  forallb (set_ok ic items) w = forallb (set_ok false items) w.
Proof.
  intros E; induction w as [|x w IH]; simpl; [reflexivity|].
  rewrite (set_ok_caseless ic items x E), IH; reflexivity.
Qed.

(** A pattern with no group and no letter denotes the same words with and
    without [re.I], and leaves group 1 as it was. *)
Lemma sem_plain (ic : bool) (r : re) :
  plain r = true ->
  forall w g g', sem ic r w g g' -> g' = g /\ forall h, sem false r w h h.
Proof.
  induction r as [|c|items|r1 IH1 r2 IH2|r1 IH1 r2 IH2|r1 IH1|lo hi items|r1 IH1];
    simpl; try discriminate; intros P w g g' H.
  - destruct H as [-> ->]; auto.
  - apply negb_true_iff in P.
    destruct H as (x & -> & Ok & ->); split; [reflexivity|].
    intros h; exists x; rewrite lit_ok_caseless in * by assumption; auto.
  - destruct H as (x & -> & Ok & ->); split; [reflexivity|].
    intros h; exists x; rewrite <- (set_ok_caseless ic) by assumption; auto.
  - apply andb_prop in P; destruct P as [P1 P2].
    destruct H as (w1 & w2 & gm & -> & S1 & S2).
    destruct (IH1 P1 _ _ _ S1) as [-> K1].
    destruct (IH2 P2 _ _ _ S2) as [-> K2].
    split; [reflexivity|].
    intros h; exists w1, w2, h; auto.
  - apply andb_prop in P; destruct P as [P1 P2].
    destruct H as [H|H].
    + destruct (IH1 P1 _ _ _ H) as [-> K]; auto.
    + destruct (IH2 P2 _ _ _ H) as [-> K]; auto.
  - destruct H as [H|[-> ->]]; [|auto].
    destruct (IH1 P _ _ _ H) as [-> K]; auto.
  - destruct H as (Hw & Hlo & Hhi & ->); split; [reflexivity|].
    intros h; rewrite <- (forallb_set_ok_caseless ic) by assumption; auto.
Qed.

(** The phrase the total-balance label pattern captures is itself matched by
    the currency pattern, so the search for a currency token in it succeeds. *)
Lemma total_phrase_is_currency (text : str) (m : Match) :
  search RE_TOTAL_BAL text = Some m ->
  exists g amt,
    m_group1 m = Some g /\ sem false currency g None None /\
    search RE_CURRENCY g = Some amt.
Proof.
  intros H.
  destruct (search_group1 RE_TOTAL_BAL currency text m eq_refl H)
    as (g & gi & gi' & E & S1).
  exists g.
  destruct (sem_plain _ currency eq_refl _ _ _ S1) as [_ K].
  pose proof (search_complete RE_CURRENCY [] g [] None (K None)) as C.
  simpl in C; rewrite app_nil_r in C.
  destruct (search RE_CURRENCY g) as [amt|]; [|congruence].
  exists amt; auto.
Qed.

Lemma last4_group (text : str) (m : Match) :
  search RE_LAST4 text = Some m -> exists g, m_group1 m = Some g.
Proof.
  intros H.
  destruct (search_group1 RE_LAST4 (digits 4 4) text m eq_refl H) as (g & _ & _ & E & _).
  eauto.
Qed.

Lemma due_group (text : str) (m : Match) :
  search RE_DUE text = Some m -> exists g, m_group1 m = Some g.
Proof.
  intros H.
  destruct (search_group1 RE_DUE _ text m eq_refl H) as (g & _ & _ & E & _).
  eauto.
Qed.

Lemma period_group (text : str) (m : Match) :
  search RE_PERIOD text = Some m -> exists g, m_group1 m = Some g.
Proof.
  intros H.
  destruct (search_group1 RE_PERIOD _ text m eq_refl H) as (g & _ & _ & E & _).
  eauto.
Qed.

Lemma date_group (g : str) (d : Match) :
  search_date g = Some d -> exists v, m_group1 d = Some v.
Proof.
  unfold search_date; intros H.
  destruct (search RE_DATE g) as [d'|] eqn:E.
  - injection H as <-.
    destruct (search_group1 RE_DATE _ g d' eq_refl E) as (v & _ & _ & Ev & _); eauto.
  - destruct (search_group1 RE_DATE_WORD _ g d eq_refl H) as (v & _ & _ & Ev & _); eauto.
Qed.

End PatternFacts.

(** ** The shapes the patterns denote *)

Section ShapeFacts.
Context {U : Unicode}.

Local Open Scope nat_scope.

Lemma lit_ok_exact (c x : char) : lit_ok false c x = true -> x = c.
Proof. unfold lit_ok; simpl; intros H; apply N.eqb_eq in H; auto. Qed.

Lemma set_ok_digit (ic : bool) (x : char) : set_ok ic [IDigit] x = isdecimal x.
Proof. unfold set_ok; simpl; apply orb_false_r. Qed.

Lemma set_ok_space (ic : bool) (x : char) : set_ok ic [ISpace] x = isspace x.
Proof. unfold set_ok; simpl; apply orb_false_r. Qed.

Lemma forallb_Forall (f : char -> bool) (w : str) :
  forallb f w = true -> Forall (fun c => f c = true) w.
Proof. intros H; apply Forall_forall; apply forallb_forall; exact H. Qed.

Lemma sem_digits (ic : bool) (lo hi : nat) (w : str) (g g' : option str) :
  sem ic (digits lo hi) w g g' -> digit_run lo hi w /\ g' = g.
Proof.
  unfold digits; cbn [sem within]; intros (Hw & Hlo & Hhi & ->); split; [|reflexivity].
  split; [lia|].
  apply forallb_Forall in Hw.
  eapply Forall_impl; [|exact Hw].
  intros c Hc; cbv beta in Hc; rewrite set_ok_digit in Hc; exact Hc.
Qed.

Lemma sem_spaces (ic : bool) (lo : nat) (w : str) (g g' : option str) :
  sem ic (Rep lo None [ISpace]) w g g' ->
  Forall is_space w /\ lo <= List.length w /\ g' = g.
Proof.
  cbn [sem]; intros (Hw & Hlo & _ & ->); repeat split; auto.
  apply forallb_Forall in Hw.
  eapply Forall_impl; [|exact Hw].
  intros c Hc; cbv beta in Hc; rewrite set_ok_space in Hc; exact Hc.
Qed.

Lemma sem_date_sep (w : str) (g g' : option str) :
  sem false date_sep w g g' -> exists s, w = [s] /\ is_date_sep s /\ g' = g.
Proof.
  unfold date_sep; cbn [sem]; intros (x & -> & Ok & ->); exists x; repeat split; auto.
  unfold set_ok in Ok; simpl in Ok.
  rewrite orb_false_r in Ok; apply orb_prop in Ok.
  destruct Ok as [Ok|Ok]; apply lit_ok_exact in Ok; [left|right]; exact Ok.
Qed.

Lemma sem_numeric_date (w : str) (g g' : option str) :
  sem false (cats [digits 1 2; date_sep; digits 1 2; date_sep; digits 2 4]) w g g' ->
  numeric_date_shape w.
Proof.
  cbn [cats]; cbn [sem].
  intros (d1 & r1 & g1 & -> & S1 & s1 & r2 & g2 & -> & S2 &
          d2 & r3 & g3 & -> & S3 & s2 & y & g4 & -> & S4 & S5).
  apply sem_digits in S1; destruct S1 as [R1 _].
  apply sem_date_sep in S2; destruct S2 as (x1 & -> & P1 & _).
  apply sem_digits in S3; destruct S3 as [R2 _].
  apply sem_date_sep in S4; destruct S4 as (x2 & -> & P2 & _).
  apply sem_digits in S5; destruct S5 as [R3 _].
  exists d1, x1, d2, x2, y; repeat split; auto; apply R1 || apply R2 || apply R3.
Qed.

Lemma sem_chr_exact (c : char) (w : str) (g g' : option str) :
  sem false (Chr c) w g g' -> w = [c] /\ g' = g.
Proof.
  cbn [sem]; intros (x & -> & Ok & ->).
  apply lit_ok_exact in Ok; subst x; auto.
Qed.

Lemma sem_worded_date (w : str) (g g' : option str) :
  sem false
      (cats [ In_ [IRange (ch "A") (ch "Z")];
              Rep 2 (Some 8) [IRange (ch "a") (ch "z")];
              ws_plus; digits 1 2; Chr (ch ","); ws_star; digits 4 4 ])
      w g g' ->
  worded_date_shape w.
Proof.
  cbn [cats]; cbn [sem].
  intros (c0 & r1 & g1 & -> & (cap & -> & Hcap & _) &
          low & r2 & g2 & -> & (Hlow & Hlo & Hhi & _) &
          ws1 & r3 & g3 & -> & S3 &
          day & r4 & g4 & -> & S4 &
          cm & r5 & g5 & -> & S5 &
          ws2 & year & g6 & -> & S6 & S7).
  apply sem_spaces in S3; destruct S3 as (W1 & L1 & _).
  apply sem_digits in S4; destruct S4 as [D _].
  change (exists x, cm = [x] /\ lit_ok false (ch ",") x = true /\ g5 = g4)
    with (sem false (Chr (ch ",")) cm g4 g5) in S5.
  apply sem_chr_exact in S5; destruct S5 as [-> _].
  apply sem_spaces in S6; destruct S6 as (W2 & _ & _).
  apply sem_digits in S7; destruct S7 as [Y _].
  exists cap, low, ws1, day, ws2, year.
  unfold set_ok in Hcap; simpl in Hcap; rewrite orb_false_r in Hcap.
  split; [reflexivity|].
  split; [exact Hcap|].
  split; [simpl in Hhi; lia|].
  split.
  { apply forallb_Forall in Hlow.
    eapply Forall_impl; [|exact Hlow].
    intros c Hc; cbv beta in Hc.
    unfold set_ok in Hc; simpl in Hc; rewrite orb_false_r in Hc; exact Hc. }
  split; [intros ->; simpl in L1; lia|].
  split; [exact W1|].
  split; [exact D|].
  split; [exact W2 | exact Y].
Qed.

Lemma sem_currency (tok : str) (g g' : option str) :
  sem false currency tok g g' -> currency_shape tok.
Proof.
  unfold currency; cbn [cats]; cbn [sem].
  intros (sign & r1 & g1 & -> & (Hsign & _ & Hone & _) &
          ws & r2 & g2 & -> & S2 &
          body & frac & g3 & -> & (Hbody & Hlen & _ & _) & S4).
  apply sem_spaces in S2; destruct S2 as (W & _ & _).
  exists sign, ws, body, frac.
  split; [reflexivity|].
  split.
  { simpl in Hone.
    destruct sign as [|x [|y sign]]; [left; reflexivity | right | simpl in Hone; lia].
    simpl in Hsign; rewrite andb_true_r in Hsign.
    unfold set_ok in Hsign; simpl in Hsign; rewrite orb_false_r in Hsign.
    apply lit_ok_exact in Hsign; subst x; reflexivity. }
  split; [exact W|].
  split; [intros ->; simpl in Hlen; lia|].
  split.
  { apply forallb_Forall in Hbody.
    eapply Forall_impl; [|exact Hbody].
    intros c Hc; cbv beta in Hc.
    unfold set_ok in Hc; simpl in Hc; rewrite orb_false_r in Hc.
    apply orb_prop in Hc; destruct Hc as [Hc|Hc]; [left|right; exact Hc].
    apply lit_ok_exact in Hc; exact Hc. }
  destruct S4 as [(pt & dd & g4 & -> & Sp & Sd)|[-> _]]; [right|left; reflexivity].
    change (exists x, pt = [x] /\ lit_ok false (ch ".") x = true /\ g4 = g3)
      with (sem false (Chr (ch ".")) pt g3 g4) in Sp.
    apply sem_chr_exact in Sp; destruct Sp as [-> _].
    apply sem_digits in Sd; destruct Sd as [[[L2 H2] F] _].
    destruct dd as [|d1 [|d2 [|d3 dd]]]; simpl in L2, H2; try lia.
    exists d1, d2.
    split; [reflexivity|].
    split; [apply (Forall_inv F) | apply (Forall_inv (Forall_inv_tail F))].
Qed.

End ShapeFacts.

(** ** The issuer and variant tables *)

Section TableFacts.
Context {U : Unicode}.

Lemma any_token_in_spec (lc : str) (tokens : list str) :
  any_token_in lc tokens = true <-> keyword_present lc tokens.
Proof.
  unfold keyword_present; induction tokens as [|tok tokens IH]; simpl.
  - split; [discriminate | intros (t & [] & _)].
  - destruct (contains tok lc) eqn:E.
    + split; [intros _ | reflexivity].
      exists tok; split; [left; reflexivity | apply contains_spec; exact E].
    + rewrite IH; split.
      * intros (t & Hin & Ho); exists t; auto.
      * intros (t & [<-|Hin] & Ho); [|exists t; auto].
        apply contains_spec in Ho; congruence.
Qed.

Lemma any_token_in_false (lc : str) (tokens : list str) :
  ~ keyword_present lc tokens -> any_token_in lc tokens = false.
Proof.
  rewrite <- any_token_in_spec; destruct (any_token_in lc tokens); congruence.
Qed.

Lemma first_issuer_hit (lc : str) (before : list (str * list str))
    (key : str) (tokens : list str) (after : list (str * list str)) :
  (forall k toks, In (k, toks) before -> ~ keyword_present lc toks) ->
  keyword_present lc tokens ->
  first_issuer lc (before ++ (key, tokens) :: after) = Some key.
Proof.
  intros Hb Hk; induction before as [|[k toks] before IH]; simpl.
  - apply any_token_in_spec in Hk; rewrite Hk; reflexivity.
  - rewrite any_token_in_false by (apply (Hb k); left; reflexivity).
    apply IH; intros k' toks' Hin; apply (Hb k'); right; exact Hin.
Qed.

Lemma first_issuer_miss (lc : str) (issuers : list (str * list str)) :
  (forall k toks, In (k, toks) issuers -> ~ keyword_present lc toks) ->
  first_issuer lc issuers = None.
Proof.
  induction issuers as [|[k toks] issuers IH]; simpl; intros H; [reflexivity|].
  rewrite any_token_in_false by (apply (H k); left; reflexivity).
  apply IH; intros k' toks' Hin; apply (H k'); right; exact Hin.
Qed.

Lemma variant_on_page_miss (i : Z) (text lc : str) (names : list str) :
  (forall n, In n names -> ~ occurs n lc) ->
  variant_on_page i text lc names = None.
Proof.
  induction names as [|n names IH]; simpl; intros H; [reflexivity|].
  assert (E : contains n lc = false) by (apply contains_false, H; left; reflexivity).
  rewrite E; apply IH; intros n' Hin; apply H; right; exact Hin.
Qed.

Lemma variant_on_page_hit (i : Z) (text lc : str) (earlier : list str)
    (nm : str) (later : list str) :
  (forall n, In n earlier -> ~ occurs n lc) ->
  occurs nm lc ->
  variant_on_page i text lc (earlier ++ nm :: later)
  = Some {| value := Some (title nm);
            page := Some (i + 1);
            snippet :=
              Some (normalize_spaces
                      (slice text (Z.max 0 (find lc nm - 30)) (find lc nm + 30)));
            confidence := 0.85;
            notes := None |}.
Proof.
  intros He Hn; induction earlier as [|n earlier IH]; simpl.
  - apply contains_spec in Hn; rewrite Hn; reflexivity.
  - assert (E : contains n lc = false) by (apply contains_false, He; left; reflexivity).
    rewrite E; apply IH; intros n' Hin; apply He; right; exact Hin.
Qed.

Lemma variant_loop_skip (names : list str) (before : list str) :
  (forall t n, In t before -> In n names -> ~ occurs n (str_lower t)) ->
  forall i rest_,
    variant_loop names i (before ++ rest_)
    = variant_loop names (i + Z.of_nat (List.length before)) rest_.
Proof.
  induction before as [|t before IH]; intros H i rest_.
  - simpl; f_equal; lia.
  - cbn [app variant_loop].
    rewrite variant_on_page_miss
      by (intros n Hin; apply (H t n); [left; reflexivity | exact Hin]).
    rewrite IH by (intros t' n Ht Hn; apply H; [right; exact Ht | exact Hn]).
    f_equal; rewrite length_cons; lia.
Qed.

End TableFacts.

(** ** The page loops *)

Section ExtractorFacts.
Context {U : Unicode}.

(** Pages that give an extractor nothing are passed over, and the index
    moves on by their number. *)

Lemma last4_loop_skip (before : list str) :
  (forall t, In t before -> search RE_LAST4 t = None) ->
  forall i pages,
    last4_loop i (before ++ pages)
    = last4_loop (i + Z.of_nat (List.length before)) pages.
Proof.
  induction before as [|t before IH]; intros H i pages.
  - simpl; f_equal; lia.
  - cbn [app last4_loop].
    rewrite (H t) by (left; reflexivity).
    rewrite IH by (intros t' Ht; apply H; right; exact Ht).
    f_equal; rewrite length_cons; lia.
Qed.

Lemma period_loop_skip (before : list str) :
  (forall t, In t before -> search RE_PERIOD t = None) ->
  forall i pages,
    period_loop i (before ++ pages)
    = period_loop (i + Z.of_nat (List.length before)) pages.
Proof.
  induction before as [|t before IH]; intros H i pages.
  - simpl; f_equal; lia.
  - cbn [app period_loop].
    rewrite (H t) by (left; reflexivity).
    rewrite IH by (intros t' Ht; apply H; right; exact Ht).
    f_equal; rewrite length_cons; lia.
Qed.

Lemma total_loop_skip (before : list str) :
  (forall t, In t before -> search RE_TOTAL_BAL t = None) ->
  forall i pages,
    total_loop i (before ++ pages)
    = total_loop (i + Z.of_nat (List.length before)) pages.
Proof.
  induction before as [|t before IH]; intros H i pages.
  - simpl; f_equal; lia.
  - cbn [app total_loop].
    rewrite (H t) by (left; reflexivity).
    rewrite IH by (intros t' Ht; apply H; right; exact Ht).
    f_equal; rewrite length_cons; lia.
Qed.

(** The due-date loop moves on from a page that is not dated: one the label
    pattern does not match, or one whose phrase holds no date. *)
Lemma due_date_loop_next (i : Z) (text : str) (pages : list str) :
  ~ dated_page text ->
  due_date_loop i (text :: pages) = due_date_loop (i + 1) pages.
Proof.
  intros N; cbn [due_date_loop].
  destruct (search RE_DUE text) as [m|] eqn:E; [|reflexivity].
  destruct (due_group text m E) as [g Eg]; rewrite Eg.
  destruct (search_date g) as [d|] eqn:Ed; [|reflexivity].
  exfalso; apply N; exists m, g, d; auto.
Qed.

Lemma due_date_loop_skip (before : list str) :
  (forall t, In t before -> ~ dated_page t) ->
  forall i pages,
    due_date_loop i (before ++ pages)
    = due_date_loop (i + Z.of_nat (List.length before)) pages.
Proof.
  induction before as [|t before IH]; intros H i pages.
  - simpl; f_equal; lia.
  - cbn [app].
    rewrite due_date_loop_next by (apply H; left; reflexivity).
    rewrite IH by (intros t' Ht; apply H; right; exact Ht).
    f_equal; rewrite length_cons; lia.
Qed.

(** What the searches inside a captured phrase return. *)

Lemma numeric_date_found (g : str) (d : Match) :
  search RE_DATE g = Some d ->
  exists v, m_group1 d = Some v /\ occurs v g /\ numeric_date_shape v.
Proof.
  intros H; apply search_sound in H.
  destruct H as (before & w & after & -> & _ & _ & _ & gi & S1 & E).
  exists w; split; [exact E|]; split; [exists before, after; reflexivity|].
  eapply sem_numeric_date; exact S1.
Qed.

Lemma worded_date_found (g : str) (d : Match) :
  search RE_DATE_WORD g = Some d ->
  exists v, m_group1 d = Some v /\ occurs v g /\ worded_date_shape v.
Proof.
  intros H; apply search_sound in H.
  destruct H as (before & w & after & -> & _ & _ & _ & gi & S1 & E).
  exists w; split; [exact E|]; split; [exists before, after; reflexivity|].
  eapply sem_worded_date; exact S1.
Qed.

Lemma currency_token_found (g : str) (amt : Match) :
  search RE_CURRENCY g = Some amt ->
  occurs (m_group0 amt) g /\ currency_shape (m_group0 amt).
Proof.
  intros H; apply search_sound in H.
  destruct H as (before & w & after & -> & _ & _ & -> & S1).
  split; [exists before, after; reflexivity|].
  eapply sem_currency; exact S1.
Qed.

(** The invariant on each kind of result. *)

Lemma absent_iff_absent (note : string) : absent_iff (absent note).
Proof.
  unfold absent_iff, absent; simpl.
  repeat split; auto; try discriminate.
Qed.

Lemma absent_iff_present (v : str) (pg : option Z) (sn : option str) (c : float) :
  PrimFloat.eqb c 0 = false ->
  absent_iff {| value := Some v; page := pg; snippet := sn;
                confidence := c; notes := None |}.
Proof.
  intros E; unfold absent_iff; simpl; rewrite E.
  repeat split; try discriminate; try congruence.
Qed.

Lemma last4_loop_invariant (pages : list str) :
  forall i, absent_iff (last4_loop i pages).
Proof.
  induction pages as [|text pages IH]; intros i; cbn [last4_loop].
  - apply absent_iff_absent.
  - destruct (search RE_LAST4 text) as [m|] eqn:E; [|apply IH].
    destruct (last4_group text m E) as [g Eg].
    unfold found; rewrite Eg; apply absent_iff_present; reflexivity.
Qed.

Lemma due_date_loop_invariant (pages : list str) :
  forall i, exists e, due_date_loop i pages = Returns e /\ absent_iff e.
Proof.
  induction pages as [|text pages IH]; intros i; cbn [due_date_loop].
  - eexists; split; [reflexivity | apply absent_iff_absent].
  - destruct (search RE_DUE text) as [m|] eqn:E; [|apply IH].
    destruct (due_group text m E) as [g Eg]; rewrite Eg.
    destruct (search_date g) as [d|] eqn:Ed; [|apply IH].
    destruct (date_group g d Ed) as [v Ev]; rewrite Ev.
    eexists; split; [reflexivity | apply absent_iff_present; reflexivity].
Qed.

Lemma period_loop_invariant (pages : list str) :
  forall i, exists e, period_loop i pages = Returns e /\ absent_iff e.
Proof.
  induction pages as [|text pages IH]; intros i; cbn [period_loop].
  - eexists; split; [reflexivity | apply absent_iff_absent].
  - destruct (search RE_PERIOD text) as [m|] eqn:E; [|apply IH].
    destruct (period_group text m E) as [g Eg]; rewrite Eg.
    eexists; split; [reflexivity | apply absent_iff_present; reflexivity].
Qed.

Lemma total_loop_invariant (pages : list str) :
  forall i,
    exists e, total_loop i pages = Returns e /\ absent_iff e /\
              (value e <> None -> confidence e = 0.95%float).
Proof.
  induction pages as [|text pages IH]; intros i; cbn [total_loop].
  - eexists; split; [reflexivity|]; split; [apply absent_iff_absent|].
    simpl; congruence.
  - destruct (search RE_TOTAL_BAL text) as [m|] eqn:E; [|apply IH].
    destruct (total_phrase_is_currency text m E) as (g & amt & Eg & _ & Ea).
    rewrite Eg, Ea.
    eexists; split; [reflexivity|]; split;
      [apply absent_iff_present; reflexivity | reflexivity].
Qed.

Lemma variant_loop_invariant (names : list str) (pages : list str) :
  forall i, absent_iff (variant_loop names i pages).
Proof.
  induction pages as [|text pages IH]; intros i; cbn [variant_loop].
  - apply absent_iff_absent.
  - destruct (variant_on_page i text (str_lower text) names) as [e|] eqn:E; [|apply IH].
    clear IH; induction names as [|nm names IHn]; simpl in E; [discriminate|].
    destruct (contains nm (str_lower text)); [|apply IHn; exact E].
    injection E as <-; apply absent_iff_present; reflexivity.
Qed.


End ExtractorFacts.

(** ** The results and where they come from *)

Section ResultFacts.
Context {U : Unicode}.

Lemma result_shape_absent (conf : float) (n lo : Z) :
  result_shape conf n lo (absent "not found").
Proof. left; reflexivity. Qed.

Lemma result_shape_found (conf : float) (n i : Z) (v : str) (text : str) (m : Match) :
  0 < n -> result_shape conf n i (found (Some v) i text m conf).
Proof.
  intros Hn; right; exists v, (i + 1), (snippet_around text (span m) 40).
  split; [lia | reflexivity].
Qed.

Lemma result_shape_next (conf : float) (n i : Z) (e : Extraction) :
  0 <= n -> result_shape conf n (i + 1) e -> result_shape conf (1 + n) i e.
Proof.
  intros Hn [->|(v & p & s & Hp & ->)]; [left; reflexivity|].
  right; exists v, p, s; split; [lia | reflexivity].
Qed.

Lemma pages_count_cons (text : str) (pages : list str) :
  pages_count (text :: pages) = 1 + pages_count pages.
Proof. unfold pages_count; rewrite length_cons; lia. Qed.

Lemma pages_count_nonneg (pages : list str) : 0 <= pages_count pages.
Proof. unfold pages_count; lia. Qed.

Lemma last4_loop_shape (pages : list str) :
  forall i, result_shape 0.95 (pages_count pages) i (last4_loop i pages).
Proof.
  induction pages as [|text pages IH]; intros i; cbn [last4_loop].
  - apply result_shape_absent.
  - pose proof (pages_count_nonneg pages) as Hn.
    rewrite pages_count_cons.
    destruct (search RE_LAST4 text) as [m|] eqn:E.
    + destruct (last4_group text m E) as [g ->].
      apply result_shape_found; lia.
    + apply result_shape_next; [exact Hn | apply IH].
Qed.

Lemma due_date_loop_shape (pages : list str) :
  forall i, exists e,
    due_date_loop i pages = Returns e /\ result_shape 0.95 (pages_count pages) i e.
Proof.
  induction pages as [|text pages IH]; intros i; cbn [due_date_loop].
  - eexists; split; [reflexivity | apply result_shape_absent].
  - pose proof (pages_count_nonneg pages) as Hn.
    rewrite pages_count_cons.
    assert (Next : exists e, due_date_loop (i + 1) pages = Returns e /\
                             result_shape 0.95 (1 + pages_count pages) i e).
    { destruct (IH (i + 1)) as (e & E & S).
      exists e; split; [exact E | apply result_shape_next; assumption]. }
    destruct (search RE_DUE text) as [m|] eqn:E; [|exact Next].
    destruct (due_group text m E) as [g ->].
    destruct (search_date g) as [d|] eqn:Ed; [|exact Next].
    destruct (date_group g d Ed) as [v ->].
    eexists; split; [reflexivity | apply result_shape_found; lia].
Qed.

Lemma period_loop_shape (pages : list str) :
  forall i, exists e,
    period_loop i pages = Returns e /\ result_shape 0.9 (pages_count pages) i e.
Proof.
  induction pages as [|text pages IH]; intros i; cbn [period_loop].
  - eexists; split; [reflexivity | apply result_shape_absent].
  - pose proof (pages_count_nonneg pages) as Hn.
    rewrite pages_count_cons.
    destruct (search RE_PERIOD text) as [m|] eqn:E.
    + destruct (period_group text m E) as [g ->].
      eexists; split; [reflexivity | apply result_shape_found; lia].
    + destruct (IH (i + 1)) as (e & Ee & S).
      exists e; split; [exact Ee | apply result_shape_next; assumption].
Qed.

Lemma total_loop_shape (pages : list str) :
  forall i, exists e,
    total_loop i pages = Returns e /\ result_shape 0.95 (pages_count pages) i e.
Proof.
  induction pages as [|text pages IH]; intros i; cbn [total_loop].
  - eexists; split; [reflexivity | apply result_shape_absent].
  - pose proof (pages_count_nonneg pages) as Hn.
    rewrite pages_count_cons.
    destruct (search RE_TOTAL_BAL text) as [m|] eqn:E.
    + destruct (total_phrase_is_currency text m E) as (g & amt & -> & _ & ->).
      eexists; split; [reflexivity | apply result_shape_found; lia].
    + destruct (IH (i + 1)) as (e & Ee & S).
      exists e; split; [exact Ee | apply result_shape_next; assumption].
Qed.

Lemma variant_on_page_shape (i : Z) (text lc : str) (names : list str) (e : Extraction) :
  variant_on_page i text lc names = Some e ->
  exists nm s,
    In nm names /\ occurs nm lc /\
    e = {| value := Some (title nm); page := Some (i + 1); snippet := Some s;
           confidence := 0.85; notes := None |}.
Proof.
  induction names as [|nm names IH]; simpl; [discriminate|].
  destruct (contains nm lc) eqn:E.
  - intros H; injection H as <-.
    eexists nm, _; split; [left; reflexivity|].
    split; [apply contains_spec; exact E | reflexivity].
  - intros H; destruct (IH H) as (nm' & s & Hin & Ho & ->).
    exists nm', s; split; [right; exact Hin | split; [exact Ho | reflexivity]].
Qed.

Lemma variant_loop_shape (names : list str) (pages : list str) :
  forall i, result_shape 0.85 (pages_count pages) i (variant_loop names i pages).
Proof.
  induction pages as [|text pages IH]; intros i; cbn [variant_loop].
  - apply result_shape_absent.
  - pose proof (pages_count_nonneg pages) as Hn.
    rewrite pages_count_cons.
    destruct (variant_on_page i text (str_lower text) names) as [e|] eqn:E.
    + destruct (variant_on_page_shape _ _ _ _ _ E) as (nm & s & _ & _ & ->).
      right; exists (title nm), (i + 1), s; split; [lia | reflexivity].
    + apply result_shape_next; [exact Hn | apply IH].
Qed.

Lemma first_match_here (p : pattern) (text : str) (pages : list str) (m : Match) :
  search p text = Some m -> first_match_at p (text :: pages) 0 text m.
Proof.
  intros E; split; [reflexivity|]; split; [exact E|].
  intros j t Hj; lia.
Qed.

Lemma first_match_later (p : pattern) (text : str) (pages : list str)
    (k : nat) (t : str) (m : Match) :
  search p text = None ->
  first_match_at p pages k t m ->
  first_match_at p (text :: pages) (S k) t m.
Proof.
  intros E (Hn & Hm & Hb); split; [exact Hn|]; split; [exact Hm|].
  intros [|j] t' Hj Ht; simpl in Ht.
  - injection Ht as <-; exact E.
  - apply (Hb j); [lia | exact Ht].
Qed.

Lemma first_dated_later (text : str) (pages : list str) (k : nat) (t : str) :
  ~ dated_page text ->
  first_dated_at pages k t ->
  first_dated_at (text :: pages) (S k) t.
Proof.
  intros E (Hn & Hm & Hb); split; [exact Hn|]; split; [exact Hm|].
  intros [|j] t' Hj Ht; simpl in Ht.
  - injection Ht as <-; exact E.
  - apply (Hb j); [lia | exact Ht].
Qed.

Lemma last4_loop_origin (pages : list str) :
  forall i p,
    page (last4_loop i pages) = Some p ->
    exists k text m,
      p = i + Z.of_nat k + 1 /\
      first_match_at RE_LAST4 pages k text m /\
      last4_loop i pages = found (m_group1 m) (i + Z.of_nat k) text m 0.95.
Proof.
  induction pages as [|text pages IH]; intros i p; cbn [last4_loop].
  - discriminate.
  - destruct (search RE_LAST4 text) as [m|] eqn:E.
    + intros H; injection H as <-.
      exists 0%nat, text, m; rewrite Z.add_0_r.
      split; [reflexivity|]; split; [apply first_match_here; exact E | reflexivity].
    + intros H; destruct (IH _ _ H) as (k & t & m & -> & F & ->).
      exists (S k), t, m.
      replace (i + Z.of_nat (S k)) with (i + 1 + Z.of_nat k) by lia.
      split; [reflexivity|]; split; [apply first_match_later; assumption | reflexivity].
Qed.

Lemma period_loop_origin (pages : list str) :
  forall i e p,
    period_loop i pages = Returns e ->
    page e = Some p ->
    exists k text m g,
      p = i + Z.of_nat k + 1 /\
      first_match_at RE_PERIOD pages k text m /\
      m_group1 m = Some g /\
      e = found (Some (normalize_spaces g)) (i + Z.of_nat k) text m 0.9.
Proof.
  induction pages as [|text pages IH]; intros i e p; cbn [period_loop].
  - intros H; injection H as <-; discriminate.
  - destruct (search RE_PERIOD text) as [m|] eqn:E.
    + destruct (period_group text m E) as [g Eg]; rewrite Eg.
      intros H; injection H as <-; intros H; injection H as <-.
      exists 0%nat, text, m, g; rewrite Z.add_0_r.
      split; [reflexivity|]; split; [apply first_match_here; exact E|].
      split; [exact Eg | reflexivity].
    + intros He Hp; destruct (IH _ _ _ He Hp) as (k & t & m & g & -> & F & Eg & ->).
      exists (S k), t, m, g.
      replace (i + Z.of_nat (S k)) with (i + 1 + Z.of_nat k) by lia.
      split; [reflexivity|]; split; [apply first_match_later; assumption|].
      split; [exact Eg | reflexivity].
Qed.

Lemma total_loop_origin (pages : list str) :
  forall i e p,
    total_loop i pages = Returns e ->
    page e = Some p ->
    exists k text m g amt,
      p = i + Z.of_nat k + 1 /\
      first_match_at RE_TOTAL_BAL pages k text m /\
      m_group1 m = Some g /\
      search RE_CURRENCY g = Some amt /\
      e = found (Some (m_group0 amt)) (i + Z.of_nat k) text m 0.95.
Proof.
  induction pages as [|text pages IH]; intros i e p; cbn [total_loop].
  - intros H; injection H as <-; discriminate.
  - destruct (search RE_TOTAL_BAL text) as [m|] eqn:E.
    + destruct (total_phrase_is_currency text m E) as (g & amt & Eg & _ & Ea).
      rewrite Eg, Ea.
      intros H; injection H as <-; intros H; injection H as <-.
      exists 0%nat, text, m, g, amt; rewrite Z.add_0_r.
      split; [reflexivity|]; split; [apply first_match_here; exact E|].
      split; [exact Eg|]; split; [exact Ea | reflexivity].
    + intros He Hp.
      destruct (IH _ _ _ He Hp) as (k & t & m & g & amt & -> & F & Eg & Ea & ->).
      exists (S k), t, m, g, amt.
      replace (i + Z.of_nat (S k)) with (i + 1 + Z.of_nat k) by lia.
      split; [reflexivity|]; split; [apply first_match_later; assumption|].
      split; [exact Eg|]; split; [exact Ea | reflexivity].
Qed.

Lemma due_date_loop_origin (pages : list str) :
  forall i e p,
    due_date_loop i pages = Returns e ->
    page e = Some p ->
    exists k text m g d v,
      p = i + Z.of_nat k + 1 /\
      first_dated_at pages k text /\
      search RE_DUE text = Some m /\
      m_group1 m = Some g /\
      search_date g = Some d /\
      m_group1 d = Some v /\
      e = found (Some (normalize_spaces v)) (i + Z.of_nat k) text m 0.95.
Proof.
  induction pages as [|text pages IH]; intros i e p.
  - cbn [due_date_loop]; intros H; injection H as <-; discriminate.
  - assert (Next : ~ dated_page text ->
                   due_date_loop (i + 1) pages = Returns e ->
                   page e = Some p ->
                   exists k t m g d v,
                     p = i + Z.of_nat k + 1 /\
                     first_dated_at (text :: pages) k t /\
                     search RE_DUE t = Some m /\
                     m_group1 m = Some g /\
                     search_date g = Some d /\
                     m_group1 d = Some v /\
                     e = found (Some (normalize_spaces v)) (i + Z.of_nat k) t m 0.95).
    { intros N He Hp.
      destruct (IH _ _ _ He Hp) as (k & t & m & g & d & v & -> & F & Em & Eg & Ed & Ev & ->).
      exists (S k), t, m, g, d, v.
      replace (i + Z.of_nat (S k)) with (i + 1 + Z.of_nat k) by lia.
      split; [reflexivity|]; split; [apply first_dated_later; assumption|].
      repeat (split; [assumption|]); reflexivity. }
    cbn [due_date_loop].
    destruct (search RE_DUE text) as [m|] eqn:E.
    + destruct (due_group text m E) as [g Eg]; rewrite Eg.
      destruct (search_date g) as [d|] eqn:Ed.
      * destruct (date_group g d Ed) as [v Ev]; rewrite Ev.
        intros H; injection H as <-; intros H; injection H as <-.
        exists 0%nat, text, m, g, d, v; rewrite Z.add_0_r.
        split; [reflexivity|].
        split.
        { split; [reflexivity|]; split; [exists m, g, d; auto|].
          intros j t Hj; lia. }
        repeat (split; [assumption|]); reflexivity.
      * apply Next.
        intros (m' & g' & d' & Em' & Eg' & Ed'); congruence.
    + apply Next.
      intros (m' & g' & d' & Em' & _); congruence.
Qed.

Lemma last4_loop_none (pages : list str) :
  forall i,
    value (last4_loop i pages) = None <->
    (forall t, In t pages -> search RE_LAST4 t = None).
Proof.
  induction pages as [|text pages IH]; intros i; cbn [last4_loop].
  - split; [intros _ t [] | reflexivity].
  - destruct (search RE_LAST4 text) as [m|] eqn:E.
    + destruct (last4_group text m E) as [g Eg]; simpl; rewrite Eg.
      split; [discriminate|].
      intros H; specialize (H text (or_introl eq_refl)); congruence.
    + rewrite IH; split.
      * intros H t [<-|Ht]; auto.
      * intros H t Ht; apply H; right; exact Ht.
Qed.

Lemma period_loop_none (pages : list str) :
  forall i e,
    period_loop i pages = Returns e ->
    (value e = None <-> (forall t, In t pages -> search RE_PERIOD t = None)).
Proof.
  induction pages as [|text pages IH]; intros i e; cbn [period_loop].
  - intros H; injection H as <-; split; [intros _ t [] | reflexivity].
  - destruct (search RE_PERIOD text) as [m|] eqn:E.
    + destruct (period_group text m E) as [g Eg]; rewrite Eg.
      intros H; injection H as <-; simpl.
      split; [discriminate|].
      intros H; specialize (H text (or_introl eq_refl)); congruence.
    + intros He; rewrite (IH _ _ He); split.
      * intros H t [<-|Ht]; auto.
      * intros H t Ht; apply H; right; exact Ht.
Qed.

Lemma total_loop_none (pages : list str) :
  forall i e,
    total_loop i pages = Returns e ->
    (value e = None <-> (forall t, In t pages -> search RE_TOTAL_BAL t = None)).
Proof.
  induction pages as [|text pages IH]; intros i e; cbn [total_loop].
  - intros H; injection H as <-; split; [intros _ t [] | reflexivity].
  - destruct (search RE_TOTAL_BAL text) as [m|] eqn:E.
    + destruct (total_phrase_is_currency text m E) as (g & amt & Eg & _ & Ea).
      rewrite Eg, Ea.
      intros H; injection H as <-; simpl.
      split; [discriminate|].
      intros H; specialize (H text (or_introl eq_refl)); congruence.
    + intros He; rewrite (IH _ _ He); split.
      * intros H t [<-|Ht]; auto.
      * intros H t Ht; apply H; right; exact Ht.
Qed.

Lemma due_date_loop_none (pages : list str) :
  forall i e,
    due_date_loop i pages = Returns e ->
    (value e = None <-> (forall t, In t pages -> ~ dated_page t)).
Proof.
  induction pages as [|text pages IH]; intros i e.
  - cbn [due_date_loop]; intros H; injection H as <-.
    split; [intros _ t [] | reflexivity].
  - destruct (search RE_DUE text) as [m|] eqn:E.
    + destruct (due_group text m E) as [g Eg].
      destruct (search_date g) as [d|] eqn:Ed.
      * destruct (date_group g d Ed) as [v Ev].
        cbn [due_date_loop]; rewrite E, Eg, Ed, Ev.
        intros H; injection H as <-; simpl.
        split; [discriminate|].
        intros H; exfalso; apply (H text (or_introl eq_refl)).
        exists m, g, d; auto.
      * assert (N : ~ dated_page text).
        { intros (m' & g' & d' & Em' & Eg' & Ed'); congruence. }
        rewrite (due_date_loop_next _ _ _ N).
        intros He; rewrite (IH _ _ He); split.
        -- intros H t [<-|Ht]; auto.
        -- intros H t Ht; apply H; right; exact Ht.
    + assert (N : ~ dated_page text).
      { intros (m' & g' & d' & Em' & _); congruence. }
      rewrite (due_date_loop_next _ _ _ N).
      intros He; rewrite (IH _ _ He); split.
      * intros H t [<-|Ht]; auto.
      * intros H t Ht; apply H; right; exact Ht.
Qed.

(** The group of a match is a part of the text. *)
Lemma search_group1_occurs (p : pattern) (b : re) (text : str) (m : Match) :
  tail_group (p_re p) = Some b ->
  search p text = Some m ->
  exists g gi gi',
    m_group1 m = Some g /\ occurs g text /\ occurs g (m_group0 m) /\
    sem (p_ic p) b g gi gi'.
Proof.
  intros T H.
  apply search_sound in H; destruct H as (before & w & after & -> & _ & _ & E0 & S1).
  destruct (sem_tail_group _ _ _ T _ _ _ S1) as (bf & v & gi & gi' & -> & E & Sb).
  exists v, gi, gi'; split; [exact E|].
  split; [exists (before ++ bf), after; rewrite <- !app_assoc; reflexivity|].
  split; [rewrite E0; exists bf, []; rewrite app_nil_r; reflexivity | exact Sb].
Qed.

Lemma last4_loop_value (pages : list str) :
  forall i v,
    value (last4_loop i pages) = Some v ->
    exists text m,
      In text pages /\ search RE_LAST4 text = Some m /\ m_group1 m = Some v.
Proof.
  induction pages as [|text pages IH]; intros i v; cbn [last4_loop].
  - discriminate.
  - destruct (search RE_LAST4 text) as [m|] eqn:E.
    + simpl; intros H; exists text, m; split; [left; reflexivity | auto].
    + intros H; destruct (IH _ _ H) as (t & m & Hin & Em & Eg).
      exists t, m; split; [right; exact Hin | auto].
Qed.

Lemma normalize_again (s : str) :
  normalize_spaces (normalize_spaces s) = normalize_spaces s.
Proof.
  apply normalize_fixed; [apply normalize_single_spaced|].
  rewrite normalize_spaces_scan; apply strip_idem.
Qed.

Lemma slice_length (s : str) (a b : Z) :
  len (slice s a b)
  <= Z.max 0 (slice_bound (len s) b - slice_bound (len s) a).
Proof. unfold slice, len; rewrite length_firstn; lia. Qed.

Lemma slice_within (s : str) (a b : Z) : len (slice s a b) <= len s.
Proof. unfold slice, len; rewrite length_firstn, length_skipn; lia. Qed.

Lemma match_snippet (p : pattern) (text : str) (m : Match) :
  search p text = Some m ->
  normalize_spaces (snippet_around text (span m) 40)
  = snippet_around text (span m) 40
  /\ len (snippet_around text (span m) 40) <= len (m_group0 m) + 80
  /\ len (snippet_around text (span m) 40) <= len text.
Proof.
  intros H.
  split; [apply normalize_again|].
  pose proof (search_span_bounds p text m H) as [B1 B2].
  apply search_sound in H.
  destruct H as (before & w & after & Et & Hs & He & E0 & _).
  assert (L0 : len (m_group0 m) = snd (span m) - fst (span m)).
  { unfold span, len; simpl; rewrite E0, Hs, He; lia. }
  unfold snippet_around.
  split.
  - etransitivity; [apply normalize_length|].
    etransitivity; [apply slice_length|].
    unfold slice_bound.
    destruct (Z.ltb_spec (Z.max 0 (fst (span m) - 40)) 0); [lia|].
    destruct (Z.ltb_spec (Z.min (len text) (snd (span m) + 40)) 0); lia.
  - etransitivity; [apply normalize_length | apply slice_within].
Qed.

Lemma find_from_lower (needle hay : str) :
  forall i, -1 <= i -> -1 <= find_from i needle hay.
Proof.
  induction hay as [|x hay IH]; intros i Hi; simpl.
  - destruct (startswith [] needle); lia.
  - destruct (startswith (x :: hay) needle); [lia | apply IH; lia].
Qed.

Lemma variant_snippet (text lc nm : str) :
  let s := normalize_spaces
             (slice text (Z.max 0 (find lc nm - 30)) (find lc nm + 30)) in
  normalize_spaces s = s /\ len s <= 60.
Proof.
  intros s; subst s; split; [apply normalize_again|].
  pose proof (find_from_lower nm lc 0 ltac:(lia)) as F; fold (find lc nm) in F.
  etransitivity; [apply normalize_length|].
  etransitivity; [apply slice_length|].
  unfold slice_bound.
  destruct (Z.ltb_spec (Z.max 0 (find lc nm - 30)) 0); [lia|].
  destruct (Z.ltb_spec (find lc nm + 30) 0); lia.
Qed.

Lemma result_shape_page (conf : float) (n lo : Z) (e : Extraction) (s : str) :
  result_shape conf n lo e -> snippet e = Some s -> exists p, page e = Some p.
Proof.
  intros [->|(v & p & s' & _ & ->)]; simpl; [discriminate | eauto].
Qed.

Lemma first_match_in (p : pattern) (pages : list str) (k : nat) (text : str) (m : Match) :
  first_match_at p pages k text m -> In text pages /\ search p text = Some m.
Proof. intros (Hn & Hm & _); split; [eapply nth_error_In; exact Hn | exact Hm]. Qed.

Lemma str_eqb_spec (a b : str) : str_eqb a b = true <-> a = b.
Proof.
  revert b; induction a as [|x a IH]; intros [|y b]; simpl;
    try (split; [discriminate | discriminate]); [split; reflexivity|].
  rewrite andb_true_iff, N.eqb_eq, IH; split.
  - intros [-> ->]; reflexivity.
  - intros H; injection H as -> ->; auto.
Qed.

Lemma str_eqb_neq (a b : str) : a <> b -> str_eqb a b = false.
Proof.
  intros N; destruct (str_eqb a b) eqn:E; [|reflexivity].
  apply str_eqb_spec in E; contradiction.
Qed.

Lemma variant_names_unknown (hint : str) :
  ~ In hint VARIANT_ISSUERS -> variant_names hint = [].
Proof.
  intros N; unfold variant_names.
  rewrite !str_eqb_neq; [reflexivity| | | | | |];
    intros ->; apply N; simpl; auto 10.
Qed.

Lemma variant_names_known (hint : str) :
  variant_names hint <> [] -> In hint VARIANT_ISSUERS.
Proof.
  unfold variant_names, VARIANT_ISSUERS; intros H.
  destruct (str_eqb hint (u "chase")) eqn:E1; [apply str_eqb_spec in E1; simpl; auto|].
  destruct (str_eqb hint (u "amex")) eqn:E2; [apply str_eqb_spec in E2; simpl; auto|].
  destruct (str_eqb hint (u "citi")) eqn:E3; [apply str_eqb_spec in E3; simpl; auto|].
  destruct (str_eqb hint (u "boa")) eqn:E4; [apply str_eqb_spec in E4; simpl; auto 10|].
  destruct (str_eqb hint (u "hsbc")) eqn:E5; [apply str_eqb_spec in E5; simpl; auto 10|].
  destruct (str_eqb hint (u "sbi")) eqn:E6; [apply str_eqb_spec in E6; simpl; auto 10|].
  congruence.
Qed.

Lemma variant_names_nonempty (hint n : str) :
  In n (variant_names hint) -> n <> [].
Proof.
  unfold variant_names.
  repeat match goal with
         | |- context [if ?b then _ else _] => destruct b
         end;
    simpl; intuition (subst; discriminate).
Qed.

Lemma variant_loop_no_names (pages : list str) :
  forall i, variant_loop [] i pages = absent "not found".
Proof. induction pages as [|t pages IH]; intros i; simpl; auto. Qed.

Lemma variant_on_page_none (i : Z) (text lc : str) (names : list str) :
  variant_on_page i text lc names = None ->
  forall n, In n names -> ~ occurs n lc.
Proof.
  induction names as [|nm names IH]; simpl; [intros _ n []|].
  destruct (contains nm lc) eqn:E; [discriminate|].
  intros H n [<-|Hin]; [apply contains_false; exact E | apply IH; assumption].
Qed.

Lemma variant_on_page_origin (i : Z) (text lc : str) (names : list str) (e : Extraction) :
  variant_on_page i text lc names = Some e ->
  exists earlier nm later,
    names = earlier ++ nm :: later /\
    (forall n, In n earlier -> ~ occurs n lc) /\
    occurs nm lc /\
    e = {| value := Some (title nm);
           page := Some (i + 1);
           snippet :=
             Some (normalize_spaces
                     (slice text (Z.max 0 (find lc nm - 30)) (find lc nm + 30)));
           confidence := 0.85;
           notes := None |}.
Proof.
  induction names as [|nm names IH]; simpl; [discriminate|].
  destruct (contains nm lc) eqn:E.
  - intros H; injection H as <-.
    exists [], nm, names; split; [reflexivity|].
    split; [intros n []|]; split; [apply contains_spec; exact E | reflexivity].
  - intros H; destruct (IH H) as (earlier & nm' & later & -> & He & Ho & ->).
    exists (nm :: earlier), nm', later; split; [reflexivity|].
    split; [|split; [exact Ho | reflexivity]].
    intros n [<-|Hin]; [apply contains_false; exact E | apply He; exact Hin].
Qed.

Lemma variant_loop_origin (names : list str) (pages : list str) :
  forall i p,
    page (variant_loop names i pages) = Some p ->
    exists k text earlier nm later,
      p = i + Z.of_nat k + 1 /\
      nth_error pages k = Some text /\
      (forall j t, (j < k)%nat -> nth_error pages j = Some t -> no_name_on names t) /\
      names = earlier ++ nm :: later /\
      (forall n, In n earlier -> ~ occurs n (str_lower text)) /\
      occurs nm (str_lower text) /\
      variant_loop names i pages
      = {| value := Some (title nm);
           page := Some p;
           snippet :=
             Some (normalize_spaces
                     (slice text (Z.max 0 (find (str_lower text) nm - 30))
                                 (find (str_lower text) nm + 30)));
           confidence := 0.85;
           notes := None |}.
Proof.
  induction pages as [|text pages IH]; intros i p; cbn [variant_loop]; [discriminate|].
  destruct (variant_on_page i text (str_lower text) names) as [e|] eqn:E.
  - destruct (variant_on_page_origin _ _ _ _ _ E) as (earlier & nm & later & En & He & Ho & ->).
    simpl; intros H; injection H as <-.
    exists 0%nat, text, earlier, nm, later; rewrite Z.add_0_r.
    split; [reflexivity|]; split; [reflexivity|].
    split; [intros j t Hj; lia|].
    repeat (split; [assumption|]); reflexivity.
  - intros H.
    destruct (IH _ _ H) as (k & t & earlier & nm & later & -> & Hn & Hb & En & He & Ho & R).
    exists (S k), t, earlier, nm, later.
    split; [lia|]; split; [exact Hn|].
    split.
    { intros [|j] t' Hj Ht; simpl in Ht.
      - injection Ht as <-; exact (variant_on_page_none _ _ _ _ E).
      - apply (Hb j); [lia | exact Ht]. }
    repeat (split; [assumption|]).
    rewrite R; f_equal; f_equal; lia.
Qed.

Lemma first_issuer_range (lc : str) (issuers : list (str * list str)) (key : str) :
  first_issuer lc issuers = Some key -> In key (map fst issuers).
Proof.
  induction issuers as [|[k toks] issuers IH]; simpl; [discriminate|].
  destruct (any_token_in lc toks); [intros H; injection H as ->; auto | auto].
Qed.

Lemma text_from_pdf_length (extracted : list (option str)) :
  List.length (text_from_pdf extracted) = List.length extracted.
Proof. induction extracted as [|t l IH]; simpl; congruence. Qed.

Lemma text_from_pdf_textless (extracted : list (option str)) :
  (forall t, In t extracted -> textless t) ->
  forall text, In text (text_from_pdf extracted) -> text = [].
Proof.
  induction extracted as [|t l IH]; simpl; intros H text; [intros []|].
  intros [<-|Hin].
  - destruct (H t (or_introl eq_refl)) as [->| ->]; reflexivity.
  - apply IH; auto.
Qed.

Lemma result_shape_none (conf : float) (n lo : Z) (e : Extraction) :
  result_shape conf n lo e -> value e = None -> e = absent "not found".
Proof. intros [->|(v & p & s & _ & ->)]; simpl; [reflexivity | discriminate]. Qed.

Lemma occurs_nil (n : str) : occurs n [] -> n = [].
Proof.
  intros (a & b & H).
  destruct a; [destruct n; [reflexivity | discriminate] | discriminate].
Qed.

Lemma variant_loop_textless (names : list str) (pages : list str) :
  (forall n, In n names -> n <> []) ->
  (forall t, In t pages -> t = []) ->
  forall i, variant_loop names i pages = absent "not found".
Proof.
  intros Hn; induction pages as [|text pages IH]; intros Ht i; cbn [variant_loop];
    [reflexivity|].
  rewrite variant_on_page_miss.
  - apply IH; intros t Hin; apply Ht; right; exact Hin.
  - intros n Hin Ho.
    rewrite (Ht text (or_introl eq_refl)), str_lower_nil in Ho.
    apply (Hn n Hin), occurs_nil, Ho.
Qed.

(** Moving the index of the first page moves the page of the result. *)

Lemma shift_page_absent (k : Z) (note : string) :
  shift_page k (absent note) = absent note.
Proof. reflexivity. Qed.

Lemma shift_page_found (k i : Z) (v : option str) (text : str) (m : Match) (c : float) :
  shift_page k (found v i text m c) = found v (i + k) text m c.
Proof. unfold shift_page, found; simpl; do 2 f_equal; lia. Qed.

Lemma last4_loop_shift (k : Z) (pages : list str) :
  forall i, last4_loop (i + k) pages = shift_page k (last4_loop i pages).
Proof.
  induction pages as [|text pages IH]; intros i; cbn [last4_loop]; [reflexivity|].
  destruct (search RE_LAST4 text); [symmetry; apply shift_page_found|].
  replace (i + k + 1) with (i + 1 + k) by lia; apply IH.
Qed.

Lemma period_loop_shift (k : Z) (pages : list str) :
  forall i e,
    period_loop i pages = Returns e ->
    period_loop (i + k) pages = Returns (shift_page k e).
Proof.
  induction pages as [|text pages IH]; intros i e; cbn [period_loop].
  - intros H; injection H as <-; reflexivity.
  - destruct (search RE_PERIOD text) as [m|].
    + destruct (m_group1 m); [|discriminate].
      intros H; injection H as <-; rewrite shift_page_found; reflexivity.
    + replace (i + k + 1) with (i + 1 + k) by lia; apply IH.
Qed.

Lemma total_loop_shift (k : Z) (pages : list str) :
  forall i e,
    total_loop i pages = Returns e ->
    total_loop (i + k) pages = Returns (shift_page k e).
Proof.
  induction pages as [|text pages IH]; intros i e; cbn [total_loop].
  - intros H; injection H as <-; reflexivity.
  - destruct (search RE_TOTAL_BAL text) as [m|].
    + destruct (m_group1 m) as [g|]; [|discriminate].
      destruct (search RE_CURRENCY g);
        intros H; injection H as <-; rewrite shift_page_found; reflexivity.
    + replace (i + k + 1) with (i + 1 + k) by lia; apply IH.
Qed.

Lemma due_date_loop_shift (k : Z) (pages : list str) :
  forall i e,
    due_date_loop i pages = Returns e ->
    due_date_loop (i + k) pages = Returns (shift_page k e).
Proof.
  induction pages as [|text pages IH]; intros i e; cbn [due_date_loop].
  - intros H; injection H as <-; reflexivity.
  - destruct (search RE_DUE text) as [m|].
    + destruct (m_group1 m) as [g|]; [|discriminate].
      destruct (search_date g) as [d|].
      * destruct (m_group1 d); [|discriminate].
        intros H; injection H as <-; rewrite shift_page_found; reflexivity.
      * replace (i + k + 1) with (i + 1 + k) by lia; apply IH.
    + replace (i + k + 1) with (i + 1 + k) by lia; apply IH.
Qed.

Lemma variant_on_page_shift (k i : Z) (text lc : str) (names : list str) :
  variant_on_page (i + k) text lc names
  = option_map (shift_page k) (variant_on_page i text lc names).
Proof.
  induction names as [|nm names IH]; simpl; [reflexivity|].
  destruct (contains nm lc); [|exact IH].
  unfold shift_page; simpl; do 3 f_equal; lia.
Qed.

Lemma variant_loop_shift (names : list str) (k : Z) (pages : list str) :
  forall i, variant_loop names (i + k) pages = shift_page k (variant_loop names i pages).
Proof.
  induction pages as [|text pages IH]; intros i; cbn [variant_loop]; [reflexivity|].
  rewrite variant_on_page_shift.
  destruct (variant_on_page i text (str_lower text) names); [reflexivity|].
  replace (i + k + 1) with (i + 1 + k) by lia; apply IH.
Qed.

(** When the normalizer gives the empty string. *)

Lemma in_sub_spaces (c : char) (s : str) :
  forall b, In c s -> isspace c = false -> In c (sub_spaces b s).
Proof.
  induction s as [|x s IH]; intros b; simpl; [intros []|].
  intros [->|Hin] Hc.
  - rewrite Hc; left; reflexivity.
  - destruct (isspace x); [destruct b|]; simpl; auto.
Qed.

Lemma in_lstrip (c : char) (s : str) :
  In c s -> isspace c = false -> In c (lstrip s).
Proof.
  induction s as [|x s IH]; simpl; [intros []|].
  intros H Hc; destruct (isspace x) eqn:Ex; [|exact H].
  destruct H as [->|Hin]; [congruence | auto].
Qed.

Lemma in_strip (c : char) (s : str) :
  In c s -> isspace c = false -> In c (strip s).
Proof.
  intros H Hc; unfold strip, rstrip.
  rewrite <- in_rev; apply in_lstrip; [|exact Hc].
  rewrite <- in_rev; apply in_lstrip; assumption.
Qed.

Lemma normalize_nil_spaces (g : str) :
  normalize_spaces g = [] -> Forall is_space g.
Proof.
  intros H; apply Forall_forall; intros c Hin.
  unfold is_space; destruct (isspace c) eqn:Ec; [reflexivity|].
  exfalso.
  assert (K : In c (normalize_spaces g)).
  { rewrite normalize_spaces_scan; apply in_strip; [|exact Ec].
    apply in_sub_spaces; assumption. }
  rewrite H in K; exact K.
Qed.

Lemma normalize_spaces_nil (g : str) :
  isspace SP = true -> Forall is_space g -> normalize_spaces g = [].
Proof.
  intros Hsp H; rewrite normalize_spaces_scan.
  destruct g as [|x g]; [reflexivity|].
  simpl sub_spaces.
  rewrite (Forall_inv H).
  replace g with (g ++ []) by apply app_nil_r.
  rewrite (sub_spaces_in_run _ _ (Forall_inv_tail H)); simpl.
  unfold strip, rstrip; simpl; rewrite Hsp; reflexivity.
Qed.

(** The normalizer keeps what is not whitespace. *)

Lemma sub_spaces_visible (s : str) :
  isspace SP = true -> forall b, visible (sub_spaces b s) = visible s.
Proof.
  intros Hsp; induction s as [|c s IH]; intros b; [reflexivity|].
  cbn [sub_spaces]; unfold visible in *; cbn [filter].
  destruct (isspace c) eqn:Ec; cbn [negb].
  - destruct b; [apply IH|].
    cbn [filter]; rewrite Hsp; apply IH.
  - cbn [filter]; rewrite Ec; cbn [negb]; f_equal; apply IH.
Qed.

Lemma lstrip_visible (s : str) : visible (lstrip s) = visible s.
Proof.
  induction s as [|c s IH]; [reflexivity|].
  cbn [lstrip]; destruct (isspace c) eqn:Ec; [|reflexivity].
  rewrite IH; unfold visible; cbn [filter]; rewrite Ec; reflexivity.
Qed.

Lemma strip_visible (s : str) : visible (strip s) = visible s.
Proof.
  unfold strip, rstrip.
  unfold visible at 1; rewrite filter_rev; fold (visible (lstrip (rev (lstrip s)))).
  rewrite lstrip_visible; unfold visible at 1; rewrite filter_rev, rev_involutive.
  apply lstrip_visible.
Qed.

Lemma normalize_visible (s : str) :
  isspace SP = true -> visible (normalize_spaces s) = visible s.
Proof.
  intros Hsp; rewrite normalize_spaces_scan, strip_visible.
  apply sub_spaces_visible; exact Hsp.
Qed.

Lemma normalize_fixed_iff (s : str) :
  normalize_spaces s = s <-> single_spaced s /\ strip s = s.
Proof.
  split.
  - intros E; split.
    + rewrite <- E; apply normalize_single_spaced.
    + rewrite <- E at 1 2. rewrite normalize_spaces_scan; apply strip_idem.
  - intros [S1 S2]; apply normalize_fixed; assumption.
Qed.

End ResultFacts.

(** ** The order of the ways of matching *)

Section OrderFacts.
Context {U : Unicode}.
Local Open Scope nat_scope.

Lemma flat_map_map {A B C : Type} (f : B -> list C) (h : A -> B) (l : list A) :
  flat_map f (map h l) = flat_map (fun x => f (h x)) l.
Proof. induction l as [|x l IH]; simpl; [reflexivity | rewrite IH; reflexivity]. Qed.

Lemma map_flat_map {A B C : Type} (f : A -> list B) (h : B -> C) (l : list A) :
  map h (flat_map f l) = flat_map (fun x => map h (f x)) l.
Proof.
  induction l as [|x l IH]; simpl; [reflexivity|].
  rewrite map_app, IH; reflexivity.
Qed.

Lemma filter_flat_map {A B : Type} (f : A -> list B) (p : B -> bool) (l : list A) :
  filter p (flat_map f l) = flat_map (fun x => filter p (f x)) l.
Proof.
  induction l as [|x l IH]; simpl; [reflexivity|].
  rewrite filter_app, IH; reflexivity.
Qed.

Lemma flat_map_filter {A B : Type} (f g : A -> list B) (p : A -> bool) (l : list A) :
  (forall x, In x l -> if p x then f x = g x else f x = []) ->
  flat_map f l = flat_map g (filter p l).
Proof.
  induction l as [|x l IH]; simpl; intros H; [reflexivity|].
  pose proof (H x (or_introl eq_refl)) as Hx.
  rewrite IH by (intros y Hy; apply H; right; exact Hy).
  destruct (p x); simpl; rewrite Hx; reflexivity.
Qed.

Lemma filter_none {A : Type} (p : A -> bool) (l : list A) :
  (forall x, In x l -> p x = false) -> filter p l = [].
Proof.
  induction l as [|x l IH]; simpl; intros H; [reflexivity|].
  rewrite (H x (or_introl eq_refl)); apply IH; intros y Hy; apply H; right; exact Hy.
Qed.

Lemma filter_map_same {A : Type} (p : A -> bool) (h : A -> A) (l : list A) :
  (forall x, p (h x) = p x) -> filter p (map h l) = map h (filter p l).
Proof.
  intros H; induction l as [|x l IH]; simpl; [reflexivity|].
  rewrite H; destruct (p x); simpl; rewrite IH; reflexivity.
Qed.

Lemma flat_map_head {A B : Type} (f : A -> list B) (l : list A) (y : B) (more : list B) :
  flat_map f l = y :: more -> exists x more', In x l /\ f x = y :: more'.
Proof.
  induction l as [|x l IH]; simpl; [discriminate|].
  destruct (f x) as [|z zs] eqn:E; simpl.
  - intros H; destruct (IH H) as (x' & m' & Hin & E'); exists x', m'; auto.
  - intros H; injection H as -> _; exists x, zs; auto.
Qed.

Lemma firstn_exact {A : Type} (w tl : list A) :
  firstn (List.length w) (w ++ tl) = w.
Proof.
  rewrite firstn_app, Nat.sub_diag, firstn_all; simpl; apply app_nil_r.
Qed.

Lemma firstn_short {A : Type} (n : nat) (w tl : list A) :
  n <= List.length w -> firstn n (w ++ tl) = firstn n w.
Proof.
  intros H; rewrite firstn_app.
  replace (n - List.length w) with 0 by lia; simpl; apply app_nil_r.
Qed.

Lemma split_inside {A : Type} (w tl w1 x : list A) :
  w ++ tl = w1 ++ x -> List.length w1 <= List.length w ->
  x = skipn (List.length w1) w ++ tl /\
  List.length (skipn (List.length w1) w) = List.length w - List.length w1.
Proof.
  intros E H; split; [|apply length_skipn].
  assert (K : skipn (List.length w1) (w1 ++ x) = x).
  { rewrite skipn_app, skipn_all, Nat.sub_diag; reflexivity. }
  rewrite <- K, <- E, skipn_app.
  replace (List.length w1 - List.length w) with 0 by lia; reflexivity.
Qed.

(** A pattern with no letter matches alike with and without [re.I]. *)

Lemma rep_parses_ext (ok ok' : char -> bool) (s : str) :
  (forall x, ok x = ok' x) ->
  forall lo hi i g, rep_parses ok lo hi i s g = rep_parses ok' lo hi i s g.
Proof.
  intros H; induction s as [|x s IH]; intros lo hi i g; simpl; [reflexivity|].
  rewrite H, IH; reflexivity.
Qed.

Lemma parses_plain (ic : bool) (r : re) :
  plain r = true -> forall st, parses ic r st = parses false r st.
Proof.
  induction r as [|c|items|r1 IH1 r2 IH2|r1 IH1 r2 IH2|r1 IH1|lo hi items|r1 IH1];
    cbn [plain parses]; try discriminate; intros P st.
  - reflexivity.
  - destruct (rest st) as [|x s']; [reflexivity|].
    cbn [item_ok]; unfold lit_ok.
    destruct (pat_cased c); [discriminate|].
    rewrite andb_false_r; reflexivity.
  - destruct (rest st) as [|x s']; [reflexivity|].
    rewrite (set_ok_caseless ic items x P); reflexivity.
  - apply andb_true_iff in P; destruct P as [P1 P2].
    rewrite (IH1 P1); apply flat_map_ext; intros a; apply IH2; exact P2.
  - apply andb_true_iff in P; destruct P as [P1 P2].
    rewrite (IH1 P1), (IH2 P2); reflexivity.
  - rewrite (IH1 P); reflexivity.
  - apply rep_parses_ext; intros x; apply set_ok_caseless; exact P.
Qed.

(** Where in the text the matching starts makes no difference. *)

Lemma rep_parses_bump (ok : char -> bool) (k : nat) (s : str) :
  forall lo hi i g,
    rep_parses ok lo hi (i + k) s g = map (bump k) (rep_parses ok lo hi i s g).
Proof.
  induction s as [|x s IH]; intros lo hi i g; simpl.
  - destruct (Nat.eqb lo 0); reflexivity.
  - destruct (ok x && can_repeat hi)%bool.
    + rewrite map_app, <- IH.
      destruct (Nat.eqb lo 0); reflexivity.
    + destruct (Nat.eqb lo 0); reflexivity.
Qed.

Lemma parses_bump (ic : bool) (k : nat) (r : re) :
  forall st, parses ic r (bump k st) = map (bump k) (parses ic r st).
Proof.
  induction r as [|c|items|r1 IH1 r2 IH2|r1 IH1 r2 IH2|r1 IH1|lo hi items|r1 IH1];
    intros st; cbn [parses].
  - reflexivity.
  - cbn [bump rest pos grp]; destruct (rest st) as [|x s']; [reflexivity|].
    destruct (item_ok ic (ILit c) x); [|reflexivity].
    reflexivity.
  - cbn [bump rest pos grp]; destruct (rest st) as [|x s']; [reflexivity|].
    destruct (set_ok ic items x); [|reflexivity].
    reflexivity.
  - rewrite IH1, flat_map_map, map_flat_map.
    apply flat_map_ext; intros a; apply IH2.
  - rewrite map_app, IH1, IH2; reflexivity.
  - rewrite map_app, IH1; reflexivity.
  - cbn [bump rest pos grp]; apply rep_parses_bump.
  - rewrite IH1, !map_map; apply map_ext; intros a.
    unfold bump; cbn [pos rest grp].
    replace (pos a + k - (pos st + k)) with (pos a - pos st) by lia; reflexivity.
Qed.

(** What the group holds at the start makes no difference to a pattern that
    has no group. *)

Lemma rep_parses_regroup (ok : char -> bool) (g' : option str) (s : str) :
  forall lo hi i g,
    rep_parses ok lo hi i s g' = map (regroup g') (rep_parses ok lo hi i s g).
Proof.
  induction s as [|x s IH]; intros lo hi i g; simpl.
  - destruct (Nat.eqb lo 0); reflexivity.
  - destruct (ok x && can_repeat hi)%bool.
    + rewrite map_app, <- IH; destruct (Nat.eqb lo 0); reflexivity.
    + destruct (Nat.eqb lo 0); reflexivity.
Qed.

Lemma parses_regroup (ic : bool) (g' : option str) (r : re) :
  plain r = true ->
  forall st, parses ic r (regroup g' st) = map (regroup g') (parses ic r st).
Proof.
  induction r as [|c|items|r1 IH1 r2 IH2|r1 IH1 r2 IH2|r1 IH1|lo hi items|r1 IH1];
    intros P st; cbn [parses]; simpl in P; try discriminate.
  - reflexivity.
  - cbn [regroup rest pos grp]; destruct (rest st) as [|x s']; [reflexivity|].
    destruct (item_ok ic (ILit c) x); reflexivity.
  - cbn [regroup rest pos grp]; destruct (rest st) as [|x s']; [reflexivity|].
    destruct (set_ok ic items x); reflexivity.
  - apply andb_true_iff in P; destruct P as [P1 P2].
    rewrite (IH1 P1), flat_map_map, map_flat_map.
    apply flat_map_ext; intros a; apply (IH2 P2).
  - apply andb_true_iff in P; destruct P as [P1 P2].
    rewrite map_app, (IH1 P1), (IH2 P2); reflexivity.
  - rewrite map_app, (IH1 P); reflexivity.
  - cbn [regroup rest pos grp]; apply rep_parses_regroup.
Qed.

(** The ways of matching that end within a prefix of the text are the ways
    of matching the prefix, in the same order. *)

Lemma rep_parses_beyond (ok : char -> bool) (s : str) :
  forall lo hi i g,
    filter (inside i) (rep_parses ok lo hi i s g)
    = if Nat.eqb lo 0 then [Build_state i s g] else [].
Proof.
  intros lo hi i g.
  assert (Stop : filter (inside i) (if Nat.eqb lo 0 then [Build_state i s g] else [])
                 = if Nat.eqb lo 0 then [Build_state i s g] else []).
  { destruct (Nat.eqb lo 0); [|reflexivity].
    simpl; unfold inside; simpl; rewrite Nat.leb_refl; reflexivity. }
  destruct s as [|x s]; simpl; [exact Stop|].
  destruct (ok x && can_repeat hi)%bool; [|exact Stop].
  rewrite filter_app, Stop, filter_none; [reflexivity|].
  intros st Hin.
  destruct (rep_parses_sound ok s _ _ _ _ st Hin) as (w & _ & Ep & _).
  unfold inside; apply Nat.leb_gt; lia.
Qed.

Lemma rep_parses_prefix (ok : char -> bool) (tl : str) (w : str) :
  forall lo hi i g,
    map (trim (i + List.length w))
        (filter (inside (i + List.length w)) (rep_parses ok lo hi i (w ++ tl) g))
    = rep_parses ok lo hi i w g.
Proof.
  induction w as [|x w IH]; intros lo hi i g.
  - cbn [app List.length]; rewrite Nat.add_0_r, rep_parses_beyond.
    cbn [rep_parses]; destruct (Nat.eqb lo 0); [|reflexivity].
    unfold trim; simpl; rewrite Nat.sub_diag; reflexivity.
  - cbn [app List.length rep_parses].
    assert (Stop : map (trim (i + S (List.length w)))
                     (filter (inside (i + S (List.length w)))
                        (if Nat.eqb lo 0 then [Build_state i (x :: w ++ tl) g] else []))
                   = if Nat.eqb lo 0 then [Build_state i (x :: w) g] else []).
    { destruct (Nat.eqb lo 0); [|reflexivity].
      cbn [filter]; unfold inside; cbn [pos].
      replace (Nat.leb i (i + S (List.length w))) with true
        by (symmetry; apply Nat.leb_le; lia).
      cbn [map]; unfold trim; cbn [pos rest grp].
      replace (i + S (List.length w) - i) with (List.length (x :: w)) by (simpl; lia).
      change (x :: w ++ tl) with ((x :: w) ++ tl).
      rewrite (firstn_exact (x :: w) tl); reflexivity. }
    destruct (ok x && can_repeat hi)%bool; [|exact Stop].
    rewrite filter_app, map_app, Stop.
    replace (i + S (List.length w)) with (S i + List.length w) by lia.
    rewrite IH; reflexivity.
Qed.

Lemma parses_prefix (ic : bool) (tl : str) (r : re) :
  forall st w,
    rest st = w ++ tl ->
    map (trim (pos st + List.length w))
        (filter (inside (pos st + List.length w)) (parses ic r st))
    = parses ic r (Build_state (pos st) w (grp st)).
Proof.
  assert (Here : forall st w, rest st = w ++ tl ->
            map (trim (pos st + List.length w))
                (filter (inside (pos st + List.length w)) [st])
            = [Build_state (pos st) w (grp st)]).
  { intros st w E; cbn [filter]; unfold inside.
    replace (Nat.leb (pos st) (pos st + List.length w)) with true
      by (symmetry; apply Nat.leb_le; lia).
    cbn [map]; unfold trim; rewrite E.
    replace (pos st + List.length w - pos st) with (List.length w) by lia.
    rewrite firstn_exact; reflexivity. }
  assert (One : forall st w (ok : bool) x s',
            x :: s' = w ++ tl ->
            map (trim (pos st + List.length w))
                (filter (inside (pos st + List.length w))
                   (if ok then [Build_state (S (pos st)) s' (grp st)] else []))
            = match w with
              | y :: w' =>
                  if ok then [Build_state (S (pos st)) w' (grp st)] else []
              | [] => []
              end).
  { intros st w ok x s' E.
    destruct ok; [|destruct w; reflexivity].
    destruct w as [|y w]; cbn [filter List.length]; unfold inside; cbn [pos].
    - replace (Nat.leb (S (pos st)) (pos st + 0)) with false
        by (symmetry; apply Nat.leb_gt; lia).
      reflexivity.
    - replace (Nat.leb (S (pos st)) (pos st + S (List.length w))) with true
        by (symmetry; apply Nat.leb_le; lia).
      cbn [map]; unfold trim; cbn [pos rest grp].
      simpl in E; injection E as _ ->.
      replace (pos st + S (List.length w) - S (pos st)) with (List.length w) by lia.
      rewrite firstn_exact; reflexivity. }
  induction r as [|c|items|r1 IH1 r2 IH2|r1 IH1 r2 IH2|r1 IH1|lo hi items|r1 IH1];
    intros st w E; cbn [parses].
  - apply Here; exact E.
  - cbn [rest]. destruct (rest st) as [|x s'] eqn:E'.
    + destruct w; [reflexivity | discriminate].
    + rewrite (One st w _ x s' E).
      destruct w as [|y w]; [reflexivity|].
      injection E as -> _; reflexivity.
  - cbn [rest]. destruct (rest st) as [|x s'] eqn:E'.
    + destruct w; [reflexivity | discriminate].
    + rewrite (One st w _ x s' E).
      destruct w as [|y w]; [reflexivity|].
      injection E as -> _; reflexivity.
  - rewrite <- (IH1 st w E), flat_map_map, filter_flat_map, map_flat_map.
    apply flat_map_filter; intros sm Hin.
    destruct (parses_sound ic r1 st sm Hin) as (w1 & E1 & P1 & _).
    destruct (inside (pos st + List.length w) sm) eqn:I; unfold inside in I.
    + apply Nat.leb_le in I.
      rewrite E in E1.
      destruct (split_inside w tl w1 (rest sm) E1 ltac:(lia)) as [Es El].
      pose proof (IH2 sm _ Es) as K.
      replace (pos sm + List.length (skipn (List.length w1) w))
        with (pos st + List.length w) in K by lia.
      rewrite K; unfold trim; f_equal; f_equal.
      rewrite Es at 1.
      replace (pos st + List.length w - pos sm)
        with (List.length (skipn (List.length w1) w)) by lia.
      rewrite firstn_exact; reflexivity.
    + apply Nat.leb_gt in I.
      rewrite filter_none; [reflexivity|].
      intros st' Hin'.
      destruct (parses_sound ic r2 sm st' Hin') as (w2 & _ & P2 & _).
      unfold inside; apply Nat.leb_gt; lia.
  - rewrite filter_app, map_app, (IH1 st w E), (IH2 st w E); reflexivity.
  - rewrite filter_app, map_app, (IH1 st w E), (Here st w E); reflexivity.
  - cbn [pos rest grp]; rewrite E; apply rep_parses_prefix.
  - cbn [pos rest grp]; rewrite <- (IH1 st w E).
    rewrite filter_map_same by reflexivity.
    rewrite !map_map; apply map_ext_in; intros st' Hin.
    apply filter_In in Hin; destruct Hin as [Hin I].
    unfold inside in I; apply Nat.leb_le in I.
    unfold trim; cbn [pos rest grp]; f_equal.
    rewrite E, firstn_short by lia; reflexivity.
Qed.

(** The match a search returns is the first way of matching somewhere. *)

Lemma search_from_first (p : pattern) (s : str) :
  forall i m,
    search_from p i s = Some m ->
    exists j s' st more,
      parses (p_ic p) (p_re p) (Build_state j s' None) = st :: more /\
      m_group1 m = grp st.
Proof.
  induction s as [|x s IH]; intros i m; cbn [search_from].
  - destruct (parses (p_ic p) (p_re p) (Build_state i [] None)) as [|st more] eqn:E;
      [discriminate|].
    intros H; injection H as <-; exists i, [], st, more; auto.
  - destruct (parses (p_ic p) (p_re p) (Build_state i (x :: s) None)) as [|st more] eqn:E.
    + apply IH.
    + intros H; injection H as <-; exists i, (x :: s), st, more; auto.
Qed.

(** The first way of matching a pattern that ends with a group ends with the
    first way of matching what is grouped, from some state. *)

Lemma parses_tail_group_first (ic : bool) (r b : re) :
  tail_group r = Some b ->
  forall st x more,
    parses ic r st = x :: more ->
    exists sm y more',
      parses ic b sm = y :: more' /\
      grp x = Some (firstn (pos y - pos sm) (rest sm)).
Proof.
  induction r as [|c|items|r1 IH1 r2 IH2|r1 IH1 r2 IH2|r1 IH1|lo hi items|r1 IH1];
    cbn [tail_group]; try discriminate; intros T st x more; cbn [parses].
  - intros H; apply flat_map_head in H; destruct H as (sm & more' & _ & H).
    exact (IH2 T sm x more' H).
  - injection T as <-.
    destruct (parses ic r1 st) as [|y more'] eqn:E; [discriminate|].
    cbn [map]; intros H; injection H as <- _.
    exists st, y, more'; auto.
Qed.

(** What the first way of matching a group-free, letter-free pattern takes
    is, on its own, taken whole by the first way of matching it. *)

Lemma first_parse_alone (ic : bool) (b : re) (sm y : state) (more : list state) :
  plain b = true ->
  parses ic b sm = y :: more ->
  let w := firstn (pos y - pos sm) (rest sm) in
  exists y0 more0,
    parses false b (Build_state 0 w None) = y0 :: more0 /\
    pos y0 = List.length w.
Proof.
  intros P E w.
  destruct (parses_sound ic b sm y) as (w' & Er & Ep & _);
    [rewrite E; left; reflexivity|].
  assert (Ew : w = w').
  { unfold w; rewrite Er, Ep.
    replace (pos sm + List.length w' - pos sm) with (List.length w') by lia.
    apply firstn_exact. }
  pose proof (parses_prefix ic (rest y) b sm w' Er) as K.
  rewrite E in K; cbn [filter] in K.
  unfold inside in K at 1.
  replace (Nat.leb (pos y) (pos sm + List.length w')) with true in K
    by (symmetry; apply Nat.leb_le; lia).
  cbn [map] in K.
  rewrite (parses_plain ic b P) in K.
  change (Build_state (pos sm) w' (grp sm))
    with (bump (pos sm) (regroup (grp sm) (Build_state 0 w' None))) in K.
  rewrite parses_bump, (parses_regroup false (grp sm) b P) in K.
  rewrite Ew.
  destruct (parses false b (Build_state 0 w' None)) as [|y0 more0]; [discriminate|].
  cbn [map] in K; injection K as K _.
  exists y0, more0; split; [reflexivity | lia].
Qed.

(** So a search for such a pattern in the phrase a group of it has captured
    finds the whole phrase. *)

Lemma search_captured (p : pattern) (b : re) (text : str) (m : Match) (g : str) :
  tail_group (p_re p) = Some b ->
  plain b = true ->
  search p text = Some m ->
  m_group1 m = Some g ->
  exists amt,
    search (Build_pattern b false) g = Some amt /\
    m_group0 amt = g /\ m_start amt = 0 /\ m_end amt = List.length g.
Proof.
  intros T P Hm Eg.
  destruct (search_from_first p text 0 m Hm) as (j & s' & st & more & E & Eg').
  destruct (parses_tail_group_first _ _ _ T _ _ _ E) as (sm & y & more' & Ey & Gx).
  assert (g = firstn (pos y - pos sm) (rest sm)) by congruence; subst g.
  destruct (first_parse_alone _ _ _ _ _ P Ey) as (y0 & more0 & E0 & P0).
  unfold search.
  rewrite (search_from_head (Build_pattern b false) 0 _ y0 more0 E0).
  eexists; split; [reflexivity|]; cbn [m_group0 m_start m_end].
  rewrite P0, Nat.sub_0_r, firstn_all; auto.
Qed.

End OrderFacts.

(** ** From the shapes to the matches *)

Section ShapeConverse.
Context {U : Unicode}.
Local Open Scope nat_scope.

Lemma Forall_forallb (f : char -> bool) (w : str) :
  Forall (fun c => f c = true) w -> forallb f w = true.
Proof. intros H; apply forallb_forall; apply Forall_forall; exact H. Qed.

Lemma digits_sem (ic : bool) (lo hi : nat) (w : str) (g : option str) :
  digit_run lo hi w -> sem ic (digits lo hi) w g g.
Proof.
  intros [[Hlo Hhi] Hd]; unfold digits; cbn [sem within].
  split; [|split; [exact Hlo | split; [exact Hhi | reflexivity]]].
  apply Forall_forallb; eapply Forall_impl; [|exact Hd].
  intros c Hc; cbv beta; rewrite set_ok_digit; exact Hc.
Qed.

Lemma spaces_sem (ic : bool) (lo : nat) (w : str) (g : option str) :
  Forall is_space w -> lo <= List.length w -> sem ic (Rep lo None [ISpace]) w g g.
Proof.
  intros Hw Hlo; cbn [sem within].
  split; [|split; [exact Hlo | split; [exact I | reflexivity]]].
  apply Forall_forallb; eapply Forall_impl; [|exact Hw].
  intros c Hc; cbv beta; rewrite set_ok_space; exact Hc.
Qed.

Lemma lit_ok_same (ic : bool) (c : char) : pat_cased c = false -> lit_ok ic c c = true.
Proof. intros H; rewrite (lit_ok_caseless ic c c H); apply N.eqb_refl. Qed.

Lemma date_sep_sem (s : char) (g : option str) :
  is_date_sep s -> sem false date_sep [s] g g.
Proof.
  intros H; unfold date_sep; cbn [sem].
  exists s; split; [reflexivity|]; split; [|reflexivity].
  unfold set_ok; cbn [existsb item_ok].
  destruct H as [-> | ->]; rewrite !lit_ok_same by reflexivity;
    rewrite ?orb_true_r; reflexivity.
Qed.

Lemma numeric_date_sem (w : str) (g : option str) :
  numeric_date_shape w ->
  sem false (cats [digits 1 2; date_sep; digits 1 2; date_sep; digits 2 4]) w g g.
Proof.
  intros (d1 & s1 & d2 & s2 & y & -> & R1 & P1 & R2 & P2 & R3).
  cbn [cats]; cbn [sem].
  exists d1, ([s1] ++ d2 ++ [s2] ++ y), g.
  split; [reflexivity|]; split; [apply digits_sem; exact R1|].
  exists [s1], (d2 ++ [s2] ++ y), g.
  split; [reflexivity|]; split; [apply date_sep_sem; exact P1|].
  exists d2, ([s2] ++ y), g.
  split; [reflexivity|]; split; [apply digits_sem; exact R2|].
  exists [s2], y, g.
  split; [reflexivity|]; split; [apply date_sep_sem; exact P2|].
  apply digits_sem; exact R3.
Qed.

Lemma worded_date_sem (w : str) (g : option str) :
  worded_date_shape w ->
  sem false
      (cats [ In_ [IRange (ch "A") (ch "Z")];
              Rep 2 (Some 8) [IRange (ch "a") (ch "z")];
              ws_plus; digits 1 2; Chr (ch ","); ws_star; digits 4 4 ])
      w g g.
Proof.
  intros (cap & low & ws1 & day & ws2 & year & -> & Hcap & Hlen & Hlow & Hne & W1 & D & W2 & Y).
  cbn [cats]; cbn [sem].
  exists [cap], (low ++ ws1 ++ day ++ [ch ","] ++ ws2 ++ year), g.
  split; [reflexivity|]; split.
  { exists cap; split; [reflexivity|]; split; [|reflexivity].
    unfold set_ok; cbn [existsb item_ok]; rewrite Hcap; reflexivity. }
  exists low, (ws1 ++ day ++ [ch ","] ++ ws2 ++ year), g.
  split; [reflexivity|]; split.
  { split; [|split; [lia | split; [cbn [within]; lia | reflexivity]]].
    apply Forall_forallb; eapply Forall_impl; [|exact Hlow].
    intros c Hc; cbv beta; unfold set_ok; cbn [existsb item_ok]; rewrite Hc; reflexivity. }
  exists ws1, (day ++ [ch ","] ++ ws2 ++ year), g.
  split; [reflexivity|]; split.
  { apply spaces_sem; [exact W1|]. destruct ws1; [congruence | simpl; lia]. }
  exists day, ([ch ","] ++ ws2 ++ year), g.
  split; [reflexivity|]; split; [apply digits_sem; exact D|].
  exists [ch ","], (ws2 ++ year), g.
  split; [reflexivity|]; split.
  { exists (ch ","); split; [reflexivity|]; split; [|reflexivity].
    apply lit_ok_same; reflexivity. }
  exists ws2, year, g.
  split; [reflexivity|]; split; [apply spaces_sem; [exact W2 | lia]|].
  apply digits_sem; exact Y.
Qed.


(** The match a search returns starts no later than any word the pattern
    matches in the text. *)
Lemma search_from_leftmost (p : pattern) (s : str) :
  forall i m before w after g',
    search_from p i s = Some m ->
    s = before ++ w ++ after ->
    sem (p_ic p) (p_re p) w None g' ->
    m_start m <= i + List.length before.
Proof.
  induction s as [|x s IH]; intros i m before w after g' H E S1.
  - cbn [search_from] in H.
    destruct (parses (p_ic p) (p_re p) (Build_state i [] None)) as [|st l];
      [discriminate | injection H as <-; simpl; lia].
  - cbn [search_from] in H.
    destruct (parses (p_ic p) (p_re p) (Build_state i (x :: s) None)) as [|st l] eqn:Ep;
      [|injection H as <-; simpl; lia].
    destruct before as [|y before].
    + exfalso.
      pose proof (parses_complete (p_ic p) (p_re p) w None g' i after S1) as Hin.
      simpl in E; rewrite <- E, Ep in Hin; exact Hin.
    + simpl in E; injection E as _ E.
      pose proof (IH (S i) m before w after g' H E S1).
      simpl; lia.
Qed.

Lemma search_leftmost (p : pattern) (text : str) (m : Match) (before w after : str)
    (g' : option str) :
  search p text = Some m ->
  text = before ++ w ++ after ->
  sem (p_ic p) (p_re p) w None g' ->
  m_start m <= List.length before.
Proof. intros H E S1; exact (search_from_leftmost p text 0 m before w after g' H E S1). Qed.

(** What the date searches find, and when. *)

Lemma numeric_date_search (g : str) :
  (exists v, occurs v g /\ numeric_date_shape v) ->
  exists d a v b,
    search RE_DATE g = Some d /\ m_group1 d = Some v /\
    g = a ++ v ++ b /\ numeric_date_shape v /\
    (forall a' v' b', g = a' ++ v' ++ b' -> numeric_date_shape v' ->
                      List.length a <= List.length a').
Proof.
  intros (v0 & (a0 & b0 & E0) & Sh0).
  assert (S0 : sem (p_ic RE_DATE) (p_re RE_DATE) v0 None (Some v0)).
  { cbn [RE_DATE p_ic p_re sem]; exists None; split; [|reflexivity].
    apply numeric_date_sem; exact Sh0. }
  destruct (search RE_DATE g) as [d|] eqn:Ed;
    [|exfalso; apply (search_complete RE_DATE a0 v0 b0 _ S0); rewrite <- E0; exact Ed].
  pose proof Ed as Hs; apply search_sound in Hs.
  destruct Hs as (a & w & b & E & Ea & _ & _ & gi & S1 & Eg).
  exists d, a, w, b.
  split; [reflexivity|]; split; [exact Eg|]; split; [exact E|].
  split; [eapply sem_numeric_date; exact S1|].
  intros a' v' b' E' Sh'.
  rewrite <- Ea.
  apply (search_leftmost RE_DATE g d a' v' b' (Some v') Ed E').
  cbn [RE_DATE p_ic p_re sem]; exists None; split; [|reflexivity].
  apply numeric_date_sem; exact Sh'.
Qed.

Lemma worded_date_search (g : str) :
  (exists v, occurs v g /\ worded_date_shape v) ->
  exists d a v b,
    search RE_DATE_WORD g = Some d /\ m_group1 d = Some v /\
    g = a ++ v ++ b /\ worded_date_shape v /\
    (forall a' v' b', g = a' ++ v' ++ b' -> worded_date_shape v' ->
                      List.length a <= List.length a').
Proof.
  intros (v0 & (a0 & b0 & E0) & Sh0).
  assert (S0 : sem (p_ic RE_DATE_WORD) (p_re RE_DATE_WORD) v0 None (Some v0)).
  { cbn [RE_DATE_WORD p_ic p_re sem]; exists None; split; [|reflexivity].
    apply worded_date_sem; exact Sh0. }
  destruct (search RE_DATE_WORD g) as [d|] eqn:Ed;
    [|exfalso; apply (search_complete RE_DATE_WORD a0 v0 b0 _ S0); rewrite <- E0; exact Ed].
  pose proof Ed as Hs; apply search_sound in Hs.
  destruct Hs as (a & w & b & E & Ea & _ & _ & gi & S1 & Eg).
  exists d, a, w, b.
  split; [reflexivity|]; split; [exact Eg|]; split; [exact E|].
  split; [eapply sem_worded_date; exact S1|].
  intros a' v' b' E' Sh'.
  rewrite <- Ea.
  apply (search_leftmost RE_DATE_WORD g d a' v' b' (Some v') Ed E').
  cbn [RE_DATE_WORD p_ic p_re sem]; exists None; split; [|reflexivity].
  apply worded_date_sem; exact Sh'.
Qed.

Lemma no_numeric_date (g : str) :
  search RE_DATE g = None <-> (forall v, occurs v g -> ~ numeric_date_shape v).
Proof.
  split.
  - intros E v Ho Sh.
    destruct (numeric_date_search g (ex_intro _ v (conj Ho Sh))) as (d & _ & _ & _ & Ed & _).
    congruence.
  - intros H; destruct (search RE_DATE g) as [d|] eqn:Ed; [|reflexivity].
    destruct (numeric_date_found g d Ed) as (v & _ & Ho & Sh).
    destruct (H v Ho Sh).
Qed.

Lemma no_worded_date (g : str) :
  search RE_DATE_WORD g = None <-> (forall v, occurs v g -> ~ worded_date_shape v).
Proof.
  split.
  - intros E v Ho Sh.
    destruct (worded_date_search g (ex_intro _ v (conj Ho Sh))) as (d & _ & _ & _ & Ed & _).
    congruence.
  - intros H; destruct (search RE_DATE_WORD g) as [d|] eqn:Ed; [|reflexivity].
    destruct (worded_date_found g d Ed) as (v & _ & Ho & Sh).
    destruct (H v Ho Sh).
Qed.

(** Words matched whole, where a group stands, and the token as worded. *)

Local Close Scope nat_scope.





End ShapeConverse.


(** ** The claims of the specification *)

Section Claims.
Context {U : Unicode}.

(** C1, as the code has it. Each of the four pattern extractors scans the
    pages in index order, and returns for the first page that gives it a
    value, built from that page alone and numbered from 1, whatever pages
    follow.  For the last-4, statement-period and total-balance extractors
    that page is the first one the label pattern matches.  For the due-date
    extractor it is the first one where the label pattern matches and the
    captured phrase holds a date: a page where the label matches and no date
    is found in the phrase is passed over, and the scan goes on. *)
Theorem first_page_with_value_wins (before : list str) (text : str) (after : list str) :
  let pages := before ++ text :: after in
  let i := Z.of_nat (List.length before) in
  (forall m,
     (forall t, In t before -> search RE_LAST4 t = None) ->
     search RE_LAST4 text = Some m ->
     exists g, m_group1 m = Some g /\
       extract_last4 pages = found (Some g) i text m 0.95)
  /\ (forall m,
        (forall t, In t before -> search RE_PERIOD t = None) ->
        search RE_PERIOD text = Some m ->
        exists g, m_group1 m = Some g /\
          extract_statement_period pages
          = Returns (found (Some (normalize_spaces g)) i text m 0.9))
  /\ (forall m,
        (forall t, In t before -> search RE_TOTAL_BAL t = None) ->
        search RE_TOTAL_BAL text = Some m ->
        exists g amt, m_group1 m = Some g /\ search RE_CURRENCY g = Some amt /\
          extract_total_balance pages
          = Returns (found (Some (m_group0 amt)) i text m 0.95))
  /\ (forall m g d,
        (forall t, In t before -> ~ dated_page t) ->
        search RE_DUE text = Some m ->
        m_group1 m = Some g ->
        search_date g = Some d ->
        exists v, m_group1 d = Some v /\
          extract_due_date pages
          = Returns (found (Some (normalize_spaces v)) i text m 0.95))
  /\ (forall m g,
        search RE_DUE text = Some m ->
        m_group1 m = Some g ->
        search_date g = None ->
        ~ dated_page text /\
        extract_due_date (text :: after) = due_date_loop 1 after).
Proof.
  intros pages i; subst pages i.
  split; [|split; [|split; [|split]]].
  - intros m Hb Hm.
    destruct (last4_group text m Hm) as [g Eg]; exists g; split; [exact Eg|].
    unfold extract_last4; rewrite last4_loop_skip by exact Hb.
    cbn [last4_loop]; rewrite Hm, Eg; reflexivity.
  - intros m Hb Hm.
    destruct (period_group text m Hm) as [g Eg]; exists g; split; [exact Eg|].
    unfold extract_statement_period; rewrite period_loop_skip by exact Hb.
    cbn [period_loop]; rewrite Hm, Eg; reflexivity.
  - intros m Hb Hm.
    destruct (total_phrase_is_currency text m Hm) as (g & amt & Eg & _ & Ea).
    exists g, amt; split; [exact Eg|]; split; [exact Ea|].
    unfold extract_total_balance; rewrite total_loop_skip by exact Hb.
    cbn [total_loop]; rewrite Hm, Eg, Ea; reflexivity.
  - intros m g d Hb Hm Eg Ed.
    destruct (date_group g d Ed) as [v Ev]; exists v; split; [exact Ev|].
    unfold extract_due_date; rewrite due_date_loop_skip by exact Hb.
    cbn [due_date_loop]; rewrite Hm, Eg, Ed, Ev; reflexivity.
  - intros m g Hm Eg Ed.
    assert (N : ~ dated_page text).
    { intros (m' & g' & d' & Hm' & Eg' & Ed'); congruence. }
    split; [exact N|].
    unfold extract_due_date; rewrite due_date_loop_next by exact N; reflexivity.
Qed.

(** C2. Each of the five field extractors returns an extraction, on every
    list of pages and for every issuer hint, and in what it returns the three
    conditions [value is None], [confidence == 0.0] and [notes is not None]
    are pairwise equivalent. *)
Theorem extraction_absent_iff (pages : list str) (hint : option str) :
  absent_iff (extract_last4 pages)
  /\ (exists e, extract_due_date pages = Returns e /\ absent_iff e)
  /\ (exists e, extract_statement_period pages = Returns e /\ absent_iff e)
  /\ (exists e, extract_total_balance pages = Returns e /\ absent_iff e)
  /\ absent_iff (extract_card_variant pages hint).
Proof.
  split; [apply last4_loop_invariant|].
  split; [apply due_date_loop_invariant|].
  split; [apply period_loop_invariant|].
  split.
  - destruct (total_loop_invariant pages 0) as (e & E & I & _); eauto.
  - destruct hint as [[|c h]|]; simpl;
      try apply absent_iff_absent; apply variant_loop_invariant.
Qed.

(** C3. [find_issuer] lower-cases the text and returns the first issuer code,
    in the declared order pnb, lena, hdfc, sbi, one of whose keywords is a
    substring of the lower-cased text, and [None] when no keyword of any
    issuer is one.  When a pnb keyword and the hdfc keyword are both there,
    the answer is pnb, the one declared earlier. *)
Theorem find_issuer_declared_order (all_text : str) :
  let lc := str_lower all_text in
  map fst ISSUERS = [u "pnb"; u "lena"; u "hdfc"; u "sbi"]
  /\ (forall before key tokens after,
        ISSUERS = before ++ (key, tokens) :: after ->
        (forall k toks, In (k, toks) before -> ~ keyword_present lc toks) ->
        keyword_present lc tokens ->
        find_issuer all_text = Some key)
  /\ ((forall k toks, In (k, toks) ISSUERS -> ~ keyword_present lc toks) ->
      find_issuer all_text = None)
  /\ (keyword_present lc [u "pnb"; u "punjab national bank"] ->
      keyword_present lc [u "hdfc"] ->
      find_issuer all_text = Some (u "pnb")).
Proof.
  intros lc; split; [reflexivity|].
  split; [|split].
  - intros before key tokens after E Hb Hk.
    unfold find_issuer; fold lc; rewrite E.
    apply first_issuer_hit; assumption.
  - intros H; unfold find_issuer; fold lc.
    apply first_issuer_miss; exact H.
  - intros Hp _.
    unfold find_issuer; fold lc.
    apply (first_issuer_hit lc [] (u "pnb") _ _); [intros k toks []|exact Hp].
Qed.


(** C5, as the code has it. On the first dated page, [extract_due_date]
    searches the phrase its label pattern captured first for a numeric date:
    one or two digits, a slash or a dash, one or two digits, a slash or a
    dash, and two to four digits.  Only when there is none does it search for
    a worded date: a capital letter and two to eight small letters, one or
    more whitespace characters, one or two digits, a comma, optional
    whitespace, four digits.  The value is the date found, a part of the
    captured phrase and not the whole of it, with its whitespace normalized.
    A numeric date is found whenever the phrase holds a string of the numeric
    shape, and none that starts earlier in the phrase has that shape; when
    the phrase holds none, a worded date is found whenever the phrase holds a
    string of the worded shape, again the leftmost; when the phrase holds
    neither, the page is passed over and the scan goes on with the next.
    On the single page "Due Date: 04/15/2024" the value is "04/15/2024", and
    on "Due Date: March 5, 2024" it is "March 5, 2024"; a year of two digits
    and a month of three or of nine letters are taken, and a numeric date
    later in the phrase is preferred to a worded one before it. *)
Theorem due_date_value :
  (forall before text after m g,
     (forall t, In t before -> ~ dated_page t) ->
     search RE_DUE text = Some m ->
     m_group1 m = Some g ->
     let pages := before ++ text :: after in
     let i := Z.of_nat (List.length before) in
     (forall d,
        search RE_DATE g = Some d ->
        exists v, m_group1 d = Some v /\ occurs v g /\ numeric_date_shape v /\
          extract_due_date pages
          = Returns (found (Some (normalize_spaces v)) i text m 0.95))
     /\ (forall d,
           search RE_DATE g = None ->
           search RE_DATE_WORD g = Some d ->
           exists v, m_group1 d = Some v /\ occurs v g /\ worded_date_shape v /\
             extract_due_date pages
             = Returns (found (Some (normalize_spaces v)) i text m 0.95))
     /\ ((exists v, occurs v g /\ numeric_date_shape v) ->
         exists a v b,
           g = a ++ v ++ b /\ numeric_date_shape v /\
           (forall a' v' b',
              g = a' ++ v' ++ b' -> numeric_date_shape v' ->
              (List.length a <= List.length a')%nat) /\
           extract_due_date pages
           = Returns (found (Some (normalize_spaces v)) i text m 0.95))
     /\ ((forall v, occurs v g -> ~ numeric_date_shape v) ->
         (exists v, occurs v g /\ worded_date_shape v) ->
         exists a v b,
           g = a ++ v ++ b /\ worded_date_shape v /\
           (forall a' v' b',
              g = a' ++ v' ++ b' -> worded_date_shape v' ->
              (List.length a <= List.length a')%nat) /\
           extract_due_date pages
           = Returns (found (Some (normalize_spaces v)) i text m 0.95))
     /\ ((forall v, occurs v g -> ~ numeric_date_shape v /\ ~ worded_date_shape v) ->
         ~ dated_page text /\
         extract_due_date pages = due_date_loop (i + 1) after))
  /\ (exists e,
        extract_due_date (U := Latin) [u "Due Date: 04/15/2024"] = Returns e
        /\ value e = Some (u "04/15/2024"))
  /\ (exists e,
        extract_due_date (U := Latin) [u "Due Date: March 5, 2024"] = Returns e
        /\ value e = Some (u "March 5, 2024"))
  /\ (exists e,
        extract_due_date (U := Latin) [u "Due Date: 04/15/24"] = Returns e
        /\ value e = Some (u "04/15/24"))
  /\ (exists e,
        extract_due_date (U := Latin) [u "Due Date: Jan 5, 2024"] = Returns e
        /\ value e = Some (u "Jan 5, 2024"))
  /\ (exists e,
        extract_due_date (U := Latin) [u "Due Date: September 30, 2024"] = Returns e
        /\ value e = Some (u "September 30, 2024"))
  /\ (exists e,
        extract_due_date (U := Latin)
          [u "Due Date: March 5, 2024 or 04/15/2024"] = Returns e
        /\ value e = Some (u "04/15/2024")).
Proof.
  split.
  - intros before text after m g Hb Hm Eg pages i; subst pages i.
    assert (Num : forall d v,
              search RE_DATE g = Some d -> m_group1 d = Some v ->
              extract_due_date (before ++ text :: after)
              = Returns (found (Some (normalize_spaces v))
                               (Z.of_nat (List.length before)) text m 0.95)).
    { intros d v Ed Ev.
      unfold extract_due_date; rewrite due_date_loop_skip by exact Hb.
      cbn [due_date_loop]; rewrite Hm, Eg.
      unfold search_date; rewrite Ed, Ev; reflexivity. }
    assert (Wrd : forall d v,
              search RE_DATE g = None ->
              search RE_DATE_WORD g = Some d -> m_group1 d = Some v ->
              extract_due_date (before ++ text :: after)
              = Returns (found (Some (normalize_spaces v))
                               (Z.of_nat (List.length before)) text m 0.95)).
    { intros d v En Ed Ev.
      unfold extract_due_date; rewrite due_date_loop_skip by exact Hb.
      cbn [due_date_loop]; rewrite Hm, Eg.
      unfold search_date; rewrite En, Ed, Ev; reflexivity. }
    split; [|split; [|split; [|split]]].
    + intros d Ed.
      destruct (numeric_date_found g d Ed) as (v & Ev & Ho & Hs).
      exists v; repeat (split; [assumption|]); exact (Num d v Ed Ev).
    + intros d En Ed.
      destruct (worded_date_found g d Ed) as (v & Ev & Ho & Hs).
      exists v; repeat (split; [assumption|]); exact (Wrd d v En Ed Ev).
    + intros H.
      destruct (numeric_date_search g H) as (d & a & v & b & Ed & Ev & E & Sh & Lm).
      exists a, v, b; repeat (split; [assumption|]); exact (Num d v Ed Ev).
    + intros Hn H.
      destruct (worded_date_search g H) as (d & a & v & b & Ed & Ev & E & Sh & Lm).
      exists a, v, b; repeat (split; [assumption|]).
      apply (Wrd d v); [apply no_numeric_date; exact Hn | exact Ed | exact Ev].
    + intros H.
      assert (En : search RE_DATE g = None)
        by (apply no_numeric_date; intros v Ho; exact (proj1 (H v Ho))).
      assert (Ew : search RE_DATE_WORD g = None)
        by (apply no_worded_date; intros v Ho; exact (proj2 (H v Ho))).
      assert (Nd : ~ dated_page text).
      { intros (m' & g' & d' & Hm' & Eg' & Ed').
        assert (m' = m) by congruence; subst m'.
        assert (g' = g) by congruence; subst g'.
        unfold search_date in Ed'; rewrite En, Ew in Ed'; discriminate. }
      split; [exact Nd|].
      unfold extract_due_date; rewrite due_date_loop_skip by exact Hb.
      apply due_date_loop_next; exact Nd.
  - repeat split; (eexists; split; [vm_compute; reflexivity | reflexivity]).
Qed.

(** C6. With no issuer hint, [None] or the empty string,
    [extract_card_variant] returns the absent extraction noted
    "issuer unknown", whatever the pages.  With a hint, it
    returns for the first page on which a candidate name of the issuer
    occurs in the lower-cased text, and for the first such name in the
    declared list order: the value is that name in title case, the page is
    the 1-based position, the confidence is 0.85.  With the hint "sbi", on a
    page whose lower-cased text holds "simplyclick" and not the name listed
    before it, the value is "Simplyclick" at confidence 0.85. *)
Theorem extract_card_variant_first_listed_name (pages : list str) :
  extract_card_variant pages None = absent "issuer unknown"
  /\ extract_card_variant pages (Some []) = absent "issuer unknown"
  /\ (forall (hint : str) before text after earlier nm later,
        hint <> [] ->
        pages = before ++ text :: after ->
        variant_names hint = earlier ++ nm :: later ->
        (forall t n, In t before -> In n (variant_names hint) ->
                     ~ occurs n (str_lower t)) ->
        (forall n, In n earlier -> ~ occurs n (str_lower text)) ->
        occurs nm (str_lower text) ->
        extract_card_variant pages (Some hint)
        = {| value := Some (title nm);
             page := Some (Z.of_nat (List.length before) + 1);
             snippet :=
               Some (normalize_spaces
                       (slice text (Z.max 0 (find (str_lower text) nm - 30))
                                   (find (str_lower text) nm + 30)));
             confidence := 0.85;
             notes := None |})
  /\ (forall text,
        pages = [text] ->
        occurs (u "simplyclick") (str_lower text) ->
        ~ occurs (u "prime") (str_lower text) ->
        value (extract_card_variant pages (Some (u "sbi"))) = Some (u "Simplyclick")
        /\ confidence (extract_card_variant pages (Some (u "sbi"))) = 0.85%float).
Proof.
  split; [reflexivity|].
  split; [reflexivity|].
  assert (G : forall (hint : str) before text after earlier nm later,
        hint <> [] ->
        pages = before ++ text :: after ->
        variant_names hint = earlier ++ nm :: later ->
        (forall t n, In t before -> In n (variant_names hint) ->
                     ~ occurs n (str_lower t)) ->
        (forall n, In n earlier -> ~ occurs n (str_lower text)) ->
        occurs nm (str_lower text) ->
        extract_card_variant pages (Some hint)
        = {| value := Some (title nm);
             page := Some (Z.of_nat (List.length before) + 1);
             snippet :=
               Some (normalize_spaces
                       (slice text (Z.max 0 (find (str_lower text) nm - 30))
                                   (find (str_lower text) nm + 30)));
             confidence := 0.85;
             notes := None |}).
  { intros hint before text after earlier nm later Hh -> En Hb He Hn.
    destruct hint as [|c hint]; [congruence|].
    unfold extract_card_variant.
    rewrite variant_loop_skip by exact Hb.
    cbn [variant_loop]; rewrite En.
    rewrite (variant_on_page_hit _ text (str_lower text) earlier nm later He Hn).
    reflexivity. }
  split; [exact G|].
  intros text -> Hs Hp.
  rewrite (G (u "sbi") [] text [] [u "prime"] (u "simplyclick") [u "elite"; u "classic"]).
  - split; reflexivity.
  - discriminate.
  - reflexivity.
  - reflexivity.
  - intros t n [].
  - intros n [<-|[]]; exact Hp.
  - exact Hs.
Qed.

(** C7. For a span [(a, b)] with [0 <= a <= b] and the context of 40,
    [snippet_around] returns the normalized window of the text from
    [max(0, a-40)] to [min(len(text), b+40)]; its length is at most the
    length of the span plus 80, and less than that when the window is cut at
    the start or at the end of the text. *)
Theorem snippet_around_window (text : str) (a b : Z) :
  0 <= a <= b ->
  let start := Z.max 0 (a - 40) in
  let stop := Z.min (len text) (b + 40) in
  snippet_around text (a, b) 40
  = normalize_spaces (firstn (Z.to_nat (stop - start)) (skipn (Z.to_nat start) text))
  /\ len (snippet_around text (a, b) 40) <= (b - a) + 80
  /\ (a < 40 \/ len text < b + 40 ->
      len (snippet_around text (a, b) 40) < (b - a) + 80).
Proof.
  intros Hab start stop.
  assert (Hlen : 0 <= len text) by (unfold len; lia).
  assert (E : snippet_around text (a, b) 40
              = normalize_spaces
                  (firstn (Z.to_nat (stop - start)) (skipn (Z.to_nat start) text))).
  { unfold snippet_around; simpl fst; simpl snd.
    fold start; fold stop.
    rewrite slice_window by (subst start stop; lia).
    reflexivity. }
  assert (L : len (snippet_around text (a, b) 40) <= Z.max 0 (stop - start)).
  { rewrite E.
    etransitivity; [apply normalize_length|].
    unfold len; rewrite length_firstn; lia. }
  split; [exact E|].
  split; [subst start stop; lia|].
  intros [H|H]; subst start stop; lia.
Qed.

(** C8. [normalize_spaces] is idempotent on every string: normalizing twice
    gives what normalizing once gives.  What it returns has each whitespace
    character standing alone as one space, and none at either end; runs that
    hold newlines are replaced like the others. *)
Theorem normalize_spaces_idempotent (s : str) :
  normalize_spaces (normalize_spaces s) = normalize_spaces s
  /\ single_spaced (normalize_spaces s)
  /\ strip (normalize_spaces s) = normalize_spaces s
  /\ normalize_spaces (U := Latin) ([NL; SP] ++ u "Due" ++ [SP; NL; NL; SP] ++ u "Date" ++ [NL])
     = u "Due Date".
Proof.
  assert (K : strip (normalize_spaces s) = normalize_spaces s)
    by apply strip_idem.
  split; [|split; [|split]]; auto.
  - apply normalize_fixed; [apply normalize_single_spaced | exact K].
  - apply normalize_single_spaced.
Qed.

(** C9. On the empty page sequence the pipeline returns a record, raising
    nothing: the issuer hint is absent, and each of the five fields is an
    absent extraction, with no value and confidence 0.0.  The same holds of
    each extractor and of issuer detection called on their own, the variant
    extractor for every hint. *)
Theorem parse_empty_document :
  parse_pages []
  = Returns {| issuer_hint := None;
               card_last4 := absent "not found";
               card_variant := absent "issuer unknown";
               statement_period := absent "not found";
               payment_due_date := absent "not found";
               total_balance := absent "not found" |}
  /\ find_issuer [] = None
  /\ extract_last4 [] = absent "not found"
  /\ extract_due_date [] = Returns (absent "not found")
  /\ extract_statement_period [] = Returns (absent "not found")
  /\ extract_total_balance [] = Returns (absent "not found")
  /\ (forall hint,
        value (extract_card_variant [] hint) = None
        /\ confidence (extract_card_variant [] hint) = 0%float
        /\ notes (extract_card_variant [] hint) <> None).
Proof.
  assert (I : find_issuer [] = None).
  { unfold find_issuer; rewrite str_lower_nil; reflexivity. }
  split.
  - unfold parse_pages; simpl join; rewrite I; reflexivity.
  - split; [exact I|].
    do 4 (split; [reflexivity|]).
    intros hint; destruct hint as [[|c h]|]; simpl;
      (split; [reflexivity | split; [reflexivity | discriminate]]).
Qed.

(** C10. The phrase that the total-balance label pattern captures has the
    currency shape, so the search for a currency token inside it always finds
    one; hence [extract_total_balance] returns on every list of pages, and
    whenever its value is present its confidence is 0.95: the branch that
    returns the whole phrase at 0.8 is never taken. *)
Theorem total_balance_confidence (pages : list str) :
  (forall text m,
     search RE_TOTAL_BAL text = Some m ->
     exists g amt,
       m_group1 m = Some g /\ currency_shape g /\
       search RE_CURRENCY g = Some amt /\
       balance_value g = (Some (m_group0 amt), 0.95%float))
  /\ (exists e,
        extract_total_balance pages = Returns e /\
        (value e <> None -> confidence e = 0.95%float)).
Proof.
  split.
  - intros text m H.
    destruct (total_phrase_is_currency text m H) as (g & amt & Eg & Sg & Ea).
    exists g, amt; split; [exact Eg|].
    split; [eapply sem_currency; exact Sg|].
    split; [exact Ea|].
    unfold balance_value; rewrite Ea; reflexivity.
  - destruct (total_loop_invariant pages 0) as (e & E & _ & C); eauto.
Qed.

End Claims.

(** ** Further properties of the extractors *)

Section Extras.
Context {U : Unicode}.

(** X1. What each extractor returns is either the not-found extraction
    (no value, no page, no snippet, confidence 0.0, the note "not found"), or
    has a value, a page and a snippet together, no note, and the confidence
    of its extractor: 0.95 for the last four digits, the due date and the
    total balance, 0.9 for the statement period, 0.85 for the card variant.
    The page is between 1 and the number of pages.  The variant extractor
    returns, besides, the extraction noted "issuer unknown" when it has no
    hint. *)
Theorem extraction_shape (pages : list str) (hint : option str) :
  result_shape 0.95 (pages_count pages) 0 (extract_last4 pages)
  /\ (exists e, extract_due_date pages = Returns e /\
                result_shape 0.95 (pages_count pages) 0 e)
  /\ (exists e, extract_statement_period pages = Returns e /\
                result_shape 0.9 (pages_count pages) 0 e)
  /\ (exists e, extract_total_balance pages = Returns e /\
                result_shape 0.95 (pages_count pages) 0 e)
  /\ (extract_card_variant pages hint = absent "issuer unknown" \/
      result_shape 0.85 (pages_count pages) 0 (extract_card_variant pages hint)).
Proof.
  split; [apply last4_loop_shape|].
  split; [apply due_date_loop_shape|].
  split; [apply period_loop_shape|].
  split; [apply total_loop_shape|].
  destruct hint as [[|c h]|]; simpl; auto.
  right; apply variant_loop_shape.
Qed.

(** X2. A page number in a result names the page the result was built from.
    When [extract_last4], [extract_statement_period] or
    [extract_total_balance] returns page [p], page [p] of the input is the
    first one its label pattern matches, and the value, the snippet and the
    confidence are those derived from the match on that page; when
    [extract_due_date] returns page [p], page [p] is the first dated page. *)
Theorem extraction_origin (pages : list str) (p : Z) :
  (page (extract_last4 pages) = Some p ->
   exists k text m,
     p = Z.of_nat k + 1 /\
     first_match_at RE_LAST4 pages k text m /\
     extract_last4 pages = found (m_group1 m) (Z.of_nat k) text m 0.95)
  /\ (forall e,
        extract_statement_period pages = Returns e ->
        page e = Some p ->
        exists k text m g,
          p = Z.of_nat k + 1 /\
          first_match_at RE_PERIOD pages k text m /\
          m_group1 m = Some g /\
          e = found (Some (normalize_spaces g)) (Z.of_nat k) text m 0.9)
  /\ (forall e,
        extract_total_balance pages = Returns e ->
        page e = Some p ->
        exists k text m g amt,
          p = Z.of_nat k + 1 /\
          first_match_at RE_TOTAL_BAL pages k text m /\
          m_group1 m = Some g /\
          search RE_CURRENCY g = Some amt /\
          e = found (Some (m_group0 amt)) (Z.of_nat k) text m 0.95)
  /\ (forall e,
        extract_due_date pages = Returns e ->
        page e = Some p ->
        exists k text m g d v,
          p = Z.of_nat k + 1 /\
          first_dated_at pages k text /\
          search RE_DUE text = Some m /\
          m_group1 m = Some g /\
          search_date g = Some d /\
          m_group1 d = Some v /\
          e = found (Some (normalize_spaces v)) (Z.of_nat k) text m 0.95).
Proof.
  split; [|split; [|split]].
  - intros H; destruct (last4_loop_origin pages 0 p H) as (k & t & m & E & F & R).
    exists k, t, m; auto.
  - intros e He Hp.
    destruct (period_loop_origin pages 0 e p He Hp) as (k & t & m & g & E & F & Eg & R).
    exists k, t, m, g; auto.
  - intros e He Hp.
    destruct (total_loop_origin pages 0 e p He Hp)
      as (k & t & m & g & amt & E & F & Eg & Ea & R).
    exists k, t, m, g, amt; auto.
  - intros e He Hp.
    destruct (due_date_loop_origin pages 0 e p He Hp)
      as (k & t & m & g & d & v & E & F & Em & Eg & Ed & Ev & R).
    exists k, t, m, g, d, v; repeat (split; [assumption|]); exact R.
Qed.

(** X3. An extractor returns no value exactly when no page gives it one:
    for the last four digits, the statement period and the total balance,
    when the label pattern matches no page; for the due date, when no page
    is dated. *)
Theorem not_found_iff_no_page (pages : list str) :
  (value (extract_last4 pages) = None <->
   (forall t, In t pages -> search RE_LAST4 t = None))
  /\ (exists e, extract_statement_period pages = Returns e /\
        (value e = None <-> (forall t, In t pages -> search RE_PERIOD t = None)))
  /\ (exists e, extract_total_balance pages = Returns e /\
        (value e = None <-> (forall t, In t pages -> search RE_TOTAL_BAL t = None)))
  /\ (exists e, extract_due_date pages = Returns e /\
        (value e = None <-> (forall t, In t pages -> ~ dated_page t))).
Proof.
  split; [apply last4_loop_none|].
  split.
  { destruct (period_loop_shape pages 0) as (e & E & _).
    exists e; split; [exact E | eapply period_loop_none; exact E]. }
  split.
  { destruct (total_loop_shape pages 0) as (e & E & _).
    exists e; split; [exact E | eapply total_loop_none; exact E]. }
  destruct (due_date_loop_shape pages 0) as (e & E & _).
  exists e; split; [exact E | eapply due_date_loop_none; exact E].
Qed.

(** X4. The value [extract_last4] returns, when it returns one, is four
    decimal digits, and they stand in the text of one of the pages. *)
Theorem last4_is_four_digits (pages : list str) (v : str) :
  value (extract_last4 pages) = Some v ->
  digit_run 4 4 v /\ exists text, In text pages /\ occurs v text.
Proof.
  intros H.
  destruct (last4_loop_value pages 0 v H) as (text & m & Hin & Em & Eg).
  destruct (search_group1_occurs RE_LAST4 (digits 4 4) text m eq_refl Em)
    as (g & gi & gi' & Eg' & Ho & _ & Sg).
  assert (g = v) by congruence; subst g.
  split; [apply (sem_digits _ _ _ _ _ _ Sg) | exists text; auto].
Qed.

(** X5. The snippet of a result is normalized text of bounded length.  The
    snippet the four pattern extractors return is the one built around the
    label match on one of the pages; such a snippet is left unchanged by
    [normalize_spaces], is at most 80 characters longer than the text
    matched, and no longer than the page.  The snippet [extract_card_variant]
    returns is left unchanged by [normalize_spaces] and has at most 60
    characters. *)
Theorem snippets_normalized_and_bounded (pages : list str) (hint : option str) (s : str) :
  (forall p text m,
     search p text = Some m ->
     normalize_spaces (snippet_around text (span m) 40)
     = snippet_around text (span m) 40
     /\ len (snippet_around text (span m) 40) <= len (m_group0 m) + 80
     /\ len (snippet_around text (span m) 40) <= len text)
  /\ (snippet (extract_last4 pages) = Some s ->
      snippet_of_match RE_LAST4 pages s)
  /\ (forall e, extract_due_date pages = Returns e -> snippet e = Some s ->
                snippet_of_match RE_DUE pages s)
  /\ (forall e, extract_statement_period pages = Returns e -> snippet e = Some s ->
                snippet_of_match RE_PERIOD pages s)
  /\ (forall e, extract_total_balance pages = Returns e -> snippet e = Some s ->
                snippet_of_match RE_TOTAL_BAL pages s)
  /\ (snippet (extract_card_variant pages hint) = Some s ->
      normalize_spaces s = s /\ len s <= 60).
Proof.
  split; [intros p text m; apply match_snippet|].
  split.
  { intros Hs.
    destruct (result_shape_page _ _ _ _ _ (last4_loop_shape pages 0) Hs) as [p Hp].
    destruct (last4_loop_origin pages 0 p Hp) as (k & text & m & _ & F & R).
    destruct (first_match_in _ _ _ _ _ F) as [Hin Hm].
    exists text, m; split; [exact Hin|]; split; [exact Hm|].
    unfold extract_last4 in Hs; rewrite R in Hs; simpl in Hs; congruence. }
  split.
  { intros e He Hs.
    destruct (due_date_loop_shape pages 0) as (e' & He' & Sh).
    assert (e' = e) by (unfold extract_due_date in He; congruence); subst e'.
    destruct (result_shape_page _ _ _ _ _ Sh Hs) as [p Hp].
    destruct (due_date_loop_origin pages 0 e p He Hp)
      as (k & text & m & g & d & v & _ & (Hn & _) & Em & _ & _ & _ & R).
    exists text, m; split; [eapply nth_error_In; exact Hn|]; split; [exact Em|].
    rewrite R in Hs; simpl in Hs; congruence. }
  split.
  { intros e He Hs.
    destruct (period_loop_shape pages 0) as (e' & He' & Sh).
    assert (e' = e) by (unfold extract_statement_period in He; congruence); subst e'.
    destruct (result_shape_page _ _ _ _ _ Sh Hs) as [p Hp].
    destruct (period_loop_origin pages 0 e p He Hp) as (k & text & m & g & _ & F & _ & R).
    destruct (first_match_in _ _ _ _ _ F) as [Hin Hm].
    exists text, m; split; [exact Hin|]; split; [exact Hm|].
    rewrite R in Hs; simpl in Hs; congruence. }
  split.
  { intros e He Hs.
    destruct (total_loop_shape pages 0) as (e' & He' & Sh).
    assert (e' = e) by (unfold extract_total_balance in He; congruence); subst e'.
    destruct (result_shape_page _ _ _ _ _ Sh Hs) as [p Hp].
    destruct (total_loop_origin pages 0 e p He Hp)
      as (k & text & m & g & amt & _ & F & _ & _ & R).
    destruct (first_match_in _ _ _ _ _ F) as [Hin Hm].
    exists text, m; split; [exact Hin|]; split; [exact Hm|].
    rewrite R in Hs; simpl in Hs; congruence. }
  destruct hint as [[|c h]|]; simpl; try discriminate.
  generalize 0 at 1.
  induction pages as [|text pages IH]; intros i; cbn [variant_loop]; [discriminate|].
  destruct (variant_on_page i text (str_lower text) (variant_names (c :: h)))
    as [e|] eqn:E; [|apply IH].
  clear IH; revert E.
  induction (variant_names (c :: h)) as [|nm names IHn]; simpl; [discriminate|].
  destruct (contains nm (str_lower text)); [|exact IHn].
  intros E Hs; injection E as <-; simpl in Hs; injection Hs as <-.
  apply variant_snippet.
Qed.

(** X6. A page number in the result of [extract_card_variant] names the
    first page whose lower-cased text holds a candidate name of the hinted
    issuer; the value is the title-cased form of the first name, in list
    order, that the page holds, and the snippet is the normalized window of
    30 characters before and after the index at which that name is first
    found. *)
Theorem card_variant_origin (pages : list str) (hint : option str) (p : Z) :
  page (extract_card_variant pages hint) = Some p ->
  exists h k text earlier nm later,
    hint = Some h /\
    p = Z.of_nat k + 1 /\
    nth_error pages k = Some text /\
    (forall j t, (j < k)%nat -> nth_error pages j = Some t ->
                 no_name_on (variant_names h) t) /\
    variant_names h = earlier ++ nm :: later /\
    (forall n, In n earlier -> ~ occurs n (str_lower text)) /\
    occurs nm (str_lower text) /\
    extract_card_variant pages hint
    = {| value := Some (title nm);
         page := Some p;
         snippet :=
           Some (normalize_spaces
                   (slice text (Z.max 0 (find (str_lower text) nm - 30))
                               (find (str_lower text) nm + 30)));
         confidence := 0.85;
         notes := None |}.
Proof.
  destruct hint as [[|c h]|]; simpl; try discriminate.
  intros H.
  destruct (variant_loop_origin _ _ _ _ H)
    as (k & text & earlier & nm & later & E & Hn & Hb & En & He & Ho & R).
  exists (c :: h), k, text, earlier, nm, later.
  split; [reflexivity|]; split; [exact E|].
  repeat (split; [assumption|]); exact R.
Qed.

(** X7. With a hint that is not empty and is none of chase, amex, citi, boa,
    hsbc and sbi, [extract_card_variant] returns the not-found extraction,
    whatever the pages hold; only a hint among the six can give a value. *)
Theorem card_variant_unknown_issuer (pages : list str) (hint : str) :
  (hint <> [] -> ~ In hint VARIANT_ISSUERS ->
   extract_card_variant pages (Some hint) = absent "not found")
  /\ (value (extract_card_variant pages (Some hint)) <> None ->
      In hint VARIANT_ISSUERS).
Proof.
  split.
  - intros Hn Hu; destruct hint as [|c h]; [congruence|].
    unfold extract_card_variant.
    rewrite (variant_names_unknown _ Hu); apply variant_loop_no_names.
  - intros H; apply variant_names_known; intros E.
    apply H; destruct hint as [|c h]; [reflexivity|].
    unfold extract_card_variant; rewrite E, variant_loop_no_names; reflexivity.
Qed.

(** X8. On every list of page texts the pipeline returns a record and raises
    nothing.  Its fields are what the extractors return on the pages, the
    variant extractor being given the detected issuer.  The issuer hint is
    absent or one of pnb, lena, hdfc and sbi.  The card variant is noted
    "issuer unknown" when no issuer is detected and is not found when the
    issuer is pnb, lena or hdfc; it has a value only when the issuer is sbi,
    and the value is then one of Prime, Simplyclick, Elite and Classic. *)
Theorem pipeline_returns (pages : list str) :
  exists r,
    parse_pages pages = Returns r
    /\ issuer_hint r = find_issuer (join [NL] pages)
    /\ card_last4 r = extract_last4 pages
    /\ extract_due_date pages = Returns (payment_due_date r)
    /\ extract_statement_period pages = Returns (statement_period r)
    /\ extract_total_balance pages = Returns (total_balance r)
    /\ card_variant r = extract_card_variant pages (issuer_hint r)
    /\ (issuer_hint r = None \/
        exists h, issuer_hint r = Some h /\
                  In h [u "pnb"; u "lena"; u "hdfc"; u "sbi"])
    /\ (issuer_hint r = None -> card_variant r = absent "issuer unknown")
    /\ (forall h, issuer_hint r = Some h -> h <> u "sbi" ->
                  card_variant r = absent "not found")
    /\ (forall v, value (card_variant r) = Some v ->
                  issuer_hint r = Some (u "sbi") /\
                  In v [u "Prime"; u "Simplyclick"; u "Elite"; u "Classic"]).
Proof.
  destruct (due_date_loop_shape pages 0) as (due & Ed & _).
  destruct (period_loop_shape pages 0) as (per & Ep & _).
  destruct (total_loop_shape pages 0) as (tot & Et & _).
  unfold parse_pages, extract_due_date, extract_statement_period,
    extract_total_balance.
  rewrite Ed, Ep, Et; cbn [bind].
  eexists; split; [reflexivity|]; cbn [issuer_hint card_last4 card_variant
    payment_due_date statement_period total_balance].
  do 6 (split; [reflexivity|]).
  assert (R : find_issuer (join [NL] pages) = None \/
              exists h, find_issuer (join [NL] pages) = Some h /\
                        In h [u "pnb"; u "lena"; u "hdfc"; u "sbi"]).
  { destruct (find_issuer (join [NL] pages)) as [h|] eqn:E; [right | left; reflexivity].
    exists h; split; [reflexivity|].
    exact (first_issuer_range _ _ _ E). }
  split; [exact R|].
  split; [intros ->; reflexivity|].
  assert (K : forall h, find_issuer (join [NL] pages) = Some h -> h <> u "sbi" ->
                        extract_card_variant pages (find_issuer (join [NL] pages))
                        = absent "not found").
  { intros h E Hs; rewrite E.
    destruct R as [R|(h' & E' & Hin)]; [congruence|].
    assert (h' = h) by congruence; subst h'.
    destruct Hin as [<-|[<-|[<-|[<-|[]]]]];
      try (unfold extract_card_variant; simpl; apply variant_loop_no_names).
    congruence. }
  split; [exact K|].
  intros v Hv.
  destruct (find_issuer (join [NL] pages)) as [h|] eqn:E; [|discriminate].
  destruct (list_eq_dec N.eq_dec h (u "sbi")) as [->|Hs].
  - split; [reflexivity|].
    assert (Hp : exists p, page (extract_card_variant pages (Some (u "sbi"))) = Some p).
    { destruct (variant_loop_shape (variant_names (u "sbi")) pages 0)
        as [A|(v' & p & s' & _ & A)];
        unfold extract_card_variant in *; simpl in *; rewrite A in *;
        [discriminate | eexists; reflexivity]. }
    destruct Hp as [p Hp].
    destruct (variant_loop_origin _ _ _ _ Hp)
      as (k & text & earlier & nm & later & _ & _ & _ & En & _ & _ & R').
    unfold extract_card_variant in Hv; simpl in Hv, R'.
    rewrite R' in Hv; simpl in Hv; injection Hv as <-.
    assert (Hin : In nm (variant_names (u "sbi"))) by (rewrite En; apply in_elt).
    simpl in Hin.
    destruct Hin as [<-|[<-|[<-|[<-|[]]]]]; simpl; auto.
  - rewrite (K h eq_refl Hs) in Hv; discriminate.
Qed.

(** X9. Pages with no text give nothing.  When [extract_text] gives [None]
    or the empty string for every page, [text_from_pdf] gives as many empty
    page texts, each of the four pattern extractors returns the not-found
    extraction, the variant extractor returns no value for any hint, and the
    pipeline returns a record with these fields and raises nothing. *)
Theorem textless_document (extracted : list (option str)) :
  (forall t, In t extracted -> textless t) ->
  let pages := text_from_pdf extracted in
  List.length pages = List.length extracted
  /\ extract_last4 pages = absent "not found"
  /\ extract_due_date pages = Returns (absent "not found")
  /\ extract_statement_period pages = Returns (absent "not found")
  /\ extract_total_balance pages = Returns (absent "not found")
  /\ (forall hint, value (extract_card_variant pages hint) = None)
  /\ exists r,
       parse_pdf extracted = Returns r
       /\ card_last4 r = absent "not found"
       /\ payment_due_date r = absent "not found"
       /\ statement_period r = absent "not found"
       /\ total_balance r = absent "not found"
       /\ value (card_variant r) = None.
Proof.
  intros H pages.
  pose proof (text_from_pdf_textless extracted H) as Ht; fold pages in Ht.
  assert (L : extract_last4 pages = absent "not found").
  { apply (result_shape_none _ _ _ _ (last4_loop_shape pages 0)).
    apply last4_loop_none; intros t Hin; rewrite (Ht t Hin); reflexivity. }
  assert (D : extract_due_date pages = Returns (absent "not found")).
  { destruct (due_date_loop_shape pages 0) as (e & E & Sh).
    unfold extract_due_date; rewrite E; f_equal.
    apply (result_shape_none _ _ _ _ Sh).
    apply (due_date_loop_none pages 0 e E).
    intros t Hin (m & g & d & Em & _); rewrite (Ht t Hin) in Em; discriminate. }
  assert (P : extract_statement_period pages = Returns (absent "not found")).
  { destruct (period_loop_shape pages 0) as (e & E & Sh).
    unfold extract_statement_period; rewrite E; f_equal.
    apply (result_shape_none _ _ _ _ Sh).
    apply (period_loop_none pages 0 e E).
    intros t Hin; rewrite (Ht t Hin); reflexivity. }
  assert (T : extract_total_balance pages = Returns (absent "not found")).
  { destruct (total_loop_shape pages 0) as (e & E & Sh).
    unfold extract_total_balance; rewrite E; f_equal.
    apply (result_shape_none _ _ _ _ Sh).
    apply (total_loop_none pages 0 e E).
    intros t Hin; rewrite (Ht t Hin); reflexivity. }
  assert (V : forall hint, value (extract_card_variant pages hint) = None).
  { intros [[|c h]|]; simpl; try reflexivity.
    rewrite variant_loop_textless; [reflexivity | | exact Ht].
    intros n; apply variant_names_nonempty. }
  split; [apply text_from_pdf_length|].
  repeat (split; [assumption|]).
  unfold parse_pdf, parse_pages; fold pages.
  rewrite D, P, T; cbn [bind].
  eexists; split; [reflexivity|]; simpl.
  repeat (split; [first [exact L | reflexivity]|]).
  apply V.
Qed.

(** X10. Pages put before a document that give an extractor nothing change
    its result only in the page number, which moves on by their count: for
    the last four digits, the statement period and the total balance, pages
    the label pattern does not match; for the due date, pages that are not
    dated; for the card variant, pages that hold no candidate name. *)
Theorem leading_pages_shift (before pages : list str) :
  let k := pages_count before in
  ((forall t, In t before -> search RE_LAST4 t = None) ->
   extract_last4 (before ++ pages) = shift_page k (extract_last4 pages))
  /\ ((forall t, In t before -> search RE_PERIOD t = None) ->
      forall e, extract_statement_period pages = Returns e ->
                extract_statement_period (before ++ pages) = Returns (shift_page k e))
  /\ ((forall t, In t before -> search RE_TOTAL_BAL t = None) ->
      forall e, extract_total_balance pages = Returns e ->
                extract_total_balance (before ++ pages) = Returns (shift_page k e))
  /\ ((forall t, In t before -> ~ dated_page t) ->
      forall e, extract_due_date pages = Returns e ->
                extract_due_date (before ++ pages) = Returns (shift_page k e))
  /\ (forall hint : str,
        (forall t, In t before -> no_name_on (variant_names hint) t) ->
        extract_card_variant (before ++ pages) (Some hint)
        = shift_page k (extract_card_variant pages (Some hint))).
Proof.
  intros k; subst k; unfold pages_count.
  split; [|split; [|split; [|split]]].
  - intros H; unfold extract_last4.
    rewrite (last4_loop_skip _ H); apply last4_loop_shift.
  - intros H e He; unfold extract_statement_period.
    rewrite (period_loop_skip _ H); apply period_loop_shift; exact He.
  - intros H e He; unfold extract_total_balance.
    rewrite (total_loop_skip _ H); apply total_loop_shift; exact He.
  - intros H e He; unfold extract_due_date.
    rewrite (due_date_loop_skip _ H); apply due_date_loop_shift; exact He.
  - intros hint H; destruct hint as [|c h]; [reflexivity|].
    unfold extract_card_variant.
    rewrite variant_loop_skip; [apply variant_loop_shift|].
    intros t n Ht Hn; apply (H t Ht n Hn).
Qed.

(** X11. A value that is present may be the empty string.  The value of
    [extract_statement_period] is the captured phrase normalized; where the
    space is whitespace, as it is, the value is the empty string exactly when
    the phrase holds whitespace only, and the result still has its page, its
    snippet and the confidence 0.9.  The value of [extract_total_balance],
    when present, is never empty. *)
Theorem present_value_may_be_empty (pages : list str) :
  isspace SP = true ->
  (forall e p,
     extract_statement_period pages = Returns e ->
     page e = Some p ->
     exists k text m g,
       first_match_at RE_PERIOD pages k text m /\
       m_group1 m = Some g /\
       e = found (Some (normalize_spaces g)) (Z.of_nat k) text m 0.9 /\
       (value e = Some [] <-> Forall is_space g))
  /\ (forall e v,
        extract_total_balance pages = Returns e ->
        value e = Some v -> v <> []).
Proof.
  intros Hsp; split.
  - intros e p He Hp.
    destruct (period_loop_origin pages 0 e p He Hp) as (k & text & m & g & _ & F & Eg & ->).
    exists k, text, m, g; repeat (split; [assumption || reflexivity|]).
    simpl value; split.
    + intros H; injection H as H; apply normalize_nil_spaces; exact H.
    + intros H; rewrite (normalize_spaces_nil _ Hsp H); reflexivity.
  - intros e v He Hv.
    destruct (total_loop_shape pages 0) as (e' & He' & Sh).
    assert (e' = e) by (unfold extract_total_balance in He; congruence); subst e'.
    destruct Sh as [->|(v' & p & s' & _ & E)]; [discriminate|].
    assert (Hp : page e = Some p) by (rewrite E; reflexivity).
    destruct (total_loop_origin pages 0 e p He Hp)
      as (k & text & m & g & amt & _ & _ & _ & Ea & R).
    rewrite R in Hv; simpl in Hv; injection Hv as <-.
    destruct (currency_token_found g amt Ea) as (_ & sign & ws & body & frac & -> & _ & _ & Hb & _).
    intros H; apply Hb.
    destruct sign; [|discriminate].
    destruct ws; [|discriminate].
    destruct body; [reflexivity | discriminate].
Qed.

(** X12. The total balance returned is the captured phrase itself.  The
    currency pattern searched for in the phrase group 1 of the label pattern
    has captured finds the whole phrase, so [balance_value] gives the phrase
    as it stands in the page, not normalized, at confidence 0.95, and the
    branch of confidence 0.8 is never taken. *)
Theorem total_balance_is_captured_phrase (pages : list str) (e : Extraction) (p : Z) :
  extract_total_balance pages = Returns e ->
  page e = Some p ->
  exists k text m g,
    first_match_at RE_TOTAL_BAL pages k text m /\
    m_group1 m = Some g /\
    balance_value g = (Some g, 0.95%float) /\
    e = found (Some g) (Z.of_nat k) text m 0.95 /\
    occurs g text /\ currency_shape g.
Proof.
  intros He Hp.
  destruct (total_loop_origin pages 0 e p He Hp)
    as (k & text & m & g & amt & _ & F & Eg & Ea & R).
  pose proof F as (_ & Hm & _).
  destruct (search_captured RE_TOTAL_BAL currency text m g eq_refl eq_refl Hm Eg)
    as (amt' & Ea' & E0 & _).
  change (Build_pattern currency false) with RE_CURRENCY in Ea'.
  assert (amt' = amt) by congruence; subst amt'.
  destruct (search_group1_occurs RE_TOTAL_BAL currency text m eq_refl Hm)
    as (g' & _ & _ & Eg' & Ho & _).
  assert (g' = g) by congruence; subst g'.
  exists k, text, m, g.
  split; [exact F|]; split; [exact Eg|].
  split; [unfold balance_value; rewrite Ea, E0; reflexivity|].
  split; [rewrite R, E0; reflexivity|].
  split; [exact Ho|].
  rewrite <- E0; exact (proj2 (currency_token_found g amt Ea)).
Qed.

(** X13. [normalize_spaces] changes whitespace only.  Where the space is
    whitespace, as it is, the characters of the result that are not
    whitespace are those of the input, in the same order; the result is never
    longer than the input; and the strings [normalize_spaces] leaves as they
    are are exactly those in which every whitespace character is a space
    standing alone and which [strip] leaves as they are. *)
Theorem normalize_keeps_visible (s : str) :
  isspace SP = true ->
  visible (normalize_spaces s) = visible s
  /\ len (normalize_spaces s) <= len s
  /\ (normalize_spaces s = s <-> single_spaced s /\ strip s = s).
Proof.
  intros Hsp.
  split; [apply normalize_visible; exact Hsp|].
  split; [apply normalize_length | apply normalize_fixed_iff].
Qed.

End Extras.

(** ** The claims at concrete pages *)

Section Concrete.
Local Existing Instance Latin.

Lemma first_page_with_value_wins_witness :
  let before := [u "Due Date: soon"] in
  let text := u "Card ending in 4321, Due Date: 04/15/2024" in
  let after := [u "Card number 9999, Due Date: 05/16/2025"] in
  (forall t, In t before -> search RE_LAST4 t = None) /\
  search RE_LAST4 text <> None /\
  page (extract_last4 (before ++ text :: after)) = Some 2 /\
  value (extract_last4 (before ++ text :: after)) = Some (u "4321") /\
  (forall t, In t before -> search RE_DUE t <> None /\ ~ dated_page t) /\
  dated_page text /\
  exists e,
    extract_due_date (before ++ text :: after) = Returns e /\
    page e = Some 2 /\ value e = Some (u "04/15/2024").
Proof.
  intros before text after.
  assert (Hb : forall t, In t before -> search RE_LAST4 t = None).
  { intros t [<-|[]]; vm_compute; reflexivity. }
  split; [exact Hb|].
  split; [vm_compute; discriminate|].
  destruct (search RE_LAST4 text) as [m|] eqn:Hm; [|vm_compute in Hm; discriminate].
  destruct (first_page_with_value_wins (U := Latin) before text after)
    as (T1 & _).
  destruct (T1 m Hb Hm) as (g & Eg & ->); clear T1.
  split; [reflexivity|].
  split; [simpl value; rewrite <- Eg; vm_compute in Hm; injection Hm as <-; reflexivity|].
  assert (Hd : forall t, In t before -> search RE_DUE t <> None /\ ~ dated_page t).
  { intros t [<-|[]]; split; [vm_compute; discriminate|].
    intros (m' & g' & d' & Hm' & Eg' & Ed').
    vm_compute in Hm'; injection Hm' as <-.
    injection Eg' as <-.
    vm_compute in Ed'; discriminate. }
  split; [exact Hd|].
  destruct (search RE_DUE text) as [m2|] eqn:Hm2; [|vm_compute in Hm2; discriminate].
  destruct (m_group1 m2) as [g2|] eqn:Eg2;
    [|vm_compute in Hm2; injection Hm2 as <-; discriminate].
  destruct (search_date g2) as [d2|] eqn:Ed2;
    [|vm_compute in Hm2; injection Hm2 as <-; injection Eg2 as <-;
      vm_compute in Ed2; discriminate].
  split; [exists m2, g2, d2; auto|].
  destruct (first_page_with_value_wins (U := Latin) before text after)
    as (_ & _ & _ & T4 & _).
  destruct (T4 m2 g2 d2 (fun t Ht => proj2 (Hd t Ht)) Hm2 Eg2 Ed2) as (v & Ev & ->).
  eexists; split; [reflexivity|]; split; [reflexivity|].
  simpl value.
  vm_compute in Hm2; injection Hm2 as <-; injection Eg2 as <-.
  vm_compute in Ed2; injection Ed2 as <-; injection Ev as <-.
  vm_compute; reflexivity.
Defined.

(** The claim C1 fails for the due-date extractor: the label pattern matches
    on the first page, and the extraction returned is for the second. *)
Lemma due_date_label_page_passed_over :
  search RE_DUE (u "Due Date: soon") <> None /\
  exists e,
    extract_due_date [u "Due Date: soon"; u "Due Date: 04/15/2024"] = Returns e /\
    page e = Some 2 /\ value e = Some (u "04/15/2024").
Proof.
  split; [vm_compute; discriminate|].
  eexists; split; [vm_compute; reflexivity|].
  split; reflexivity.
Qed.

Lemma find_issuer_declared_order_witness :
  keyword_present (str_lower (u "HDFC Bank, also PNB")) [u "pnb"; u "punjab national bank"] /\
  keyword_present (str_lower (u "HDFC Bank, also PNB")) [u "hdfc"] /\
  find_issuer (u "HDFC Bank, also PNB") = Some (u "pnb").
Proof.
  assert (P : keyword_present (str_lower (u "HDFC Bank, also PNB"))
                [u "pnb"; u "punjab national bank"]).
  { exists (u "pnb"); split; [left; reflexivity|].
    apply contains_spec; vm_compute; reflexivity. }
  assert (H : keyword_present (str_lower (u "HDFC Bank, also PNB")) [u "hdfc"]).
  { exists (u "hdfc"); split; [left; reflexivity|].
    apply contains_spec; vm_compute; reflexivity. }
  split; [exact P|]; split; [exact H|].
  destruct (find_issuer_declared_order (U := Latin) (u "HDFC Bank, also PNB"))
    as (_ & _ & _ & T).
  exact (T P H).
Defined.



Lemma total_balance_confidence_witness :
  search RE_TOTAL_BAL (u "Total Due: ,") <> None /\
  exists g amt,
    balance_value g = (Some (m_group0 amt), 0.95%float) /\ currency_shape g.
Proof.
  split; [vm_compute; discriminate|].
  destruct (search RE_TOTAL_BAL (u "Total Due: ,")) as [m|] eqn:Hm;
    [|vm_compute in Hm; discriminate].
  destruct (total_balance_confidence (U := Latin) []) as (T & _).
  destruct (T _ m Hm) as (g & amt & _ & Sg & _ & Eb).
  exists g, amt; auto.
Defined.

Lemma due_date_value_witness :
  let text := u "Pay By Date - March 5, 2024 or earlier" in
  let g := u "March 5, 2024 or earlier" in
  (forall v, occurs v g -> ~ numeric_date_shape v) /\
  (exists v, occurs v g /\ worded_date_shape v) /\
  exists e,
    extract_due_date [text] = Returns e /\ value e = Some (u "March 5, 2024").
Proof.
  intros text g.
  assert (Hn : forall v, occurs v g -> ~ numeric_date_shape v)
    by (apply no_numeric_date; vm_compute; reflexivity).
  assert (Hw : exists v, occurs v g /\ worded_date_shape v).
  { destruct (search RE_DATE_WORD g) as [d|] eqn:Ed; [|vm_compute in Ed; discriminate].
    destruct (worded_date_found g d Ed) as (v & _ & Ho & Sh); exists v; auto. }
  split; [exact Hn|]; split; [exact Hw|].
  destruct (search RE_DUE text) as [m|] eqn:Hm; [|vm_compute in Hm; discriminate].
  assert (Eg : m_group1 m = Some g)
    by (vm_compute in Hm; injection Hm as <-; reflexivity).
  destruct (due_date_value (U := Latin)) as (T & _).
  destruct (T [] text [] m g (fun t (F : In t []) => match F with end) Hm Eg)
    as (_ & _ & _ & W & _).
  destruct (W Hn Hw) as (a & v & b & E & Sh & Lm & Ex).
  assert (C : exists e0,
            extract_due_date [text] = Returns e0 /\
            value e0 = Some (u "March 5, 2024"))
    by (eexists; split; [vm_compute; reflexivity | reflexivity]).
  destruct C as (e0 & C1 & C2).
  pose proof (eq_trans (eq_sym Ex) C1) as K; injection K as K.
  eexists; split; [exact Ex|].
  exact (eq_trans (f_equal value K) C2).
Defined.

(** The claim C5 fails on the shapes it gives.  The shapes as worded do take
    the two dates the claim gives; but a date with a year of three digits is
    found and returned, which has neither shape as worded; so is a worded
    date with no space after the comma; and where the date found holds a run
    of two spaces, the value returned has one, and is no part of the phrase
    that was captured. *)
Lemma due_date_shapes_as_worded_fail :
  fullmatch SPEC_DATE (u "04/15/2024") = true
  /\ fullmatch SPEC_DATE_WORD (u "March 5, 2024") = true
  /\ (exists e,
        extract_due_date [u "Due Date: 1/2/123"] = Returns e /\
        value e = Some (u "1/2/123"))
  /\ fullmatch SPEC_DATE (u "1/2/123") = false
  /\ fullmatch SPEC_DATE_WORD (u "1/2/123") = false
  /\ (exists e,
        extract_due_date [u "Due Date: March 5,2024"] = Returns e /\
        value e = Some (u "March 5,2024"))
  /\ fullmatch SPEC_DATE (u "March 5,2024") = false
  /\ fullmatch SPEC_DATE_WORD (u "March 5,2024") = false
  /\ (exists m d e,
        search RE_DUE (u "Due Date: March  5, 2024") = Some m /\
        m_group1 m = Some (u "March  5, 2024") /\
        search_date (u "March  5, 2024") = Some d /\
        m_group1 d = Some (u "March  5, 2024") /\
        extract_due_date [u "Due Date: March  5, 2024"] = Returns e /\
        value e = Some (u "March 5, 2024") /\
        contains (u "March 5, 2024") (u "March  5, 2024") = false).
Proof.
  repeat (split; [vm_compute; reflexivity|]).
  split; [eexists; split; [vm_compute; reflexivity | reflexivity]|].
  repeat (split; [vm_compute; reflexivity|]).
  split; [eexists; split; [vm_compute; reflexivity | reflexivity]|].
  repeat (split; [vm_compute; reflexivity|]).
  eexists; eexists; eexists.
  split; [vm_compute; reflexivity|].
  split; [reflexivity|].
  split; [vm_compute; reflexivity|].
  split; [reflexivity|].
  split; [vm_compute; reflexivity|].
  split; reflexivity.
Qed.

Lemma extract_card_variant_first_listed_name_witness :
  let text := u "Your SBI SimplyCLICK card" in
  let both := u "SimplyCLICK or Prime" in
  occurs (u "simplyclick") (str_lower text) /\
  ~ occurs (u "prime") (str_lower text) /\
  value (extract_card_variant [text] (Some (u "sbi"))) = Some (u "Simplyclick") /\
  confidence (extract_card_variant [text] (Some (u "sbi"))) = 0.85%float /\
  occurs (u "simplyclick") (str_lower both) /\
  occurs (u "prime") (str_lower both) /\
  value (extract_card_variant [both] (Some (u "sbi"))) = Some (u "Prime").
Proof.
  intros text both.
  assert (S : occurs (u "simplyclick") (str_lower text))
    by (apply contains_spec; vm_compute; reflexivity).
  assert (P : ~ occurs (u "prime") (str_lower text))
    by (apply contains_false; vm_compute; reflexivity).
  assert (S' : occurs (u "simplyclick") (str_lower both))
    by (apply contains_spec; vm_compute; reflexivity).
  assert (P' : occurs (u "prime") (str_lower both))
    by (apply contains_spec; vm_compute; reflexivity).
  split; [exact S|]; split; [exact P|].
  destruct (extract_card_variant_first_listed_name (U := Latin) [text])
    as (_ & _ & _ & T).
  destruct (T text eq_refl S P) as [V C].
  split; [exact V|]; split; [exact C|].
  split; [exact S'|]; split; [exact P'|].
  destruct (extract_card_variant_first_listed_name (U := Latin) [both])
    as (_ & _ & G & _).
  rewrite (G (u "sbi") [] both [] [] (u "prime")
             [u "simplyclick"; u "elite"; u "classic"]).
  - reflexivity.
  - discriminate.
  - reflexivity.
  - reflexivity.
  - intros t n [].
  - intros n [].
  - exact P'.
Defined.

Lemma snippet_around_window_witness :
  0 <= 0 <= 19 /\
  len (snippet_around (u "Card ending in 4321") (0, 19) 40) <= (19 - 0) + 80.
Proof.
  split; [lia|].
  apply (snippet_around_window (U := Latin) (u "Card ending in 4321") 0 19).
  lia.
Defined.

End Concrete.

(** ** The further properties at concrete pages *)

Section ConcreteFurther.
Local Existing Instance Latin.

Lemma last4_is_four_digits_witness :
  let pages := [u "Statement"; u "Card ending in 4321"] in
  value (extract_last4 pages) = Some (u "4321") /\
  digit_run 4 4 (u "4321") /\
  exists text, In text pages /\ occurs (u "4321") text.
Proof.
  intros pages.
  assert (E : value (extract_last4 pages) = Some (u "4321"))
    by (vm_compute; reflexivity).
  split; [exact E|].
  exact (last4_is_four_digits (U := Latin) pages (u "4321") E).
Defined.

Lemma card_variant_origin_witness :
  let pages := [u "Statement"; u "Your SBI SimplyCLICK card"] in
  page (extract_card_variant pages (Some (u "sbi"))) = Some 2 /\
  exists k text earlier nm later,
    2 = Z.of_nat k + 1 /\
    nth_error pages k = Some text /\
    variant_names (u "sbi") = earlier ++ nm :: later /\
    occurs nm (str_lower text) /\
    value (extract_card_variant pages (Some (u "sbi"))) = Some (title nm).
Proof.
  intros pages.
  assert (E : page (extract_card_variant pages (Some (u "sbi"))) = Some 2)
    by (vm_compute; reflexivity).
  split; [exact E|].
  destruct (card_variant_origin (U := Latin) pages (Some (u "sbi")) 2 E)
    as (h & k & text & earlier & nm & later & Eh & Ek & Hn & _ & En & _ & Ho & R).
  injection Eh as <-.
  exists k, text, earlier, nm, later.
  repeat (split; [assumption|]).
  rewrite R; reflexivity.
Defined.

Lemma textless_document_witness :
  let extracted := [None; Some []; None] in
  (forall t, In t extracted -> textless t) /\
  text_from_pdf extracted = [[]; []; []] /\
  exists r,
    parse_pdf extracted = Returns r
    /\ card_last4 r = absent "not found"
    /\ payment_due_date r = absent "not found"
    /\ statement_period r = absent "not found"
    /\ total_balance r = absent "not found"
    /\ value (card_variant r) = None.
Proof.
  intros extracted.
  assert (H : forall t, In t extracted -> textless t).
  { intros t [<-|[<-|[<-|[]]]]; [left | right | left]; reflexivity. }
  split; [exact H|].
  split; [reflexivity|].
  exact (proj2 (proj2 (proj2 (proj2 (proj2 (proj2
           (textless_document (U := Latin) extracted H))))))).
Defined.

Lemma present_value_may_be_empty_witness :
  let pages := [u "Billing Period: "] in
  isspace SP = true /\
  exists e,
    extract_statement_period pages = Returns e /\
    page e = Some 1 /\
    confidence e = 0.9%float /\
    value e = Some [].
Proof.
  intros pages.
  assert (Hsp : isspace SP = true) by reflexivity.
  split; [exact Hsp|].
  destruct (extract_statement_period pages) as [e|] eqn:He;
    [|vm_compute in He; discriminate].
  assert (Hp : page e = Some 1) by (vm_compute in He; injection He as <-; reflexivity).
  destruct (proj1 (present_value_may_be_empty (U := Latin) pages Hsp) e 1 He Hp)
    as (k & text & m & g & (Hn & Hm & _) & Eg & R & Hv).
  exists e; split; [reflexivity|]; split; [exact Hp|].
  split; [rewrite R; reflexivity|].
  apply Hv.
  destruct k as [|[|k]]; simpl in Hn; try discriminate.
  injection Hn as <-.
  vm_compute in Hm; injection Hm as <-.
  injection Eg as <-.
  repeat constructor.
Defined.

Lemma total_balance_is_captured_phrase_witness :
  let phrase := RUPEE :: u "  1,234.50" in
  let text := u "Total Due: " ++ phrase ++ u " only" in
  exists e,
    extract_total_balance [text] = Returns e /\
    page e = Some 1 /\
    value e = Some phrase /\
    confidence e = 0.95%float /\
    normalize_spaces phrase <> phrase.
Proof.
  intros phrase text.
  destruct (extract_total_balance [text]) as [e|] eqn:He;
    [|vm_compute in He; discriminate].
  assert (Hp : page e = Some 1) by (vm_compute in He; injection He as <-; reflexivity).
  destruct (total_balance_is_captured_phrase (U := Latin) [text] e 1 He Hp)
    as (k & t & m & g & (Hn & Hm & _) & Eg & _ & R & _).
  exists e; split; [reflexivity|]; split; [exact Hp|].
  destruct k as [|[|k]]; simpl in Hn; try discriminate.
  injection Hn as <-.
  vm_compute in Hm; injection Hm as <-.
  injection Eg as <-.
  split; [rewrite R; reflexivity|].
  split; [rewrite R; reflexivity|].
  vm_compute; discriminate.
Defined.

Lemma normalize_keeps_visible_witness :
  let s := [NL; SP] ++ u "Due" ++ [SP; NL; NL; SP] ++ u "Date" ++ [NL] in
  isspace SP = true /\
  normalize_spaces s = u "Due Date" /\
  visible (normalize_spaces s) = u "DueDate" /\
  visible s = u "DueDate" /\
  len (normalize_spaces s) <= len s.
Proof.
  intros s.
  assert (Hsp : isspace SP = true) by reflexivity.
  destruct (normalize_keeps_visible (U := Latin) s Hsp) as (V & L & _).
  split; [exact Hsp|].
  split; [vm_compute; reflexivity|].
  split; [rewrite V; vm_compute; reflexivity|].
  split; [vm_compute; reflexivity | exact L].
Defined.

End ConcreteFurther.
